(** * Search over an editor document: queries, cursors and selection matching

    A shallow embedding of the search package's query layer
    ([src/src/word.ts]: the word-boundary predicates, the [Query] classes
    with the search commands, and the selection-match highlighter with the
    next-occurrence selector), together with proofs about it.

    Conventions.
    - A document ([Text]) is a sequence of characters addressed by a
      zero-based offset.  JavaScript strings are sequences of UTF-16 code
      units; here a character is an [ascii], and a string is a
      [list ascii].
    - Offsets, lengths and limits are JavaScript numbers holding integers;
      they are modelled in [Z], so [from - 1], [pos - 10000] and
      [Math.max(0, ...)] keep their meaning below zero.
    - [T | null] is [option T].
    - Loops of the source are recursive functions on an explicit amount of
      gas; they answer [OutOfGas] only when the gas runs out, and each one
      comes with a lemma that the gas its caller supplies is enough.
    - The match cursors ([./cursor], [./regexp]) are not part of the
      sources at hand and are modelled from the specification; the
      regular-expression primitive and the host's word lookup are
      parameters. *)

From Stdlib Require Import ZArith List Ascii String Bool Lia Sorted.
Import ListNotations.
Local Open Scope Z_scope.

(** ** Strings and documents *)

Definition str := list ascii.

Definition lit (s : string) : str := list_ascii_of_string s.

Fixpoint str_eqb (a b : str) : bool :=
  match a, b with
  | [], [] => true
  | x :: a', y :: b' => Ascii.eqb x y && str_eqb a' b'
  | _, _ => false
  end.

Definition Text := str.

(** [doc.length] *)
Definition length (doc : Text) : Z := Z.of_nat (List.length doc).

(** [doc.sliceString(from, to)]: the characters at offsets [from <= i < to],
    clipped to the document. *)
Definition sliceString (doc : Text) (from to : Z) : str :=
  firstn (Z.to_nat to - Z.to_nat from) (skipn (Z.to_nat from) doc).

(** ** Selections and editor state (the host's data, as far as it is read) *)

Module SelectionRange.
Record t := range { anchor : Z; head : Z }.
Definition from (r : t) : Z := Z.min (anchor r) (head r).
Definition to (r : t) : Z := Z.max (anchor r) (head r).
Definition empty (r : t) : bool := from r =? to r.
Definition cursor (pos : Z) : t := range pos pos.
End SelectionRange.

Module EditorSelection.
Record t := create { ranges : list SelectionRange.t; mainIndex : nat }.
Definition main (s : t) : SelectionRange.t :=
  nth (mainIndex s) (ranges s) (SelectionRange.cursor 0).
End EditorSelection.

Record EditorState := mkState {
  doc : Text;
  selection : EditorSelection.t
}.

(** [state.sliceDoc(from, to)] *)
Definition sliceDoc (state : EditorState) (from to : Z) : str :=
  sliceString (doc state) from to.

(** ** Word boundaries ([word.ts]) *)

Inductive CharCategory := Word | Space | Other.

Definition CharCategory_eqb (a b : CharCategory) : bool :=
  match a, b with
  | Word, Word | Space, Space | Other, Other => true
  | _, _ => false
  end.

(** Whether the characters directly outside the given positions are
    non-word characters. *)
Definition insideWordBoundaries (check : str -> CharCategory)
    (state : EditorState) (from to : Z) : bool :=
  ((from =? 0) || negb (CharCategory_eqb (check (sliceDoc state (from - 1) from)) Word))
  && ((to =? length (doc state))
      || negb (CharCategory_eqb (check (sliceDoc state to (to + 1))) Word)).

(** Whether the characters directly at the given positions are word
    characters. *)
Definition insideWord (check : str -> CharCategory)
    (state : EditorState) (from to : Z) : bool :=
  CharCategory_eqb (check (sliceDoc state from (from + 1))) Word
  && CharCategory_eqb (check (sliceDoc state (to - 1) to)) Word.

(** Whether the characters at the end of the given range are word
    characters inside non-word characters. *)
Definition isWholeWord (check : str -> CharCategory)
    (state : EditorState) (from to : Z) : bool :=
  insideWordBoundaries check state from to && insideWord check state from to.

(** The character at offset [i] of a document, when there is one. *)
Definition charAt (d : Text) (i : Z) : option ascii :=
  if i <? 0 then None else nth_error d (Z.to_nat i).

(** The character at offset [i] exists and the classifier calls it a word
    character. *)
Definition wordCharAt (check : str -> CharCategory) (d : Text) (i : Z) : Prop :=
  exists c, charAt d i = Some c /\ check [c] = Word.

(** ** Match results *)

(** The value a cursor reports: [{from, to}] for the literal cursor and
    [{from, to, match}] for the regular-expression cursor, whose [match]
    holds the whole match text at index 0 and the capture groups after it. *)
Record SearchResult := mkResult {
  from : Z;
  to : Z;
  match_ : option (list str)
}.

(** [x => x.toLowerCase()], on one character. *)
Definition toLowerCase (c : ascii) : ascii :=
  let n := nat_of_ascii c in
  if ((65 <=? n) && (n <=? 90))%nat then ascii_of_nat (n + 32) else c.

(** ** The literal match cursor *)

Module SearchCursor.

(** Modelled from the spec: the literal match cursor ([./cursor], whose
    source file is absent), after sections 3 and 4.1.  Its state is the
    bounded range still to scan ([pos] up to [limit]), the [done] flag and
    the current [value].  A match is an offset [p] inside the range at
    which the needle, folded character by character like the document
    text, is found, and that ends inside the range.
    [nextOverlapping] lands on the nearest match starting at or after
    [pos], which is the start of the range at first and one past the start
    of the previous match afterwards; [next] lands on the nearest match
    that, moreover, starts at or after the end of the previous one.
    Once [done], a cursor stays so. *)
Record t := mk {
  text : Text;
  query : str;
  normalize : ascii -> ascii;
  pos : Z;
  limit : Z;
  value : SearchResult;
  done : bool
}.

(** Modelled from the spec: [new SearchCursor(text, query, from, to,
    normalize)], a cursor bound to the range [[from, to)] of the document;
    the needle is folded at construction, and an absent [normalize] is the
    identity. *)
Definition create (text : Text) (query : str) (from to : Z)
    (normalize : option (ascii -> ascii)) : t :=
  let norm := match normalize with Some f => f | None => fun c => c end in
  mk text (map norm query) norm (Z.max 0 from) (Z.min to (length text))
     (mkResult 0 0 None) false.

(** Modelled from the spec: whether the folded needle [q] is found at
    offset [p], comparing character by character after folding. *)
Definition matchesAt (text : Text) (norm : ascii -> ascii) (q : str) (p : Z) : bool :=
  (0 <=? p) && str_eqb (map norm (sliceString text p (p + length q))) q.

(** Modelled from the spec: the least offset among [p, p+1, ...,
    p+count-1] at which the needle is found. *)
Fixpoint scan (text : Text) (norm : ascii -> ascii) (q : str)
    (count : nat) (p : Z) : option Z :=
  match count with
  | O => None
  | S k => if matchesAt text norm q p then Some p else scan text norm q k (p + 1)
  end.

(** Modelled from the spec: the single forward step, which lands on the
    nearest match at or after [start] that ends at or before the end of the
    range, or sets [done]. *)
Definition seek (c : t) (start : Z) : t :=
  if done c then c else
  match scan (text c) (normalize c) (query c)
             (Z.to_nat (limit c - length (query c) - start + 1)) start with
  | Some p =>
      mk (text c) (query c) (normalize c) (p + 1) (limit c)
         (mkResult p (p + length (query c)) None) false
  | None =>
      mk (text c) (query c) (normalize c) (pos c) (limit c) (value c) true
  end.

(** Modelled from the spec: [nextOverlapping()] advances to the nearest
    match that starts at least one past the start of the previous one. *)
Definition nextOverlapping (c : t) : t := seek c (pos c).

(** Modelled from the spec: [next()] advances to the nearest match that
    starts at or after the end of the previous one. *)
Definition next (c : t) : t := seek c (Z.max (pos c) (to (value c))).

(** An upper bound on the number of steps a cursor can still take; the gas
    of the loops over a cursor. *)
Definition budget (c : t) : nat := S (Z.to_nat (limit c - pos c + 1)).

End SearchCursor.

(** ** The regular-expression engine and its cursor *)

(** The regular-expression primitive of the platform, which runs on one
    in-memory string: [regexpExec pattern ignoreCase subject lastIndex] is
    the first match of the compiled pattern in [subject] at or after
    [lastIndex], as its index and its groups (the whole match text, then
    the capture groups); [validRegExp] is the check of [./regexp]. *)
Class RegExpEngine := {
  regexpExec : str -> bool -> str -> Z -> option (Z * list str);
  validRegExp : str -> bool
}.

(** What the cursor relies on: a match reported in [subject] from
    [lastIndex] starts at or after [lastIndex], has a whole-match text, and
    ends inside [subject]. *)
Definition EngineLaws (E : RegExpEngine) : Prop :=
  forall pattern ic subject lastIndex index groups,
    regexpExec pattern ic subject lastIndex = Some (index, groups) ->
    lastIndex <= index /\
    exists whole rest, groups = whole :: rest /\ index + length whole <= length subject.

Module RegExpCursor.
Section WithEngine.
Context {E : RegExpEngine}.

(** Modelled from the spec: the regular-expression match cursor
    ([./regexp], whose source file is absent), after sections 3 and 4.2.
    The cursor buffers the text of its range, runs the engine on the
    buffer and re-anchors the result at the start of the buffer; it is
    [done] when the engine finds no further match inside the range.
    [nextOverlapping] restarts the engine one past the start of the
    previous match, [next] at the end of the previous match. *)
Record t := mk {
  pattern : str;
  ignoreCase : bool;
  bufferStart : Z;
  buffer : str;
  pos : Z;
  value : SearchResult;
  done : bool
}.

(** Modelled from the spec: [new RegExpCursor(text, query, options, from,
    to)], a cursor bound to the range [[from, to)] of the document. *)
Definition create (text : Text) (query : str) (ignoreCase : bool) (from to : Z) : t :=
  let from' := Z.max 0 from in
  mk query ignoreCase from' (sliceString text from' (Z.min to (length text)))
     from' (mkResult 0 0 None) false.

(** Modelled from the spec: the single forward step, which runs the engine
    on the buffer from [start], or sets [done]. *)
Definition seek (c : t) (start : Z) : t :=
  if done c then c else
  match regexpExec (pattern c) (ignoreCase c) (buffer c) (start - bufferStart c) with
  | Some (index, groups) =>
      let from := bufferStart c + index in
      mk (pattern c) (ignoreCase c) (bufferStart c) (buffer c) (from + 1)
         (mkResult from (from + length (nth 0%nat groups [])) (Some groups)) false
  | None =>
      mk (pattern c) (ignoreCase c) (bufferStart c) (buffer c) (pos c) (value c) true
  end.

(** Modelled from the spec: [nextOverlapping()] restarts the search at
    [match.from + 1]. *)
Definition nextOverlapping (c : t) : t := seek c (pos c).

(** Modelled from the spec: [next()] restarts the search at [match.to]. *)
Definition next (c : t) : t := seek c (Z.max (pos c) (to (value c))).

(** An upper bound on the number of steps a cursor can still take; the gas
    of the loops over a cursor. *)
Definition budget (c : t) : nat :=
  S (Z.to_nat (bufferStart c + length (buffer c) - pos c + 1)).

End WithEngine.
End RegExpCursor.

(** ** Running loops on gas *)

Inductive run (A : Type) : Type :=
| Ok (a : A)
| OutOfGas.
Arguments Ok {A} a.
Arguments OutOfGas {A}.

Definition bind {A B : Type} (m : run A) (k : A -> run B) : run B :=
  match m with
  | Ok a => k a
  | OutOfGas => OutOfGas
  end.

Notation "x <- m ;; k" := (bind m (fun x => k))
  (at level 61, m at next level, right associativity).

(** ** Queries ([search.ts]) *)

Inductive Query :=
| StringQuery (search replace : str) (caseInsensitive : bool)
| RegExpQuery (search replace : str) (caseInsensitive : bool).

Definition search (q : Query) : str :=
  match q with StringQuery s _ _ | RegExpQuery s _ _ => s end.

Definition replace (q : Query) : str :=
  match q with StringQuery _ r _ | RegExpQuery _ r _ => r end.

Definition caseInsensitive (q : Query) : bool :=
  match q with StringQuery _ _ c | RegExpQuery _ _ c => c end.

Definition sameConstructor (q other : Query) : bool :=
  match q, other with
  | StringQuery _ _ _, StringQuery _ _ _ => true
  | RegExpQuery _ _ _, RegExpQuery _ _ _ => true
  | _, _ => false
  end.

(** [eq(other)] *)
Definition Query_eq (this other : Query) : bool :=
  str_eqb (search this) (search other) && str_eqb (replace this) (replace other)
  && Bool.eqb (caseInsensitive this) (caseInsensitive other)
  && sameConstructor this other.

Module FindPrev.
Definition ChunkSize : Z := 10000.
End FindPrev.

Module RegExp.
Definition HighlightMargin : Z := 250.
End RegExp.

(** One turn of a loop that either returns or goes on from a new position. *)
Inductive Turn :=
| Return (range : option SearchResult)
| Again (pos : Z).

Module StringQuery.

(** [cursor(doc, from = 0, to = doc.length)] *)
Definition cursor (this : Query) (doc : Text) (from to : Z) : SearchCursor.t :=
  SearchCursor.create doc (search this) from to
    (if caseInsensitive this then Some toLowerCase else None).

Definition nextMatch (this : Query) (doc : Text) (curFrom curTo : Z)
    : option SearchResult :=
  let cursor0 := SearchCursor.nextOverlapping (cursor this doc curTo (length doc)) in
  let cursor1 :=
    if SearchCursor.done cursor0
    then SearchCursor.nextOverlapping (cursor this doc 0 curFrom)
    else cursor0 in
  if SearchCursor.done cursor1 then None else Some (SearchCursor.value cursor1).

(** [while (!cursor.nextOverlapping().done) range = cursor.value] *)
Fixpoint lastInChunk (gas : nat) (cursor : SearchCursor.t)
    (range : option SearchResult) : run (option SearchResult) :=
  match gas with
  | O => OutOfGas
  | S gas' =>
      let cursor := SearchCursor.nextOverlapping cursor in
      if SearchCursor.done cursor then Ok range
      else lastInChunk gas' cursor (Some (SearchCursor.value cursor))
  end.

(** The body of the [for (let pos = to;;)] loop of [prevMatchInRange]. *)
Definition prevMatchInRange_turn (this : Query) (doc : Text) (from pos : Z)
    : run Turn :=
  let start := Z.max from (pos - FindPrev.ChunkSize - length (search this)) in
  let cursor := cursor this doc start pos in
  range <- lastInChunk (SearchCursor.budget cursor) cursor None ;;
  match range with
  | Some r => Ok (Return (Some r))
  | None =>
      if start =? from then Ok (Return None)
      else Ok (Again (pos - FindPrev.ChunkSize))
  end.

Fixpoint prevMatchInRange_loop (gas : nat) (this : Query) (doc : Text)
    (from pos : Z) : run (option SearchResult) :=
  match gas with
  | O => OutOfGas
  | S gas' =>
      turn <- prevMatchInRange_turn this doc from pos ;;
      match turn with
      | Return range => Ok range
      | Again pos' => prevMatchInRange_loop gas' this doc from pos'
      end
  end.

(** Searching in reverse is, rather than implementing inverted search
    cursor, done by scanning chunk after chunk forward. *)
Definition prevMatchInRange (this : Query) (doc : Text) (from to : Z)
    : run (option SearchResult) :=
  prevMatchInRange_loop (S (Z.to_nat ((to - from) / FindPrev.ChunkSize)))
                        this doc from to.

Definition prevMatch (this : Query) (doc : Text) (curFrom curTo : Z)
    : run (option SearchResult) :=
  first <- prevMatchInRange this doc 0 curFrom ;;
  match first with
  | Some r => Ok (Some r)
  | None => prevMatchInRange this doc curTo (length doc)
  end.

Definition getReplacement (this : Query) (_result : SearchResult) : str :=
  replace this.

Fixpoint matchAll_loop (gas : nat) (cursor : SearchCursor.t)
    (ranges : list SearchResult) (limit : Z) : run (option (list SearchResult)) :=
  match gas with
  | O => OutOfGas
  | S gas' =>
      let cursor := SearchCursor.next cursor in
      if SearchCursor.done cursor then Ok (Some ranges)
      else if Z.of_nat (List.length ranges) >=? limit then Ok None
      else matchAll_loop gas' cursor (ranges ++ [SearchCursor.value cursor]) limit
  end.

Definition matchAll (this : Query) (doc : Text) (limit : Z)
    : run (option (list SearchResult)) :=
  let cursor := cursor this doc 0 (length doc) in
  matchAll_loop (SearchCursor.budget cursor) cursor [] limit.

Definition valid (this : Query) : bool :=
  match search this with [] => false | _ => true end.

(** The [while (!cursor.next().done) add(...)] loop of [highlight]; the
    callback [add] acts on a state [B] that is threaded through the calls. *)
Fixpoint highlight_loop {B : Type} (gas : nat) (cursor : SearchCursor.t)
    (add : Z -> Z -> B -> B) (acc : B) : run B :=
  match gas with
  | O => OutOfGas
  | S gas' =>
      let cursor := SearchCursor.next cursor in
      if SearchCursor.done cursor then Ok acc
      else highlight_loop gas' cursor add
             (add (from (SearchCursor.value cursor)) (to (SearchCursor.value cursor)) acc)
  end.

Definition highlight {B : Type} (this : Query) (doc : Text) (from to : Z)
    (add : Z -> Z -> B -> B) (acc : B) : run B :=
  let cursor := cursor this doc (Z.max 0 (from - length (search this)))
                       (Z.min (to + length (search this)) (length doc)) in
  highlight_loop (SearchCursor.budget cursor) cursor add acc.

End StringQuery.

(** The replacement callback is tried at every [$] that is followed by one
    of the characters of the class [[$&\d+]]. *)
Definition isDigit (c : ascii) : bool :=
  let n := nat_of_ascii c in ((48 <=? n) && (n <=? 57))%nat.

Definition inDollarClass (c : ascii) : bool :=
  Ascii.eqb c "$" || Ascii.eqb c "&" || isDigit c || Ascii.eqb c "+".

(** [+i] for a one-character string: the digit's value, or [NaN] ([None]). *)
Definition toNumber (i : ascii) : option Z :=
  if isDigit i then Some (Z.of_nat (nat_of_ascii i) - 48) else None.

(** [s.replace(/\$([$&\d+])/g, f)]: scanning from the left, every [$]
    followed by a character [i] of the class is replaced by [f m i], where
    [m] is the two matched characters, and the scan goes on after them. *)
Fixpoint replaceDollar (f : str -> ascii -> str) (s : str) : str :=
  match s with
  | [] => []
  | c :: tl =>
      match tl with
      | i :: rest =>
          if Ascii.eqb c "$" && inDollarClass i
          then f [c; i] i ++ replaceDollar f rest
          else c :: replaceDollar f tl
      | [] => [c]
      end
  end.

Module RegExpQuery.
Section WithEngine.
Context {E : RegExpEngine}.

Definition valid (this : Query) : bool :=
  match search this with [] => false | _ => validRegExp (search this) end.

Definition cursor (this : Query) (doc : Text) (from to : Z) : RegExpCursor.t :=
  RegExpCursor.create doc (search this) (caseInsensitive this) from to.

Definition nextMatch (this : Query) (doc : Text) (curFrom curTo : Z)
    : option SearchResult :=
  let cursor0 := RegExpCursor.nextOverlapping (cursor this doc curTo (length doc)) in
  let cursor1 :=
    if RegExpCursor.done cursor0
    then RegExpCursor.nextOverlapping (cursor this doc 0 curFrom)
    else cursor0 in
  if RegExpCursor.done cursor1 then None else Some (RegExpCursor.value cursor1).

Definition prevMatch (this : Query) (doc : Text) (curFrom curTo : Z)
    : run (option SearchResult) :=
  Ok None.

(** [result.match]; a result of the regular-expression cursor has one. *)
Definition groupsOf (result : SearchResult) : list str :=
  match match_ result with Some groups => groups | None => [] end.

Definition getReplacement (this : Query) (result : SearchResult) : str :=
  replaceDollar (fun m i =>
    if Ascii.eqb i "$" then ["$"%char]
    else if Ascii.eqb i "&" then nth 0%nat (groupsOf result) []
    else match toNumber i with
         | Some n =>
             if negb (Ascii.eqb i "0") && (n <? Z.of_nat (List.length (groupsOf result)))
             then nth (Z.to_nat n) (groupsOf result) []
             else m
         | None => m
         end)
    (replace this).

Fixpoint matchAll_loop (gas : nat) (cursor : RegExpCursor.t)
    (ranges : list SearchResult) (limit : Z) : run (option (list SearchResult)) :=
  match gas with
  | O => OutOfGas
  | S gas' =>
      let cursor := RegExpCursor.nextOverlapping cursor in
      if RegExpCursor.done cursor then Ok (Some ranges)
      else if Z.of_nat (List.length ranges) >=? limit then Ok None
      else matchAll_loop gas' cursor (ranges ++ [RegExpCursor.value cursor]) limit
  end.

Definition matchAll (this : Query) (doc : Text) (limit : Z)
    : run (option (list SearchResult)) :=
  let cursor := cursor this doc 0 (length doc) in
  matchAll_loop (RegExpCursor.budget cursor) cursor [] limit.

(** The [while (!cursor.nextOverlapping().done) add(...)] loop of
    [highlight]. *)
Fixpoint highlight_loop {B : Type} (gas : nat) (cursor : RegExpCursor.t)
    (add : Z -> Z -> B -> B) (acc : B) : run B :=
  match gas with
  | O => OutOfGas
  | S gas' =>
      let cursor := RegExpCursor.nextOverlapping cursor in
      if RegExpCursor.done cursor then Ok acc
      else highlight_loop gas' cursor add
             (add (from (RegExpCursor.value cursor)) (to (RegExpCursor.value cursor)) acc)
  end.

Definition highlight {B : Type} (this : Query) (doc : Text) (from to : Z)
    (add : Z -> Z -> B -> B) (acc : B) : run B :=
  let cursor := cursor this doc (Z.max 0 (from - RegExp.HighlightMargin))
                       (Z.min (to + RegExp.HighlightMargin) (length doc)) in
  highlight_loop (RegExpCursor.budget cursor) cursor add acc.

End WithEngine.
End RegExpQuery.

(** The methods of the abstract class [Query], dispatched on the variant. *)
Section QueryMethods.
Context {E : RegExpEngine}.

Definition valid (q : Query) : bool :=
  match q with
  | StringQuery _ _ _ => StringQuery.valid q
  | RegExpQuery _ _ _ => RegExpQuery.valid q
  end.

Definition nextMatch (q : Query) (doc : Text) (curFrom curTo : Z)
    : option SearchResult :=
  match q with
  | StringQuery _ _ _ => StringQuery.nextMatch q doc curFrom curTo
  | RegExpQuery _ _ _ => RegExpQuery.nextMatch q doc curFrom curTo
  end.

Definition prevMatch (q : Query) (doc : Text) (curFrom curTo : Z)
    : run (option SearchResult) :=
  match q with
  | StringQuery _ _ _ => StringQuery.prevMatch q doc curFrom curTo
  | RegExpQuery _ _ _ => RegExpQuery.prevMatch q doc curFrom curTo
  end.

Definition getReplacement (q : Query) (result : SearchResult) : str :=
  match q with
  | StringQuery _ _ _ => StringQuery.getReplacement q result
  | RegExpQuery _ _ _ => RegExpQuery.getReplacement q result
  end.

Definition matchAll (q : Query) (doc : Text) (limit : Z)
    : run (option (list SearchResult)) :=
  match q with
  | StringQuery _ _ _ => StringQuery.matchAll q doc limit
  | RegExpQuery _ _ _ => RegExpQuery.matchAll q doc limit
  end.

Definition highlight {B : Type} (q : Query) (doc : Text) (from to : Z)
    (add : Z -> Z -> B -> B) (acc : B) : run B :=
  match q with
  | StringQuery _ _ _ => StringQuery.highlight q doc from to add acc
  | RegExpQuery _ _ _ => RegExpQuery.highlight q doc from to add acc
  end.

End QueryMethods.

(** ** Editor state, view and transactions, as far as the commands use them *)

Record SearchState := mkSearchState {
  query : Query;
  panel : bool  (* whether a panel constructor is set *)
}.

Record HighlightOptions := mkOptions {
  highlightWordAroundCursor : bool;
  minSelectionLength : Z;
  maxMatches : Z
}.

Definition defaultHighlightOptions : HighlightOptions := mkOptions false 1 100.

(** The fields and facets of the state that this package defines. *)
Record Config := mkConfig {
  searchState : option SearchState;   (* [state.field(searchState, false)] *)
  highlightConfig : HighlightOptions  (* [state.facet(highlightConfig)] *)
}.

Record EditorView := mkView {
  state : EditorState;
  config : Config;
  visibleRanges : list (Z * Z)
}.

Module ChangeSpec.
Record t := mk { from : Z; to : Z; insert : str }.
End ChangeSpec.

Record TransactionSpec := mkTransaction {
  changes : list ChangeSpec.t;
  newSelection : option EditorSelection.t;
  scrollIntoView : bool
}.

(** How a command ends: it returns a boolean, having dispatched at most one
    transaction; or it hands over to [openSearchPanel]; or it fails on a
    [null] value. *)
Inductive Outcome :=
| Returned (dispatched : option TransactionSpec) (result : bool)
| OpenSearchPanel
| TypeError.

(** The host's word classifier and word lookup ([state.charCategorizer(pos)]
    and [state.wordAt(pos)]). *)
Class EditorHost := {
  charCategorizer : EditorState -> Z -> str -> CharCategory;
  wordAt : EditorState -> Z -> option SelectionRange.t;
  (* [selection.addRange(range)]: the host orders the ranges, joins the ones
     that overlap and makes the range that holds [range] the main one *)
  addRange : EditorSelection.t -> SelectionRange.t -> EditorSelection.t
}.

Definition SelectionRange_eqb (a b : SelectionRange.t) : bool :=
  (SelectionRange.anchor a =? SelectionRange.anchor b)
  && (SelectionRange.head a =? SelectionRange.head b).

Fixpoint ranges_eqb (a b : list SelectionRange.t) : bool :=
  match a, b with
  | [], [] => true
  | x :: a', y :: b' => SelectionRange_eqb x y && ranges_eqb a' b'
  | _, _ => false
  end.

Definition EditorSelection_eqb (a b : EditorSelection.t) : bool :=
  ranges_eqb (EditorSelection.ranges a) (EditorSelection.ranges b)
  && Nat.eqb (EditorSelection.mainIndex a) (EditorSelection.mainIndex b).

(** ** Search commands ([search.ts]) *)

Section Commands.
Context {E : RegExpEngine}.

Definition searchCommand (f : EditorView -> SearchState -> run Outcome)
    (view : EditorView) : run Outcome :=
  match searchState (config view) with
  | Some st => if valid (query st) then f view st else Ok OpenSearchPanel
  | None => Ok OpenSearchPanel
  end.

(** Replace all instances of the search query with the given
    replacement. *)
Definition replaceAll : EditorView -> run Outcome :=
  searchCommand (fun view st =>
    let query := query st in
    matches <- matchAll query (doc (state view)) 1000000000 ;;
    match matches with
    | None => Ok TypeError
    | Some matches =>
        let changes :=
          map (fun match_ =>
                 ChangeSpec.mk (from match_) (to match_) (getReplacement query match_))
              matches in
        match changes with
        | [] => Ok (Returned None false)
        | _ => Ok (Returned (Some (mkTransaction changes None false)) true)
        end
    end).

End Commands.

(** ** Selection matching ([selection-match.ts]) *)

Module Decoration.
(** [Decoration.mark({class})] *)
Record t := mark { class : string }.
(** [deco.range(from, to)] *)
Record range := mkRange { from : Z; to : Z; value : t }.
Definition none : list range := [].
End Decoration.

Definition matchDeco : Decoration.t := Decoration.mark "cm-selectionMatch".
Definition mainMatchDeco : Decoration.t :=
  Decoration.mark "cm-selectionMatch cm-selectionMatch-main".

(** [s.trim()] *)
Definition isWhiteSpace (c : ascii) : bool :=
  let n := nat_of_ascii c in
  (((9 <=? n) && (n <=? 13)) || (n =? 32) || (n =? 160))%nat.

Fixpoint trimStart (s : str) : str :=
  match s with
  | c :: s' => if isWhiteSpace c then trimStart s' else s
  | [] => []
  end.

Definition trim (s : str) : str := rev (trimStart (rev (trimStart s))).

(** ** The search state field ([search.ts]) *)

(** The effects a transaction can carry, as far as the field reads them. *)
Inductive StateEffect :=
| setQuery (value : Query)
| togglePanel (value : bool)
| otherEffect.

(** [searchState.create()] *)
Definition searchState_create : SearchState := mkSearchState (StringQuery [] [] false) false.

(** [searchState.update(value, tr)], over [tr.effects]. *)
Fixpoint searchState_update (value : SearchState) (effects : list StateEffect)
    : SearchState :=
  match effects with
  | [] => value
  | effect :: effects' =>
      searchState_update
        match effect with
        | setQuery q => mkSearchState q (panel value)
        | togglePanel on => mkSearchState (query value) on
        | otherEffect => value
        end
        effects'
  end.

(** ** The search-match highlighter ([search.ts]) *)

Definition matchMark : Decoration.t := Decoration.mark "cm-searchMatch".
Definition selectedMatchMark : Decoration.t :=
  Decoration.mark "cm-searchMatch cm-searchMatch-selected".

(** A [RangeSetBuilder], by the ranges added to it so far, in the order
    they were added.  The host's [add] throws when a range starts before the
    range added last; the exception leaves the loops that add, so that a
    builder that has thrown stays so.  [finish] of a builder that has not
    thrown is the set of its ranges, and [Decoration.none] is the set of a
    builder nothing was added to. *)
Inductive RangeSetBuilder :=
| Built (ranges : list Decoration.range)
| Throws.

(** [builder.add(from, to, value)] *)
Definition RangeSetBuilder_add (from to : Z) (value : Decoration.t)
    (builder : RangeSetBuilder) : RangeSetBuilder :=
  match builder with
  | Throws => Throws
  | Built ranges =>
      match rev ranges with
      | last :: _ =>
          if from <? Decoration.from last then Throws
          else Built (ranges ++ [Decoration.mkRange from to value])
      | [] => Built (ranges ++ [Decoration.mkRange from to value])
      end
  end.

(** The callback [highlight] passes to [query.highlight]. *)
Definition addMark (state : EditorState) (from to : Z) (builder : RangeSetBuilder)
    : RangeSetBuilder :=
  let selected :=
    existsb (fun r => (SelectionRange.from r =? from) && (SelectionRange.to r =? to))
            (EditorSelection.ranges (selection state)) in
  RangeSetBuilder_add from to (if selected then selectedMatchMark else matchMark) builder.

(** [while (i < l - 1 && to > ranges[i + 1].from - RegExp.HighlightMargin)
    to = ranges[++i].to], where [rest] holds the ranges after [ranges[i]]:
    the end of the merged window and the ranges left after it. *)
Fixpoint mergeVisible (to : Z) (rest : list (Z * Z)) : Z * list (Z * Z) :=
  match rest with
  | next :: rest' =>
      if to >? fst next - RegExp.HighlightMargin then mergeVisible (snd next) rest'
      else (to, rest)
  | [] => (to, [])
  end.

Section SearchHighlighter.
Context {E : RegExpEngine}.

(** The [for] loop of [highlight] over [view.visibleRanges]. *)
Fixpoint highlight_ranges (gas : nat) (view : EditorView) (query : Query)
    (ranges : list (Z * Z)) (builder : RangeSetBuilder)
    : run RangeSetBuilder :=
  match gas with
  | O => OutOfGas
  | S gas' =>
      match ranges with
      | [] => Ok builder
      | range :: rest =>
          let (to, rest') := mergeVisible (snd range) rest in
          builder <- highlight query (doc (state view)) (fst range) to
                               (addMark (state view)) builder ;;
          highlight_ranges gas' view query rest' builder
      end
  end.

(** [searchHighlighter.highlight({query, panel})] *)
Definition searchHighlighter_highlight (view : EditorView) (st : SearchState)
    : run RangeSetBuilder :=
  if negb (panel st) || negb (valid (query st)) then Ok (Built Decoration.none)
  else highlight_ranges (S (List.length (visibleRanges view))) view (query st)
                        (visibleRanges view) (Built []).

End SearchHighlighter.

(** ** Announcing a match ([search.ts]) *)

Definition AnnounceMargin : Z := 30.

(** [Break.test(text[i])] for [Break = /[\s\.,:;?!]/]; past the ends of the
    text the character is undefined and the test fails. *)
Definition isBreak (char : option ascii) : bool :=
  match char with
  | Some c =>
      isWhiteSpace c || Ascii.eqb c "." || Ascii.eqb c "," || Ascii.eqb c ":"
      || Ascii.eqb c ";" || Ascii.eqb c "?" || Ascii.eqb c "!"
  | None => false
  end.

(** [doc.lineAt(pos)] for a document whose lines are separated by the
    line-feed character: the start and the end of the line that holds
    [pos], and its number. *)
Record Line := mkLine { lineFrom : Z; lineTo : Z; lineNumber : Z }.

Definition isLineBreak (c : ascii) : bool := Ascii.eqb c "010".

Fixpoint lineRest (s : str) : str :=
  match s with
  | c :: s' => if isLineBreak c then [] else c :: lineRest s'
  | [] => []
  end.

Definition lineAt (doc : Text) (pos : Z) : Line :=
  let before := firstn (Z.to_nat pos) doc in
  let after := skipn (Z.to_nat pos) doc in
  mkLine (pos - length (lineRest (rev before)))
         (pos + length (lineRest after))
         (1 + Z.of_nat (List.length (filter isLineBreak before))).

(** What is announced: the text around the match and the number of its
    line, the two parts of the message that depend on the document. *)
Record Announcement := mkAnnouncement { announcedText : str; announcedLine : Z }.

(** [for (let i = 0; i < AnnounceMargin; i++) if (!Break.test(text[i + 1])
    && Break.test(text[i])) { text = text.slice(i); break }] *)
Fixpoint announce_cutStart (count : nat) (i : Z) (text : str) : str :=
  match count with
  | O => text
  | S k =>
      if negb (isBreak (charAt text (i + 1))) && isBreak (charAt text i)
      then sliceString text i (length text)
      else announce_cutStart k (i + 1) text
  end.

(** [for (let i = text.length - 1; i > text.length - AnnounceMargin; i--)
    if (!Break.test(text[i - 1]) && Break.test(text[i]))
    { text = text.slice(0, i); break }] *)
Fixpoint announce_cutEnd (count : nat) (i : Z) (text : str) : str :=
  match count with
  | O => text
  | S k =>
      if negb (isBreak (charAt text (i - 1))) && isBreak (charAt text i)
      then sliceString text 0 i
      else announce_cutEnd k (i - 1) text
  end.

Definition announceMatch (view : EditorView) (from to : Z) : Announcement :=
  let doc := doc (state view) in
  let lineStart := lineFrom (lineAt doc from) in
  let lineEnd := lineTo (lineAt doc to) in
  let start := Z.max lineStart (from - AnnounceMargin) in
  let end_ := Z.min lineEnd (to + AnnounceMargin) in
  let text := sliceDoc (state view) start end_ in
  let text :=
    if negb (start =? lineStart)
    then announce_cutStart (Z.to_nat AnnounceMargin) 0 text else text in
  let text :=
    if negb (end_ =? lineEnd)
    then announce_cutEnd (Z.to_nat (AnnounceMargin - 1)) (length text - 1) text
    else text in
  mkAnnouncement text (lineNumber (lineAt doc from)).

(** ** Navigation and selection commands ([search.ts]) *)

(** A dispatched transaction with the announcement it carries. *)
Record Dispatch := mkDispatch {
  transaction : TransactionSpec;
  effects : option Announcement
}.

Inductive CommandResult :=
| Finished (dispatched : option Dispatch) (result : bool)
| OpensSearchPanel.

(** [{anchor, head}] as a selection of one range. *)
Definition single (anchor head : Z) : EditorSelection.t :=
  EditorSelection.create [SelectionRange.range anchor head] 0.

Section MoreCommands.
Context {E : RegExpEngine}.

(** [searchCommand], for the commands that announce the match they move to. *)
Definition searchCommandWith (f : EditorView -> SearchState -> run CommandResult)
    (view : EditorView) : run CommandResult :=
  match searchState (config view) with
  | Some st => if valid (query st) then f view st else Ok OpensSearchPanel
  | None => Ok OpensSearchPanel
  end.

(** Open the search panel if it isn't already open, and move the selection
    to the first match after the current main selection.  Will wrap around
    to the start of the document when it reaches the end. *)
Definition findNext : EditorView -> run CommandResult :=
  searchCommandWith (fun view st =>
    let main := EditorSelection.main (selection (state view)) in
    let from_ := SelectionRange.from main in
    let to_ := SelectionRange.to main in
    match nextMatch (query st) (doc (state view)) from_ to_ with
    | None => Ok (Finished None false)
    | Some next =>
        if (from next =? from_) && (to next =? to_) then Ok (Finished None false)
        else Ok (Finished
                   (Some (mkDispatch
                            (mkTransaction [] (Some (single (from next) (to next))) true)
                            (Some (announceMatch view (from next) (to next)))))
                   true)
    end).

(** Move the selection to the previous instance of the search query, before
    the current main selection.  Will wrap past the start of the document
    to start searching at the end again. *)
Definition findPrevious : EditorView -> run CommandResult :=
  searchCommandWith (fun view st =>
    let main := EditorSelection.main (selection (state view)) in
    range <- prevMatch (query st) (doc (state view))
                       (SelectionRange.from main) (SelectionRange.to main) ;;
    match range with
    | None => Ok (Finished None false)
    | Some range =>
        Ok (Finished
              (Some (mkDispatch
                       (mkTransaction [] (Some (single (from range) (to range))) true)
                       (Some (announceMatch view (from range) (to range)))))
              true)
    end).

(** Select all instances of the search query. *)
Definition selectMatches : EditorView -> run Outcome :=
  searchCommand (fun view st =>
    ranges <- matchAll (query st) (doc (state view)) 1000 ;;
    match ranges with
    | None | Some [] => Ok (Returned None false)
    | Some ranges =>
        Ok (Returned
              (Some (mkTransaction []
                       (Some (EditorSelection.create
                                (map (fun r => SelectionRange.range (from r) (to r)) ranges)
                                0))
                       false))
              true)
    end).

(** Replace the current match of the search query. *)
Definition replaceNext : EditorView -> run CommandResult :=
  searchCommandWith (fun view st =>
    let query := query st in
    let main := EditorSelection.main (selection (state view)) in
    let from_ := SelectionRange.from main in
    let to_ := SelectionRange.to main in
    match nextMatch query (doc (state view)) from_ from_ with
    | None => Ok (Finished None false)
    | Some next =>
        let current := (from next =? from_) && (to next =? to_) in
        let replacement := getReplacement query next in
        let changes :=
          if current then [ChangeSpec.mk (from next) (to next) replacement] else [] in
        let next :=
          if current then nextMatch query (doc (state view)) (from next) (to next)
          else Some next in
        let selection :=
          match next with
          | Some next =>
              let off :=
                match changes with
                | [] => 0
                | change :: _ =>
                    if ChangeSpec.from change >=? to next then 0
                    else to next - from next - length replacement
                end in
              Some (single (from next - off) (to next - off))
          | None => None
          end in
        Ok (Finished
              (Some (mkDispatch
                       (mkTransaction changes selection
                                      match selection with Some _ => true | None => false end)
                       match next with
                       | Some next => Some (announceMatch view (from next) (to next))
                       | None => None
                       end))
              true)
    end).

End MoreCommands.

(** The [for] loop of [selectSelectionMatches]; [None] stands for the early
    [return false]. *)
Fixpoint selectSelectionMatches_loop (gas : nat) (from_ : Z) (cur : SearchCursor.t)
    (ranges : list SelectionRange.t) (main : nat)
    : run (option (list SelectionRange.t * nat)) :=
  match gas with
  | O => OutOfGas
  | S gas' =>
      let cur := SearchCursor.next cur in
      if SearchCursor.done cur then Ok (Some (ranges, main))
      else if Z.of_nat (List.length ranges) >? 1000 then Ok None
      else
        let main :=
          if from (SearchCursor.value cur) =? from_ then List.length ranges
          else main in
        selectSelectionMatches_loop gas' from_ cur
          (ranges ++ [SelectionRange.range (from (SearchCursor.value cur))
                                           (to (SearchCursor.value cur))])
          main
  end.

(** Select all instances of the currently selected text. *)
Definition selectSelectionMatches (state : EditorState) : run Outcome :=
  let sel := selection state in
  if (1 <? List.length (EditorSelection.ranges sel))%nat
     || SelectionRange.empty (EditorSelection.main sel)
  then Ok (Returned None false) else
  let from_ := SelectionRange.from (EditorSelection.main sel) in
  let to_ := SelectionRange.to (EditorSelection.main sel) in
  let cur := SearchCursor.create (doc state) (sliceDoc state from_ to_) 0
                                 (length (doc state)) None in
  found <- selectSelectionMatches_loop (SearchCursor.budget cur) from_ cur [] O ;;
  match found with
  | None => Ok (Returned None false)
  | Some (ranges, main) =>
      Ok (Returned (Some (mkTransaction [] (Some (EditorSelection.create ranges main)) false))
                   true)
  end.

(** ** The selection-match highlighter and the next-occurrence selector
    ([selection-match.ts]) *)

Section SelectionMatch.
Context {H : EditorHost}.

(** The [while (!cursor.nextOverlapping().done)] loop of [getDeco] over
    one visible range; [None] stands for the early
    [return Decoration.none]. *)
Fixpoint getDeco_scan (gas : nat) (state : EditorState) (conf : HighlightOptions)
    (range : SelectionRange.t) (check : option (str -> CharCategory))
    (cursor : SearchCursor.t) (deco : list Decoration.range)
    : run (option (list Decoration.range)) :=
  match gas with
  | O => OutOfGas
  | S gas' =>
      let cursor := SearchCursor.nextOverlapping cursor in
      if SearchCursor.done cursor then Ok (Some deco) else
      let from := from (SearchCursor.value cursor) in
      let to := to (SearchCursor.value cursor) in
      if match check with
         | None => true
         | Some check =>
             ((from =? 0)
              || negb (CharCategory_eqb (check (sliceDoc state (from - 1) from)) Word))
             && ((to =? length (doc state))
                 || negb (CharCategory_eqb (check (sliceDoc state to (to + 1))) Word))
         end
      then
        let deco :=
          if match check with Some _ => true | None => false end
             && (from <=? SelectionRange.from range) && (to >=? SelectionRange.to range)
          then deco ++ [Decoration.mkRange from to mainMatchDeco]
          else if (from >=? SelectionRange.to range) || (to <=? SelectionRange.from range)
          then deco ++ [Decoration.mkRange from to matchDeco]
          else deco in
        if Z.of_nat (List.length deco) >? maxMatches conf then Ok None
        else getDeco_scan gas' state conf range check cursor deco
      else getDeco_scan gas' state conf range check cursor deco
  end.

(** The [for (let part of view.visibleRanges)] loop of [getDeco]. *)
Fixpoint getDeco_parts (state : EditorState) (conf : HighlightOptions)
    (range : SelectionRange.t) (check : option (str -> CharCategory))
    (query : str) (parts : list (Z * Z)) (deco : list Decoration.range)
    : run (list Decoration.range) :=
  match parts with
  | [] => Ok deco
  | part :: parts' =>
      let cursor := SearchCursor.create (doc state) query (fst part) (snd part) None in
      scanned <- getDeco_scan (SearchCursor.budget cursor) state conf range check
                              cursor deco ;;
      match scanned with
      | None => Ok Decoration.none
      | Some deco => getDeco_parts state conf range check query parts' deco
      end
  end.

Definition getDeco (view : EditorView) : run (list Decoration.range) :=
  let conf := highlightConfig (config view) in
  let state := state view in
  let sel := selection state in
  if (1 <? List.length (EditorSelection.ranges sel))%nat then Ok Decoration.none else
  let range := EditorSelection.main sel in
  if SelectionRange.empty range then
    if negb (highlightWordAroundCursor conf) then Ok Decoration.none else
    match wordAt state (SelectionRange.head range) with
    | None => Ok Decoration.none
    | Some word =>
        let check := charCategorizer state (SelectionRange.head range) in
        let query := sliceDoc state (SelectionRange.from word) (SelectionRange.to word) in
        getDeco_parts state conf range (Some check) query (visibleRanges view) []
    end
  else
    let len := SelectionRange.to range - SelectionRange.from range in
    if (len <? minSelectionLength conf) || (len >? 200) then Ok Decoration.none else
    let query := trim (sliceDoc state (SelectionRange.from range) (SelectionRange.to range)) in
    match query with
    | [] => Ok Decoration.none
    | _ => getDeco_parts state conf range None query (visibleRanges view) []
    end.

(** Select the words around the cursors. *)
Definition selectWord (state : EditorState) : run Outcome :=
  let selection := selection state in
  let newSel :=
    EditorSelection.create
      (map (fun range =>
              match wordAt state (SelectionRange.head range) with
              | Some word => word
              | None => SelectionRange.cursor (SelectionRange.head range)
              end)
           (EditorSelection.ranges selection))
      (EditorSelection.mainIndex selection) in
  if EditorSelection_eqb newSel selection then Ok (Returned None false)
  else Ok (Returned (Some (mkTransaction [] (Some newSel) false)) true).

(** The [while (!cursor.next().done)] loop of [findNextOccurrence]. *)
Fixpoint findNextOccurrence_loop (gas : nat) (ranges : list SelectionRange.t)
    (cursor : SearchCursor.t) : run (option SearchResult) :=
  match gas with
  | O => OutOfGas
  | S gas' =>
      let cursor := SearchCursor.next cursor in
      if SearchCursor.done cursor then Ok None
      else if negb (existsb (fun r => SelectionRange.from r =? from (SearchCursor.value cursor))
                            ranges)
      then Ok (Some (SearchCursor.value cursor))
      else findNextOccurrence_loop gas' ranges cursor
  end.

(** [ranges[ranges.length - 1]]; a selection has at least one range. *)
Definition lastRange (ranges : list SelectionRange.t) : SelectionRange.t :=
  last ranges (SelectionRange.cursor 0).

(** Find next occurrence of query relative to last cursor. Wrap around
    the document if there are no more matches. *)
Definition findNextOccurrence (state : EditorState) (query : str)
    : run (option SearchResult) :=
  let ranges := EditorSelection.ranges (selection state) in
  let ahead :=
    SearchCursor.next
      (SearchCursor.create (doc state) query (SelectionRange.to (lastRange ranges))
                           (length (doc state)) None) in
  if negb (SearchCursor.done ahead) then Ok (Some (SearchCursor.value ahead)) else
  let cursor :=
    SearchCursor.create (doc state) query 0
      (Z.max 0 (SelectionRange.from (lastRange ranges) - 1)) None in
  findNextOccurrence_loop (SearchCursor.budget cursor) ranges cursor.

(** Select next occurrence of the current selection.  Expand selection to
    the word when selection range is empty. *)
Definition selectNextOccurrence (state : EditorState) : run Outcome :=
  let ranges := EditorSelection.ranges (selection state) in
  if existsb (fun sel => SelectionRange.from sel =? SelectionRange.to sel) ranges
  then selectWord state else
  let first := nth 0%nat ranges (SelectionRange.cursor 0) in
  let searchedText := sliceDoc state (SelectionRange.from first) (SelectionRange.to first) in
  if existsb (fun r => negb (str_eqb (sliceDoc state (SelectionRange.from r)
                                               (SelectionRange.to r)) searchedText))
             ranges
  then Ok (Returned None false) else
  range <- findNextOccurrence state searchedText ;;
  match range with
  | None => Ok (Returned None false)
  | Some range =>
      Ok (Returned
            (Some (mkTransaction []
                     (Some (addRange (selection state)
                                     (SelectionRange.range (from range) (to range))))
                     true))
            true)
  end.

End SelectionMatch.

(** ** Reference definitions: what a match is, and the matches of a range *)

(** The folding a literal query applies. *)
Definition foldOf (caseInsensitive : bool) : ascii -> ascii :=
  if caseInsensitive then toLowerCase else fun c => c.

(** The needle occurs at offset [p] of the document, up to folding. *)
Definition occursAt (doc : Text) (norm : ascii -> ascii) (needle : str) (p : Z) : Prop :=
  0 <= p /\ p + length needle <= length doc /\
  map norm (sliceString doc p (p + length needle)) = map norm needle.

(** The occurrence at [p] lies inside the range [[a, b)]. *)
Definition occursWithin (doc : Text) (norm : ascii -> ascii) (needle : str)
    (a b p : Z) : Prop :=
  a <= p /\ p + length needle <= b /\ occursAt doc norm needle p.

(** The result a literal cursor reports for an occurrence at [p]. *)
Definition resultAt (needle : str) (p : Z) : SearchResult :=
  mkResult p (p + length needle) None.

(** [p, p+1, ..., p+count-1] *)
Fixpoint Zseq (p : Z) (count : nat) : list Z :=
  match count with
  | O => []
  | S k => p :: Zseq (p + 1) k
  end.

(** The offsets [a <= p <= b - |q|] at which the folded needle [q] is found,
    in increasing order. *)
Definition occurrences (text : Text) (norm : ascii -> ascii) (q : str) (a b : Z)
    : list Z :=
  filter (SearchCursor.matchesAt text norm q) (Zseq a (Z.to_nat (b - length q - a + 1))).

(** All occurrences of [needle] inside the range [[a, b)] of the document,
    in document order. *)
Definition occurrencesIn (doc : Text) (norm : ascii -> ascii) (needle : str)
    (a b : Z) : list Z :=
  occurrences doc norm (map norm needle) (Z.max 0 a) (Z.min b (length doc)).

(** Of increasing offsets, keep the first and then every one that starts at
    or after the end of the last one kept: the non-overlapping occurrences,
    in document order. *)
Fixpoint thin (n : Z) (barrier : Z) (ps : list Z) : list Z :=
  match ps with
  | [] => []
  | p :: ps' => if p <? barrier then thin n barrier ps' else p :: thin n (p + n) ps'
  end.

Definition nonOverlappingIn (doc : Text) (norm : ascii -> ascii) (needle : str)
    (a b : Z) : list Z :=
  thin (length needle) (Z.max 0 a) (occurrencesIn doc norm needle a b).

Definition lastOf {A : Type} (l : list A) : option A :=
  match l with
  | [] => None
  | x :: l' => Some (last l' x)
  end.

(** The first, and the last, match of a literal needle inside [[a, b)]. *)
Definition firstMatchIn (doc : Text) (norm : ascii -> ascii) (needle : str)
    (a b : Z) : option SearchResult :=
  option_map (resultAt needle) (hd_error (occurrencesIn doc norm needle a b)).

Definition lastMatchIn (doc : Text) (norm : ascii -> ascii) (needle : str)
    (a b : Z) : option SearchResult :=
  option_map (resultAt needle) (lastOf (occurrencesIn doc norm needle a b)).

(** [m] is the first (the last) match inside [[a, b)]. *)
Definition isFirstMatch (doc : Text) (norm : ascii -> ascii) (needle : str)
    (a b : Z) (m : SearchResult) : Prop :=
  exists p, m = resultAt needle p /\ occursWithin doc norm needle a b p /\
            forall p', occursWithin doc norm needle a b p' -> p <= p'.

Definition isLastMatch (doc : Text) (norm : ascii -> ascii) (needle : str)
    (a b : Z) (m : SearchResult) : Prop :=
  exists p, m = resultAt needle p /\ occursWithin doc norm needle a b p /\
            forall p', occursWithin doc norm needle a b p' -> p' <= p.

Definition noMatch (doc : Text) (norm : ascii -> ascii) (needle : str) (a b : Z) : Prop :=
  forall p, ~ occursWithin doc norm needle a b p.

Definition orElse {A : Type} (x y : option A) : option A :=
  match x with
  | Some _ => x
  | None => y
  end.

(** The matches a cursor still has to report, by overlapping and by
    non-overlapping advancement. *)
Definition overlappingFrom (c : SearchCursor.t) : list SearchResult :=
  if SearchCursor.done c then [] else
  map (fun p => mkResult p (p + length (SearchCursor.query c)) None)
      (occurrences (SearchCursor.text c) (SearchCursor.normalize c) (SearchCursor.query c)
                   (SearchCursor.pos c) (SearchCursor.limit c)).

Definition nonOverlappingFrom (c : SearchCursor.t) : list SearchResult :=
  if SearchCursor.done c then [] else
  map (fun p => mkResult p (p + length (SearchCursor.query c)) None)
      (thin (length (SearchCursor.query c))
            (Z.max (SearchCursor.pos c) (to (SearchCursor.value c)))
            (occurrences (SearchCursor.text c) (SearchCursor.normalize c)
                         (SearchCursor.query c) (SearchCursor.pos c) (SearchCursor.limit c))).

(** What [matchAll] answers for the matches [all] still to come, given the
    [ranges] collected so far: all of them, or [null] when there are more
    than [limit]. *)
Definition collect (ranges all : list SearchResult) (limit : Z)
    : option (list SearchResult) :=
  match all with
  | [] => Some ranges
  | _ => if Z.of_nat (List.length ranges + List.length all) >? limit then None
         else Some (ranges ++ all)
  end.

(** The first match the engine reports in the text of the range [[a, b)]. *)
Definition regexpFirstMatchIn {E : RegExpEngine} (pattern : str) (ignoreCase : bool)
    (doc : Text) (a b : Z) : option SearchResult :=
  let a' := Z.max 0 a in
  match regexpExec pattern ignoreCase (sliceString doc a' (Z.min b (length doc))) 0 with
  | Some (index, groups) =>
      Some (mkResult (a' + index) (a' + index + length (nth 0%nat groups []))
                     (Some groups))
  | None => None
  end.

(** The first match of a query that lies inside the range [[a, b)]. *)
Definition firstWithin {E : RegExpEngine} (q : Query) (doc : Text) (a b : Z)
    : option SearchResult :=
  match q with
  | StringQuery s _ ci => firstMatchIn doc (foldOf ci) s a b
  | RegExpQuery s _ ci => regexpFirstMatchIn s ci doc a b
  end.

(** The reading of [nextMatch] under which it answers [null] only for a
    document without any match of the needle. *)
Definition nullOnlyWithoutMatch (needle : str) (caseInsensitive : bool) (doc : Text)
    (curFrom curTo : Z) : Prop :=
  StringQuery.nextMatch (StringQuery needle [] caseInsensitive) doc curFrom curTo = None ->
  noMatch doc (foldOf caseInsensitive) needle 0 (length doc).

(** ** A small engine and a small host, to run the definitions on examples *)

(** An engine for patterns without metacharacters: the pattern matches its
    own text, up to case when asked, and has no capture groups. *)
Definition plainExec (pattern : str) (ignoreCase : bool) (subject : str)
    (lastIndex : Z) : option (Z * list str) :=
  let norm := foldOf ignoreCase in
  let start := Z.max 0 lastIndex in
  match SearchCursor.scan subject norm (map norm pattern)
          (Z.to_nat (length subject - length pattern - start + 1)) start with
  | Some p => Some (p, [sliceString subject p (p + length pattern)])
  | None => None
  end.

Definition plainEngine : RegExpEngine :=
  {| regexpExec := plainExec;
     validRegExp := fun pattern => match pattern with [] => false | _ => true end |}.

(** Letters, digits and the underscore are word characters. *)
Definition isWordChar (c : ascii) : bool :=
  let n := nat_of_ascii c in
  (((48 <=? n) && (n <=? 57)) || ((65 <=? n) && (n <=? 90))
   || ((97 <=? n) && (n <=? 122)) || (n =? 95))%nat.

Definition categorize (char : str) : CharCategory :=
  match char with
  | [c] => if isWordChar c then Word else if isWhiteSpace c then Space else Other
  | _ => Space
  end.

Fixpoint takeWhile (f : ascii -> bool) (s : str) : str :=
  match s with
  | c :: s' => if f c then c :: takeWhile f s' else []
  | [] => []
  end.

(** The run of word characters around an offset. *)
Definition wordAround (state : EditorState) (pos : Z) : option SelectionRange.t :=
  let before := takeWhile isWordChar (rev (firstn (Z.to_nat pos) (doc state))) in
  let after := takeWhile isWordChar (skipn (Z.to_nat pos) (doc state)) in
  match before ++ after with
  | [] => None
  | _ => Some (SelectionRange.range (pos - length before) (pos + length after))
  end.

(** The example host adds a range the way the editor's state library does.
    The range is put among the others in order of [from]; a range that
    starts before the end of the one before it (an empty range also when it
    starts at that end) is joined with it; and the range that holds the new
    one becomes the main one. *)
Fixpoint placeRange (r : SelectionRange.t) (rs : list SelectionRange.t)
    : list SelectionRange.t :=
  match rs with
  | [] => [r]
  | x :: rs' =>
      if SelectionRange.from x <? SelectionRange.from r then x :: placeRange r rs'
      else r :: rs
  end.

Fixpoint joinRanges (prev : SelectionRange.t) (rest : list SelectionRange.t)
    : list SelectionRange.t :=
  match rest with
  | [] => [prev]
  | x :: rest' =>
      if (if SelectionRange.empty x
          then SelectionRange.from x <=? SelectionRange.to prev
          else SelectionRange.from x <? SelectionRange.to prev)
      then
        let from := SelectionRange.from prev in
        let to := Z.max (SelectionRange.to x) (SelectionRange.to prev) in
        joinRanges (if SelectionRange.anchor x >? SelectionRange.head x
                    then SelectionRange.range to from
                    else SelectionRange.range from to)
                   rest'
      else prev :: joinRanges x rest'
  end.

Fixpoint indexHolding (r : SelectionRange.t) (rs : list SelectionRange.t) : nat :=
  match rs with
  | [] => O
  | x :: rs' =>
      if (SelectionRange.from x <=? SelectionRange.from r)
         && (SelectionRange.to r <=? SelectionRange.to x)
      then O else S (indexHolding r rs')
  end.

Definition plainAddRange (s : EditorSelection.t) (r : SelectionRange.t)
    : EditorSelection.t :=
  let rs :=
    match placeRange r (EditorSelection.ranges s) with
    | [] => []
    | x :: rs' => joinRanges x rs'
    end in
  EditorSelection.create rs (indexHolding r rs).

Definition plainHost : EditorHost :=
  {| charCategorizer := fun _ _ => categorize;
     wordAt := wordAround;
     addRange := plainAddRange |}.

(** ** Reference definitions for the backward search *)

(** The windows scanned when going back from [pos] down to [from] for a
    needle of length [n]: each is [ChunkSize] characters long and is
    extended backward by [n], the next one ends [ChunkSize] before the end
    of this one, and the last one is the one whose start is clamped to
    [from]. *)
Fixpoint chunkWindows (count : nat) (from pos n : Z) : list (Z * Z) :=
  match count with
  | O => []
  | S k =>
      let start := Z.max from (pos - FindPrev.ChunkSize - n) in
      (start, pos) :: (if start =? from then []
                       else chunkWindows k from (pos - FindPrev.ChunkSize) n)
  end.

Definition chunksOf (from to n : Z) : list (Z * Z) :=
  chunkWindows (S (Z.to_nat ((to - from) / FindPrev.ChunkSize))) from to n.

Fixpoint firstSome {A : Type} (l : list (option A)) : option A :=
  match l with
  | [] => None
  | Some a :: _ => Some a
  | None :: l' => firstSome l'
  end.

(** The last match of each window, taken from the window nearest to the end
    that has one. *)
Definition lastMatchByChunks (doc : Text) (norm : ascii -> ascii) (needle : str)
    (from to : Z) : option SearchResult :=
  firstSome (map (fun w => lastMatchIn doc norm needle (fst w) (snd w))
                 (chunksOf from to (length needle))).

(** The character of the digit [n], for [n] from 0 to 9. *)
Definition digitChar (n : nat) : ascii := ascii_of_nat (48 + n).

(** ** Reference definitions: all the matches of a query *)

(** The matches a regular-expression cursor still has to report by
    overlapping advancement. *)
Fixpoint regexpStream {E : RegExpEngine} (gas : nat) (c : RegExpCursor.t)
    : list SearchResult :=
  match gas with
  | O => []
  | S gas' =>
      let c' := RegExpCursor.nextOverlapping c in
      if RegExpCursor.done c' then []
      else RegExpCursor.value c' :: regexpStream gas' c'
  end.

(** The matches [matchAll] enumerates in a document: for a literal query the
    non-overlapping occurrences of the needle, for a regex query what its
    cursor reports. *)
Definition allMatches {E : RegExpEngine} (q : Query) (doc : Text) : list SearchResult :=
  match q with
  | StringQuery s _ ci => map (resultAt s) (nonOverlappingIn doc (foldOf ci) s 0 (length doc))
  | RegExpQuery _ _ _ =>
      let c := RegExpQuery.cursor q doc 0 (length doc) in
      regexpStream (RegExpCursor.budget c) c
  end.

(** The change [replaceAll] makes for a match. *)
Definition changeFor (q : Query) (m : SearchResult) : ChangeSpec.t :=
  ChangeSpec.mk (from m) (to m) (getReplacement q m).

(** Two results overlap when each starts before the other ends. *)
Definition overlap (a b : SearchResult) : Prop := from a < to b /\ from b < to a.

(** ** Reference definitions for the next-occurrence selector *)



(** The command's outcome for the occurrence found, if any: the selection
    the host's [addRange] makes of the selection and the occurrence is
    dispatched and scrolled into view, or the command fails and dispatches
    nothing. *)
Definition addOccurrence {H : EditorHost} (state : EditorState)
    (found : option SearchResult) : Outcome :=
  match found with
  | None => Returned None false
  | Some m =>
      Returned
        (Some (mkTransaction []
                 (Some (addRange (selection state)
                                 (SelectionRange.range (from m) (to m))))
                 true))
        true
  end.

Definition firstRange (ranges : list SelectionRange.t) : SelectionRange.t :=
  nth 0%nat ranges (SelectionRange.cursor 0).

Definition selectedText (state : EditorState) : str :=
  let first := firstRange (EditorSelection.ranges (selection state)) in
  sliceDoc state (SelectionRange.from first) (SelectionRange.to first).



(** The document [a a a] with its first and its last [a] selected. *)
Definition outerSelected : EditorState :=
  mkState (lit "a a a")
    (EditorSelection.create [SelectionRange.range 0 1; SelectionRange.range 4 5] 1).

(** ** Reference definitions for the selection-match highlighter *)

(** The boundary test [getDeco] applies to an occurrence when a classifier
    is set. *)
Definition passesBoundary (state : EditorState) (check : option (str -> CharCategory))
    (from to : Z) : bool :=
  match check with
  | None => true
  | Some check => insideWordBoundaries check state from to
  end.

(** The decoration [getDeco] makes for an accepted occurrence, if any. *)
Definition decorationFor (range : SelectionRange.t) (check : option (str -> CharCategory))
    (from to : Z) : list Decoration.range :=
  if match check with Some _ => true | None => false end
     && (from <=? SelectionRange.from range) && (to >=? SelectionRange.to range)
  then [Decoration.mkRange from to mainMatchDeco]
  else if (from >=? SelectionRange.to range) || (to <=? SelectionRange.from range)
  then [Decoration.mkRange from to matchDeco]
  else [].

(** [getDeco]'s inner loop over the matches of one visible range, and its
    outer loop over the visible ranges. *)
Fixpoint decoFold (state : EditorState) (conf : HighlightOptions)
    (range : SelectionRange.t) (check : option (str -> CharCategory))
    (ms : list SearchResult) (deco : list Decoration.range)
    : option (list Decoration.range) :=
  match ms with
  | [] => Some deco
  | m :: ms' =>
      if passesBoundary state check (from m) (to m) then
        let deco := deco ++ decorationFor range check (from m) (to m) in
        if Z.of_nat (List.length deco) >? maxMatches conf then None
        else decoFold state conf range check ms' deco
      else decoFold state conf range check ms' deco
  end.

Fixpoint partsFold (state : EditorState) (conf : HighlightOptions)
    (range : SelectionRange.t) (check : option (str -> CharCategory))
    (query : str) (parts : list (Z * Z)) (deco : list Decoration.range)
    : list Decoration.range :=
  match parts with
  | [] => deco
  | part :: parts' =>
      match decoFold state conf range check
              (map (resultAt query)
                   (occurrencesIn (doc state) (fun c => c) query (fst part) (snd part)))
              deco with
      | None => Decoration.none
      | Some deco => partsFold state conf range check query parts' deco
      end
  end.

(** The reading of [getDeco] under which a non-empty decoration set always
    holds the range of the selection itself, tagged as the main match. *)
Definition selectionIsMainMatch {H : EditorHost} (view : EditorView) : Prop :=
  forall deco, getDeco view = Ok deco -> deco <> [] ->
  let range := EditorSelection.main (selection (state view)) in
  In (Decoration.mkRange (SelectionRange.from range) (SelectionRange.to range)
                         mainMatchDeco) deco.

(** The document [ab ab], all of it visible, with its first [ab] selected. *)
Definition firstSelected : EditorView :=
  mkView (mkState (lit "ab ab") (EditorSelection.create [SelectionRange.range 0 2] 0))
         (mkConfig None defaultHighlightOptions) [(0, 5)].

(** The document [cat category cat], all of it visible, with the cursor
    inside the first [cat] and the word under the cursor highlighted. *)
Definition cursorInCat : EditorView :=
  mkView (mkState (lit "cat category cat") (EditorSelection.create [SelectionRange.cursor 1] 0))
         (mkConfig None (mkOptions true 1 100)) [(0, 16)].

(** The document [ab cab] with an open search panel for the literal query
    [ab], to be replaced by [X]. *)
Definition searchingAb : EditorView :=
  mkView (mkState (lit "ab cab") (EditorSelection.create [SelectionRange.cursor 0] 0))
         (mkConfig (Some (mkSearchState (StringQuery (lit "ab") (lit "X") false) true))
                   defaultHighlightOptions)
         [(0, 6)].

(** Two offsets of a listing of non-overlapping matches of length [n]: the
    later one starts after the earlier one, at or after its end. *)
Definition apart (n : Z) (p p' : Z) : Prop := p < p' /\ p + n <= p'.

(** Two results of a listing in document order: the later one starts after
    the earlier one. *)
Definition startsBefore (m m' : SearchResult) : Prop := from m < from m'.

(** The result lies inside [[a, b]]. *)
Definition inside (a b : Z) (m : SearchResult) : Prop :=
  a <= from m /\ from m <= to m /\ to m <= b.

(** ** Reference definitions for the search-match highlighter *)

(** The windows [highlight] scans for a list of visible ranges: each starts
    at a visible range and ends where [mergeVisible] stops. *)
Fixpoint mergedWindows_from (gas : nat) (ranges : list (Z * Z)) : list (Z * Z) :=
  match gas, ranges with
  | S gas', range :: rest =>
      let (to, rest') := mergeVisible (snd range) rest in
      (fst range, to) :: mergedWindows_from gas' rest'
  | _, _ => []
  end.

Definition mergedWindows (ranges : list (Z * Z)) : list (Z * Z) :=
  mergedWindows_from (List.length ranges) ranges.

(** The mark [highlight] puts on the occurrence at [p] of a literal needle. *)
Definition markAt (state : EditorState) (needle : str) (p : Z) : Decoration.range :=
  Decoration.mkRange p (p + length needle)
    (if existsb (fun r => (SelectionRange.from r =? p)
                          && (SelectionRange.to r =? p + length needle))
                (EditorSelection.ranges (selection state))
     then selectedMatchMark else matchMark).

(** Visible ranges as the view gives them: each runs forward, and each
    starts at or after the end of the one before. *)
Definition inOrder (ranges : list (Z * Z)) : Prop :=
  Forall (fun r => fst r <= snd r) ranges
  /\ StronglySorted (fun r r' => snd r <= fst r') ranges.

(** Two windows that are further apart than the highlight margin. *)
Definition farApart (w w' : Z * Z) : Prop := snd w + RegExp.HighlightMargin <= fst w'.

(** Scanning the windows one after the other with [query.highlight], each
    call adding its marks to the builder the previous one left. *)
Fixpoint scanWindows {E : RegExpEngine} (view : EditorView) (query : Query)
    (windows : list (Z * Z)) (builder : RangeSetBuilder)
    : run RangeSetBuilder :=
  match windows with
  | [] => Ok builder
  | w :: windows' =>
      builder <- highlight query (doc (state view)) (fst w) (snd w)
                           (addMark (state view)) builder ;;
      scanWindows view query windows' builder
  end.

(** ** Reference definitions for the selection commands *)

(** The loop of [selectSelectionMatches] over the matches [ms] still to
    come: the ranges gathered and the index of the main one, or [None] when
    a match arrives with more than 1000 ranges gathered. *)
Fixpoint gatherRanges (from_ : Z) (ms : list SearchResult)
    (ranges : list SelectionRange.t) (main : nat)
    : option (list SelectionRange.t * nat) :=
  match ms with
  | [] => Some (ranges, main)
  | m :: ms' =>
      if Z.of_nat (List.length ranges) >? 1000 then None
      else gatherRanges from_ ms' (ranges ++ [SelectionRange.range (from m) (to m)])
                        (if from m =? from_ then List.length ranges else main)
  end.

(** The document after the change that replaces [[from, to)] by
    [insert]. *)
Definition applyChange (doc : Text) (from to : Z) (insert : str) : Text :=
  sliceString doc 0 from ++ insert ++ sliceString doc to (length doc).

(** ** Reference definitions for the search state field *)

(** The value of the last [setQuery] effect of a transaction, and of its
    last [togglePanel] effect. *)
Fixpoint lastQuery (effects : list StateEffect) : option Query :=
  match effects with
  | [] => None
  | effect :: effects' =>
      match lastQuery effects', effect with
      | Some q, _ => Some q
      | None, setQuery q => Some q
      | None, _ => None
      end
  end.

Fixpoint lastToggle (effects : list StateEffect) : option bool :=
  match effects with
  | [] => None
  | effect :: effects' =>
      match lastToggle effects', effect with
      | Some on, _ => Some on
      | None, togglePanel on => Some on
      | None, _ => None
      end
  end.

(** The document [ab cab ab] with its first [ab] selected and an open
    search panel for the literal query [ab], to be replaced by [XYZ]. *)
Definition replacingAb : EditorView :=
  mkView (mkState (lit "ab cab ab") (EditorSelection.create [SelectionRange.range 0 2] 0))
         (mkConfig (Some (mkSearchState (StringQuery (lit "ab") (lit "XYZ") false) true))
                   defaultHighlightOptions)
         [(0, 9)].

(** A document of 700 characters of which three stretches are visible,
    with an open search panel for the literal query [aa]. *)
Definition foldedView : EditorView :=
  mkView (mkState (List.repeat "a"%char 700)
                  (EditorSelection.create [SelectionRange.cursor 0] 0))
         (mkConfig (Some (mkSearchState (StringQuery (lit "aa") [] false) true))
                   defaultHighlightOptions)
         [(0, 3); (100, 200); (600, 700)].

(** Adding ranges one after the other to a builder. *)
Definition addAll (marks : list Decoration.range) (builder : RangeSetBuilder)
    : RangeSetBuilder :=
  fold_left (fun builder d =>
               RangeSetBuilder_add (Decoration.from d) (Decoration.to d)
                                   (Decoration.value d) builder)
            marks builder.

(** The later range starts no earlier than the earlier one. *)
Definition startsNoEarlier (d d' : Decoration.range) : Prop :=
  Decoration.from d <= Decoration.from d'.

(** The marks of a literal needle in a view: window by window, the
    non-overlapping occurrences of the needle inside the merged window
    padded by the needle's length. *)
Definition literalMarks (view : EditorView) (needle : str) (ci : bool)
    : list Decoration.range :=
  flat_map
    (fun w => map (markAt (state view) needle)
                  (nonOverlappingIn (doc (state view)) (foldOf ci) needle
                     (Z.max 0 (fst w - length needle))
                     (Z.min (snd w + length needle) (length (doc (state view))))))
    (mergedWindows (visibleRanges view)).

(** A document of 800 characters [a] with an open search panel for the
    literal query of 260 characters [a]; two stretches are visible, 250
    characters apart. *)
Definition wideNeedleView : EditorView :=
  mkView (mkState (List.repeat "a"%char 800)
                  (EditorSelection.create [SelectionRange.cursor 0] 0))
         (mkConfig (Some (mkSearchState (StringQuery (List.repeat "a"%char 260) [] false)
                                        true))
                   defaultHighlightOptions)
         [(0, 260); (510, 520)].

(** The document [aaa aa] with its second and third character and its last
    two characters selected. *)
Definition overlappingSelected : EditorState :=
  mkState (lit "aaa aa")
    (EditorSelection.create [SelectionRange.range 1 3; SelectionRange.range 4 6] 1).

(** * Proofs *)

(** ** Strings, slices and offsets *)

Lemma str_eqb_eq (a b : str) : str_eqb a b = true <-> a = b.
Proof.
  revert b; induction a as [|x a IH]; intros [|y b]; simpl; split; intro Hab;
    try reflexivity; try discriminate.
  - apply andb_true_iff in Hab as [Hxy Hr].
    apply Ascii.eqb_eq in Hxy. apply IH in Hr. congruence.
  - injection Hab as -> ->. apply andb_true_iff. split.
    + apply Ascii.eqb_refl.
    + now apply IH.
Qed.

Lemma length_nonneg (s : str) : 0 <= length s.
Proof. unfold length. lia. Qed.

Lemma length_map (f : ascii -> ascii) (s : str) : length (map f s) = length s.
Proof. unfold length. now rewrite List.length_map. Qed.

Lemma length_slice (d : Text) (a b : Z) :
  0 <= a -> a <= b -> b <= length d -> length (sliceString d a b) = b - a.
Proof.
  intros Ha Hab Hb. unfold sliceString, length in *.
  rewrite List.length_firstn, List.length_skipn. lia.
Qed.

Lemma length_slice_le (d : Text) (a b : Z) :
  0 <= a -> length (sliceString d a b) <= Z.max 0 (Z.min b (length d) - a).
Proof.
  intros Ha. unfold sliceString, length in *.
  rewrite List.length_firstn, List.length_skipn. lia.
Qed.

Lemma slice_one (d : Text) (i : Z) :
  0 <= i ->
  sliceString d i (i + 1) = match charAt d i with Some c => [c] | None => [] end.
Proof.
  intros Hi. unfold sliceString, charAt.
  destruct (Z.ltb_spec i 0) as [Hlt|_]; [lia|].
  replace (Z.to_nat (i + 1) - Z.to_nat i)%nat with 1%nat by lia.
  generalize (Z.to_nat i) as n. clear. intros n. revert d.
  induction n as [|n IH]; intros [|c d]; simpl; try reflexivity.
  apply IH.
Qed.

Lemma charAt_Some (d : Text) (i : Z) :
  0 <= i < length d -> exists c, charAt d i = Some c.
Proof.
  intros Hi. unfold charAt, length in *.
  destruct (Z.ltb_spec i 0) as [Hlt|_]; [lia|].
  destruct (nth_error d (Z.to_nat i)) as [c|] eqn:Hn; [now exists c|].
  apply nth_error_None in Hn. lia.
Qed.

Lemma firstn_slice (d : Text) (a b k : Z) :
  0 <= a -> 0 <= k -> a + k <= b ->
  firstn (Z.to_nat k) (sliceString d a b) = sliceString d a (a + k).
Proof.
  intros Ha Hk Hb. unfold sliceString.
  rewrite List.firstn_firstn. f_equal. lia.
Qed.

Lemma skipn_slice (d : Text) (a b k : Z) :
  0 <= a -> 0 <= k -> a + k <= b ->
  skipn (Z.to_nat k) (sliceString d a b) = sliceString d (a + k) b.
Proof.
  intros Ha Hk Hb. unfold sliceString.
  rewrite List.skipn_firstn_comm, List.skipn_skipn. f_equal; [lia|f_equal; lia].
Qed.

(** ** Word boundaries *)

Lemma CharCategory_eqb_eq (a b : CharCategory) : CharCategory_eqb a b = true <-> a = b.
Proof. destruct a, b; simpl; split; intro; congruence. Qed.

Lemma check_slice_word (check : str -> CharCategory) (d : Text) (i : Z) :
  0 <= i < length d ->
  CharCategory_eqb (check (sliceString d i (i + 1))) Word = true <-> wordCharAt check d i.
Proof.
  intros Hi. rewrite slice_one by lia.
  destruct (charAt_Some d i Hi) as [c Hc]. unfold wordCharAt. rewrite Hc.
  rewrite CharCategory_eqb_eq. split.
  - intros Hw. exists c. now split.
  - intros [c' [Heq Hw]]. congruence.
Qed.

Lemma check_slice_word_before (check : str -> CharCategory) (d : Text) (i : Z) :
  0 < i <= length d ->
  CharCategory_eqb (check (sliceString d (i - 1) i)) Word = true
  <-> wordCharAt check d (i - 1).
Proof.
  intros Hi. pose proof (check_slice_word check d (i - 1)) as Hc.
  replace (i - 1 + 1) with i in Hc by lia. apply Hc. lia.
Qed.

Lemma insideWordBoundaries_iff (check : str -> CharCategory) (state : EditorState)
    (from to : Z) :
  0 <= from -> from <= to -> to <= length (doc state) ->
  insideWordBoundaries check state from to = true <->
  (from = 0 \/ ~ wordCharAt check (doc state) (from - 1)) /\
  (to = length (doc state) \/ ~ wordCharAt check (doc state) to).
Proof.
  intros H0 Hft Hlen. unfold insideWordBoundaries, sliceDoc.
  rewrite andb_true_iff, !orb_true_iff, !negb_true_iff, !Z.eqb_eq.
  assert (Hl : from = 0 \/
               CharCategory_eqb (check (sliceString (doc state) (from - 1) from)) Word = false
               <-> from = 0 \/ ~ wordCharAt check (doc state) (from - 1)).
  { destruct (Z.eq_dec from 0) as [Heq|Hne]; [split; intros _; now left|].
    rewrite <- check_slice_word_before by lia.
    rewrite not_true_iff_false. tauto. }
  assert (Hr : to = length (doc state) \/
               CharCategory_eqb (check (sliceString (doc state) to (to + 1))) Word = false
               <-> to = length (doc state) \/ ~ wordCharAt check (doc state) to).
  { destruct (Z.eq_dec to (length (doc state))) as [Heq|Hne]; [split; intros _; now left|].
    rewrite <- check_slice_word by lia.
    rewrite not_true_iff_false. tauto. }
  tauto.
Qed.

Lemma insideWord_iff (check : str -> CharCategory) (state : EditorState) (from to : Z) :
  0 <= from -> from < to -> to <= length (doc state) ->
  insideWord check state from to = true <->
  wordCharAt check (doc state) from /\ wordCharAt check (doc state) (to - 1).
Proof.
  intros H0 Hft Hlen. unfold insideWord, sliceDoc.
  rewrite andb_true_iff, check_slice_word, check_slice_word_before by lia. tauto.
Qed.

(** C5.  For a range [[from, to)] of the document, [isWholeWord] accepts
    exactly when (a) the character before [from] and the character after
    [to] are not word characters, or the range touches the document
    boundary there, and (b) the characters at [from] and at [to - 1] are
    word characters. *)
Theorem isWholeWord_iff (check : str -> CharCategory) (state : EditorState)
    (from to : Z) :
  0 <= from -> from < to -> to <= length (doc state) ->
  isWholeWord check state from to = true <->
  ((from = 0 \/ ~ wordCharAt check (doc state) (from - 1)) /\
   (to = length (doc state) \/ ~ wordCharAt check (doc state) to)) /\
  (wordCharAt check (doc state) from /\ wordCharAt check (doc state) (to - 1)).
Proof.
  intros H0 Hft Hlen. unfold isWholeWord.
  rewrite andb_true_iff, insideWordBoundaries_iff, insideWord_iff by lia.
  tauto.
Qed.

(** ** Occurrences of a needle *)

Lemma In_Zseq (n : nat) (a p : Z) : In p (Zseq a n) <-> a <= p < a + Z.of_nat n.
Proof.
  revert a; induction n as [|n IH]; intros a; simpl.
  - lia.
  - rewrite IH. lia.
Qed.

Lemma scan_None (text : Text) (norm : ascii -> ascii) (q : str) (n : nat) (a : Z) :
  SearchCursor.scan text norm q n a = None ->
  filter (SearchCursor.matchesAt text norm q) (Zseq a n) = [].
Proof.
  revert a; induction n as [|n IH]; intros a; simpl; [reflexivity|].
  destruct (SearchCursor.matchesAt text norm q a); [discriminate|]. apply IH.
Qed.

Lemma scan_Some (text : Text) (norm : ascii -> ascii) (q : str) (n : nat) (a p : Z) :
  SearchCursor.scan text norm q n a = Some p ->
  a <= p < a + Z.of_nat n /\
  SearchCursor.matchesAt text norm q p = true /\
  filter (SearchCursor.matchesAt text norm q) (Zseq a n)
  = p :: filter (SearchCursor.matchesAt text norm q)
                (Zseq (p + 1) (n - Z.to_nat (p - a) - 1)).
Proof.
  revert a; induction n as [|n IH]; intros a; [discriminate|].
  cbn [SearchCursor.scan Zseq filter].
  destruct (SearchCursor.matchesAt text norm q a) eqn:Hm.
  - intros [= <-]. repeat split; try lia; try assumption.
    do 3 f_equal. lia.
  - intros Hs. apply IH in Hs as (Hr & Hp & Hf). repeat split; try lia; try assumption.
    rewrite Hf. do 3 f_equal. lia.
Qed.

Lemma In_occurrences (text : Text) (norm : ascii -> ascii) (q : str) (a b p : Z) :
  In p (occurrences text norm q a b) <->
  a <= p /\ p + length q <= b /\ SearchCursor.matchesAt text norm q p = true.
Proof.
  unfold occurrences. rewrite filter_In, In_Zseq.
  pose proof (length_nonneg q). intuition lia.
Qed.

Lemma occurrences_scan (text : Text) (norm : ascii -> ascii) (q : str) (a b : Z) :
  match SearchCursor.scan text norm q (Z.to_nat (b - length q - a + 1)) a with
  | None => occurrences text norm q a b = []
  | Some p =>
      a <= p /\ p + length q <= b /\ SearchCursor.matchesAt text norm q p = true /\
      occurrences text norm q a b = p :: occurrences text norm q (p + 1) b
  end.
Proof.
  unfold occurrences.
  destruct (SearchCursor.scan _ _ _ _ _) as [p|] eqn:Hs.
  - apply scan_Some in Hs as (Hr & Hp & Hf). repeat split; try lia; try assumption.
    rewrite Hf. do 3 f_equal. lia.
  - now apply scan_None.
Qed.

Lemma occurrences_ge (text : Text) (norm : ascii -> ascii) (q : str) (a b p : Z) :
  In p (occurrences text norm q a b) -> a <= p.
Proof. rewrite In_occurrences. lia. Qed.

Lemma occurrences_step (text : Text) (norm : ascii -> ascii) (q : str) (a b : Z) :
  occurrences text norm q a b =
  (if (a + length q <=? b) && SearchCursor.matchesAt text norm q a then [a] else [])
  ++ occurrences text norm q (a + 1) b.
Proof.
  unfold occurrences. pose proof (length_nonneg q) as Hq.
  destruct (Z.leb_spec (a + length q) b) as [Hle|Hgt]; simpl.
  - replace (Z.to_nat (b - length q - a + 1))
      with (S (Z.to_nat (b - length q - (a + 1) + 1))) by lia.
    simpl. now destruct (SearchCursor.matchesAt text norm q a).
  - replace (Z.to_nat (b - length q - a + 1)) with O by lia.
    replace (Z.to_nat (b - length q - (a + 1) + 1)) with O by lia. reflexivity.
Qed.

Lemma thin_same_start (n B B' : Z) (ps : list Z) :
  (forall p, In p ps -> B <= p /\ B' <= p) -> thin n B ps = thin n B' ps.
Proof.
  destruct ps as [|p ps]; simpl; [reflexivity|]. intros Hall.
  destruct (Hall p (or_introl Logic.eq_refl)) as [H1 H2].
  destruct (Z.ltb_spec p B); [lia|]. destruct (Z.ltb_spec p B'); [lia|]. reflexivity.
Qed.

Lemma thin_occurrences_skip (text : Text) (norm : ascii -> ascii) (q : str)
    (n b : Z) (k : nat) (a B : Z) :
  Z.of_nat k = B - a ->
  thin n B (occurrences text norm q a b) = thin n B (occurrences text norm q B b).
Proof.
  revert a; induction k as [|k IH]; intros a Hk.
  - replace a with B by lia. reflexivity.
  - rewrite occurrences_step.
    destruct ((a + length q <=? b) && SearchCursor.matchesAt text norm q a); simpl.
    + destruct (Z.ltb_spec a B); [|lia]. apply IH. lia.
    + apply IH. lia.
Qed.

(** ** One step of the literal cursor *)

Lemma seek_done (c : SearchCursor.t) (start : Z) :
  SearchCursor.done c = true -> SearchCursor.seek c start = c.
Proof. intros Hd. unfold SearchCursor.seek. now rewrite Hd. Qed.

Lemma seek_spec (c : SearchCursor.t) (start : Z) :
  SearchCursor.done c = false ->
  let c' := SearchCursor.seek c start in
  SearchCursor.text c' = SearchCursor.text c /\
  SearchCursor.query c' = SearchCursor.query c /\
  SearchCursor.normalize c' = SearchCursor.normalize c /\
  SearchCursor.limit c' = SearchCursor.limit c /\
  if SearchCursor.done c'
  then occurrences (SearchCursor.text c) (SearchCursor.normalize c) (SearchCursor.query c)
                   start (SearchCursor.limit c) = []
  else exists p,
      start <= p /\ p + length (SearchCursor.query c) <= SearchCursor.limit c /\
      SearchCursor.matchesAt (SearchCursor.text c) (SearchCursor.normalize c)
                             (SearchCursor.query c) p = true /\
      SearchCursor.value c' = mkResult p (p + length (SearchCursor.query c)) None /\
      SearchCursor.pos c' = p + 1 /\
      occurrences (SearchCursor.text c) (SearchCursor.normalize c) (SearchCursor.query c)
                  start (SearchCursor.limit c)
      = p :: occurrences (SearchCursor.text c) (SearchCursor.normalize c)
                         (SearchCursor.query c) (p + 1) (SearchCursor.limit c).
Proof.
  intros Hd. unfold SearchCursor.seek. rewrite Hd.
  pose proof (occurrences_scan (SearchCursor.text c) (SearchCursor.normalize c)
                (SearchCursor.query c) start (SearchCursor.limit c)) as Hs.
  destruct (SearchCursor.scan _ _ _ _ _) as [p|]; simpl.
  - repeat split; try reflexivity. exists p. intuition.
  - repeat split; try reflexivity. exact Hs.
Qed.

Lemma seek_budget (c : SearchCursor.t) (start : Z) :
  SearchCursor.done c = false -> SearchCursor.pos c <= start ->
  SearchCursor.done (SearchCursor.seek c start) = false ->
  (SearchCursor.budget (SearchCursor.seek c start) < SearchCursor.budget c)%nat.
Proof.
  intros Hd Hstart Hd'. pose proof (seek_spec c start Hd) as (_ & _ & _ & Hl & Hs).
  cbv zeta in Hs. rewrite Hd' in Hs. destruct Hs as (p & Hp & Hpl & _ & _ & Hpos & _).
  unfold SearchCursor.budget. rewrite Hl, Hpos.
  pose proof (length_nonneg (SearchCursor.query c)). lia.
Qed.

Lemma overlapping_step (c : SearchCursor.t) :
  overlappingFrom c =
  if SearchCursor.done (SearchCursor.nextOverlapping c) then []
  else SearchCursor.value (SearchCursor.nextOverlapping c)
       :: overlappingFrom (SearchCursor.nextOverlapping c).
Proof.
  unfold SearchCursor.nextOverlapping.
  destruct (SearchCursor.done c) eqn:Hd.
  - rewrite (seek_done c _ Hd), Hd. unfold overlappingFrom. now rewrite Hd.
  - pose proof (seek_spec c (SearchCursor.pos c) Hd) as (Ht & Hq & Hn & Hl & Hs).
    cbv zeta in *. unfold overlappingFrom at 1. rewrite Hd.
    destruct (SearchCursor.done (SearchCursor.seek c (SearchCursor.pos c))) eqn:Hd'.
    + now rewrite Hs.
    + destruct Hs as (p & _ & _ & _ & Hv & Hpos & Hocc).
      unfold overlappingFrom. rewrite Hd', Ht, Hq, Hn, Hl, Hpos, Hocc, Hv. reflexivity.
Qed.

Lemma nonOverlapping_step (c : SearchCursor.t) :
  nonOverlappingFrom c =
  if SearchCursor.done (SearchCursor.next c) then []
  else SearchCursor.value (SearchCursor.next c) :: nonOverlappingFrom (SearchCursor.next c).
Proof.
  unfold SearchCursor.next.
  set (start := Z.max (SearchCursor.pos c) (to (SearchCursor.value c))).
  destruct (SearchCursor.done c) eqn:Hd.
  - rewrite (seek_done c _ Hd), Hd. unfold nonOverlappingFrom. now rewrite Hd.
  - pose proof (seek_spec c start Hd) as (Ht & Hq & Hn & Hl & Hs).
    cbv zeta in *. unfold nonOverlappingFrom at 1. rewrite Hd. fold start.
    rewrite (thin_occurrences_skip _ _ _ _ _ (Z.to_nat (start - SearchCursor.pos c))
               (SearchCursor.pos c) start) by lia.
    destruct (SearchCursor.done (SearchCursor.seek c start)) eqn:Hd'.
    + now rewrite Hs.
    + destruct Hs as (p & Hp & _ & _ & Hv & Hpos & Hocc).
      unfold nonOverlappingFrom. rewrite Hd', Ht, Hq, Hn, Hl, Hpos, Hocc, Hv.
      cbn [thin map to]. destruct (Z.ltb_spec p start); [lia|].
      cbn [map]. f_equal. f_equal.
      pose proof (length_nonneg (SearchCursor.query c)) as Hlen.
      destruct (Z.eq_dec (length (SearchCursor.query c)) 0) as [Hz|Hnz].
      * apply thin_same_start. intros p' Hin. apply occurrences_ge in Hin. lia.
      * f_equal. lia.
Qed.

Lemma nextOverlapping_budget (c : SearchCursor.t) :
  SearchCursor.done (SearchCursor.nextOverlapping c) = false ->
  (SearchCursor.budget (SearchCursor.nextOverlapping c) < SearchCursor.budget c)%nat.
Proof.
  intros Hd'. unfold SearchCursor.nextOverlapping in *.
  destruct (SearchCursor.done c) eqn:Hd.
  - rewrite (seek_done c _ Hd) in Hd'. congruence.
  - apply seek_budget; [assumption|lia|assumption].
Qed.

Lemma next_budget (c : SearchCursor.t) :
  SearchCursor.done (SearchCursor.next c) = false ->
  (SearchCursor.budget (SearchCursor.next c) < SearchCursor.budget c)%nat.
Proof.
  intros Hd'. unfold SearchCursor.next in *.
  destruct (SearchCursor.done c) eqn:Hd.
  - rewrite (seek_done c _ Hd) in Hd'. congruence.
  - apply seek_budget; [assumption|lia|assumption].
Qed.

(** ** The loops over a literal cursor *)

Lemma last_default {A : Type} (l : list A) (a x y : A) :
  last (a :: l) x = last (a :: l) y.
Proof.
  revert a; induction l as [|b l IH]; intros a; [reflexivity|].
  change (last (b :: l) x = last (b :: l) y). apply IH.
Qed.

Lemma lastOf_cons {A : Type} (x : A) (l : list A) :
  lastOf (x :: l) = match lastOf l with Some y => Some y | None => Some x end.
Proof.
  destruct l as [|y l]; [reflexivity|].
  cbn [lastOf]. f_equal. change (last (y :: l) x = last l y).
  destruct l as [|z l]; [reflexivity|].
  change (last (z :: l) x = last (z :: l) y). apply last_default.
Qed.

Lemma lastInChunk_spec (gas : nat) (c : SearchCursor.t) (range : option SearchResult) :
  (SearchCursor.budget c <= gas)%nat ->
  StringQuery.lastInChunk gas c range
  = Ok (match lastOf (overlappingFrom c) with Some r => Some r | None => range end).
Proof.
  revert c range; induction gas as [|gas IH]; intros c range Hgas.
  - unfold SearchCursor.budget in Hgas. lia.
  - cbn [StringQuery.lastInChunk]. rewrite (overlapping_step c).
    destruct (SearchCursor.done (SearchCursor.nextOverlapping c)) eqn:Hd; [reflexivity|].
    pose proof (nextOverlapping_budget c Hd).
    rewrite IH by lia. rewrite lastOf_cons.
    now destruct (lastOf (overlappingFrom (SearchCursor.nextOverlapping c))).
Qed.

Lemma collect_cons (ranges : list SearchResult) (v : SearchResult)
    (all : list SearchResult) (limit : Z) :
  collect ranges (v :: all) limit =
  if Z.of_nat (List.length ranges) >=? limit then None
  else collect (ranges ++ [v]) all limit.
Proof.
  unfold collect. rewrite List.length_app. cbn [List.length].
  destruct (Z.geb_spec (Z.of_nat (List.length ranges)) limit) as [Hge|Hlt].
  - destruct (Z.gtb_spec (Z.of_nat (List.length ranges + S (List.length all))) limit);
      [reflexivity|lia].
  - destruct all as [|w all].
    + cbn [List.length].
      destruct (Z.gtb_spec (Z.of_nat (List.length ranges + 1)) limit); [lia|reflexivity].
    + rewrite <- app_assoc. cbn [app List.length].
      replace (List.length ranges + 1 + S (List.length all))%nat
        with (List.length ranges + S (S (List.length all)))%nat by lia.
      reflexivity.
Qed.

Lemma StringQuery_matchAll_loop_spec (gas : nat) (c : SearchCursor.t)
    (ranges : list SearchResult) (limit : Z) :
  (SearchCursor.budget c <= gas)%nat ->
  StringQuery.matchAll_loop gas c ranges limit
  = Ok (collect ranges (nonOverlappingFrom c) limit).
Proof.
  revert c ranges; induction gas as [|gas IH]; intros c ranges Hgas.
  - unfold SearchCursor.budget in Hgas. lia.
  - cbn [StringQuery.matchAll_loop]. rewrite (nonOverlapping_step c).
    destruct (SearchCursor.done (SearchCursor.next c)) eqn:Hd; [reflexivity|].
    pose proof (next_budget c Hd). rewrite collect_cons.
    destruct (Z.of_nat (List.length ranges) >=? limit); [reflexivity|].
    apply IH. lia.
Qed.

Lemma findNextOccurrence_loop_spec (gas : nat) (ranges : list SelectionRange.t)
    (c : SearchCursor.t) :
  (SearchCursor.budget c <= gas)%nat ->
  findNextOccurrence_loop gas ranges c
  = Ok (find (fun m => negb (existsb (fun r => SelectionRange.from r =? from m) ranges))
             (nonOverlappingFrom c)).
Proof.
  revert c; induction gas as [|gas IH]; intros c Hgas.
  - unfold SearchCursor.budget in Hgas. lia.
  - cbn [findNextOccurrence_loop]. rewrite (nonOverlapping_step c).
    destruct (SearchCursor.done (SearchCursor.next c)) eqn:Hd; [reflexivity|].
    pose proof (next_budget c Hd). cbn [find].
    destruct (negb _); [reflexivity|]. apply IH. lia.
Qed.

(** ** First and last occurrence *)

Lemma lastOf_In {A : Type} (l : list A) (x : A) : lastOf l = Some x -> In x l.
Proof.
  induction l as [|y l IH]; [discriminate|].
  rewrite lastOf_cons. destruct (lastOf l) as [z|].
  - intros [= ->]. right. now apply IH.
  - intros [= ->]. now left.
Qed.

Lemma lastOf_None {A : Type} (l : list A) : lastOf l = None -> l = [].
Proof. destruct l; [reflexivity|discriminate]. Qed.

Lemma hd_occurrences_least (text : Text) (norm : ascii -> ascii) (q : str)
    (a b p : Z) :
  hd_error (occurrences text norm q a b) = Some p ->
  forall p', In p' (occurrences text norm q a b) -> p <= p'.
Proof.
  pose proof (occurrences_scan text norm q a b) as Hs.
  destruct (SearchCursor.scan _ _ _ _ _) as [p0|].
  - destruct Hs as (_ & _ & _ & ->). intros [= <-] p' [<-|Hin]; [lia|].
    apply occurrences_ge in Hin. lia.
  - rewrite Hs. discriminate.
Qed.

Lemma lastOf_occurrences_greatest (text : Text) (norm : ascii -> ascii) (q : str)
    (b : Z) (k : nat) (a p : Z) :
  k = Z.to_nat (b - length q - a + 1) ->
  lastOf (occurrences text norm q a b) = Some p ->
  forall p', In p' (occurrences text norm q a b) -> p' <= p.
Proof.
  revert a p; induction k as [|k IH]; intros a p Hk.
  - unfold occurrences. rewrite <- Hk. discriminate.
  - rewrite occurrences_step.
    assert (Hk' : k = Z.to_nat (b - length q - (a + 1) + 1)) by lia.
    pose proof (fun p => IH (a + 1) p Hk') as IH'. clear IH.
    destruct ((a + length q <=? b) && SearchCursor.matchesAt text norm q a);
      cbn [app]; [|apply IH'].
    rewrite lastOf_cons.
    destruct (lastOf (occurrences text norm q (a + 1) b)) as [y|] eqn:Hl.
    + intros [= <-] p' [<-|Hin]; [|now apply IH'].
      apply lastOf_In, occurrences_ge in Hl. lia.
    + apply lastOf_None in Hl. rewrite Hl. intros [= <-] p' [<-|[]]. lia.
Qed.

Lemma matchesAt_occursAt (doc : Text) (norm : ascii -> ascii) (needle : str) (p : Z) :
  p + length needle <= length doc ->
  SearchCursor.matchesAt doc norm (map norm needle) p = true <-> occursAt doc norm needle p.
Proof.
  intros Hlen. unfold SearchCursor.matchesAt, occursAt.
  rewrite andb_true_iff, Z.leb_le, str_eqb_eq, length_map. tauto.
Qed.

Lemma In_occurrencesIn (doc : Text) (norm : ascii -> ascii) (needle : str) (a b p : Z) :
  In p (occurrencesIn doc norm needle a b) <-> occursWithin doc norm needle a b p.
Proof.
  unfold occurrencesIn, occursWithin. rewrite In_occurrences, length_map. split.
  - intros (Ha & Hb & Hm).
    assert (Hlen : p + length needle <= length doc) by lia.
    apply (proj1 (matchesAt_occursAt _ _ _ _ Hlen)) in Hm.
    split; [lia|split; [lia|assumption]].
  - intros (Ha & Hb & Hm). pose proof Hm as (H0 & Hlen & _).
    apply (proj2 (matchesAt_occursAt _ _ _ _ Hlen)) in Hm.
    split; [lia|split; [lia|assumption]].
Qed.

Lemma hd_occurrencesIn_least (doc : Text) (norm : ascii -> ascii) (needle : str)
    (a b p : Z) :
  hd_error (occurrencesIn doc norm needle a b) = Some p ->
  forall p', In p' (occurrencesIn doc norm needle a b) -> p <= p'.
Proof. unfold occurrencesIn. apply hd_occurrences_least. Qed.

Lemma lastOf_occurrencesIn_greatest (doc : Text) (norm : ascii -> ascii) (needle : str)
    (a b p : Z) :
  lastOf (occurrencesIn doc norm needle a b) = Some p ->
  forall p', In p' (occurrencesIn doc norm needle a b) -> p' <= p.
Proof. unfold occurrencesIn. eapply lastOf_occurrences_greatest. reflexivity. Qed.

Lemma firstMatchIn_Some (doc : Text) (norm : ascii -> ascii) (needle : str)
    (a b : Z) (m : SearchResult) :
  firstMatchIn doc norm needle a b = Some m <-> isFirstMatch doc norm needle a b m.
Proof.
  unfold firstMatchIn, isFirstMatch. split.
  - destruct (hd_error _) as [p|] eqn:Hh; [|discriminate]. intros [= <-].
    exists p. split; [reflexivity|]. split.
    + apply In_occurrencesIn. destruct (occurrencesIn doc norm needle a b); [discriminate|].
      injection Hh as ->. now left.
    + intros p' Hp'. apply In_occurrencesIn in Hp'.
      eapply hd_occurrencesIn_least; eassumption.
  - intros (p & -> & Hin & Hleast).
    apply In_occurrencesIn in Hin.
    destruct (occurrencesIn doc norm needle a b) as [|p0 l] eqn:Ho; [destruct Hin|].
    cbn. do 2 f_equal.
    assert (Hp0 : occursWithin doc norm needle a b p0).
    { apply In_occurrencesIn. rewrite Ho. now left. }
    specialize (Hleast _ Hp0).
    assert (p0 <= p); [|lia].
    apply (hd_occurrencesIn_least doc norm needle a b); rewrite Ho; [reflexivity|exact Hin].
Qed.

Lemma firstMatchIn_None (doc : Text) (norm : ascii -> ascii) (needle : str) (a b : Z) :
  firstMatchIn doc norm needle a b = None <-> noMatch doc norm needle a b.
Proof.
  unfold firstMatchIn, noMatch. split.
  - destruct (occurrencesIn doc norm needle a b) as [|p0 l] eqn:Ho; [|discriminate].
    intros _ p Hp. apply In_occurrencesIn in Hp. rewrite Ho in Hp. exact Hp.
  - intros Hno. destruct (occurrencesIn doc norm needle a b) as [|p0 l] eqn:Ho;
      [reflexivity|].
    exfalso. apply (Hno p0). apply In_occurrencesIn. rewrite Ho. now left.
Qed.

Lemma lastMatchIn_Some (doc : Text) (norm : ascii -> ascii) (needle : str)
    (a b : Z) (m : SearchResult) :
  lastMatchIn doc norm needle a b = Some m <-> isLastMatch doc norm needle a b m.
Proof.
  unfold lastMatchIn, isLastMatch. split.
  - destruct (lastOf _) as [p|] eqn:Hl; [|discriminate]. intros [= <-].
    exists p. split; [reflexivity|]. split.
    + apply In_occurrencesIn. now apply lastOf_In.
    + intros p' Hp'. apply In_occurrencesIn in Hp'.
      eapply lastOf_occurrencesIn_greatest; [exact Hl|exact Hp'].
  - intros (p & -> & Hin & Hmax).
    destruct (lastOf (occurrencesIn doc norm needle a b)) as [p0|] eqn:Hl.
    + cbn. do 2 f_equal.
      assert (Hp0 : occursWithin doc norm needle a b p0)
        by (apply In_occurrencesIn; now apply lastOf_In).
      specialize (Hmax _ Hp0). apply In_occurrencesIn in Hin.
      assert (p <= p0); [|lia].
      eapply lastOf_occurrencesIn_greatest; [exact Hl|exact Hin].
    + apply lastOf_None in Hl. apply In_occurrencesIn in Hin. rewrite Hl in Hin.
      destruct Hin.
Qed.

Lemma lastMatchIn_None (doc : Text) (norm : ascii -> ascii) (needle : str) (a b : Z) :
  lastMatchIn doc norm needle a b = None <-> noMatch doc norm needle a b.
Proof.
  unfold lastMatchIn, noMatch. split.
  - destruct (lastOf _) eqn:Hl; [discriminate|]. apply lastOf_None in Hl.
    intros _ p Hp. apply In_occurrencesIn in Hp. rewrite Hl in Hp. exact Hp.
  - intros Hno. destruct (occurrencesIn doc norm needle a b) as [|p0 l] eqn:Ho;
      [reflexivity|].
    exfalso. apply (Hno p0). apply In_occurrencesIn. rewrite Ho. now left.
Qed.

(** ** [nextMatch] *)

Lemma cursor_fresh (this : Query) (doc : Text) (a b : Z) :
  StringQuery.cursor this doc a b
  = SearchCursor.mk doc (map (foldOf (caseInsensitive this)) (search this))
      (foldOf (caseInsensitive this)) (Z.max 0 a) (Z.min b (length doc))
      (mkResult 0 0 None) false.
Proof.
  unfold StringQuery.cursor, SearchCursor.create, foldOf.
  now destruct (caseInsensitive this).
Qed.

Lemma cursor_overlapping (this : Query) (doc : Text) (a b : Z) :
  overlappingFrom (StringQuery.cursor this doc a b)
  = map (resultAt (search this))
        (occurrencesIn doc (foldOf (caseInsensitive this)) (search this) a b).
Proof.
  rewrite cursor_fresh. unfold overlappingFrom, occurrencesIn, resultAt. cbn.
  now rewrite length_map.
Qed.

Lemma cursor_nonOverlapping (this : Query) (doc : Text) (a b : Z) :
  nonOverlappingFrom (StringQuery.cursor this doc a b)
  = map (resultAt (search this))
        (nonOverlappingIn doc (foldOf (caseInsensitive this)) (search this) a b).
Proof.
  rewrite cursor_fresh. unfold nonOverlappingFrom, nonOverlappingIn, occurrencesIn, resultAt.
  cbn. rewrite length_map. do 2 f_equal. lia.
Qed.

Lemma hd_error_map {A B : Type} (f : A -> B) (l : list A) :
  hd_error (map f l) = option_map f (hd_error l).
Proof. now destruct l. Qed.

Lemma nextOverlapping_first (this : Query) (doc : Text) (a b : Z) :
  (if SearchCursor.done (SearchCursor.nextOverlapping (StringQuery.cursor this doc a b))
   then None
   else Some (SearchCursor.value
                (SearchCursor.nextOverlapping (StringQuery.cursor this doc a b))))
  = firstMatchIn doc (foldOf (caseInsensitive this)) (search this) a b.
Proof.
  unfold firstMatchIn. rewrite <- hd_error_map, <- cursor_overlapping.
  rewrite overlapping_step. now destruct (SearchCursor.done _).
Qed.

Lemma StringQuery_nextMatch_spec (this : Query) (doc : Text) (curFrom curTo : Z) :
  StringQuery.nextMatch this doc curFrom curTo
  = orElse (firstMatchIn doc (foldOf (caseInsensitive this)) (search this)
                         curTo (length doc))
           (firstMatchIn doc (foldOf (caseInsensitive this)) (search this) 0 curFrom).
Proof.
  unfold StringQuery.nextMatch. rewrite <- !nextOverlapping_first. cbv zeta.
  destruct (SearchCursor.done
              (SearchCursor.nextOverlapping
                 (StringQuery.cursor this doc curTo (length doc)))) eqn:Hd;
    cbn [orElse]; rewrite ?Hd; reflexivity.
Qed.

Lemma RegExpCursor_first {E : RegExpEngine} (this : Query) (doc : Text) (a b : Z) :
  (if RegExpCursor.done (RegExpCursor.nextOverlapping (RegExpQuery.cursor this doc a b))
   then None
   else Some (RegExpCursor.value
                (RegExpCursor.nextOverlapping (RegExpQuery.cursor this doc a b))))
  = regexpFirstMatchIn (search this) (caseInsensitive this) doc a b.
Proof.
  unfold regexpFirstMatchIn, RegExpCursor.nextOverlapping, RegExpCursor.seek,
    RegExpQuery.cursor, RegExpCursor.create. cbn.
  rewrite Z.sub_diag.
  now destruct (regexpExec _ _ _ _) as [[index groups]|].
Qed.

Lemma RegExpQuery_nextMatch_spec {E : RegExpEngine} (this : Query) (doc : Text)
    (curFrom curTo : Z) :
  RegExpQuery.nextMatch this doc curFrom curTo
  = orElse (regexpFirstMatchIn (search this) (caseInsensitive this) doc curTo (length doc))
           (regexpFirstMatchIn (search this) (caseInsensitive this) doc 0 curFrom).
Proof.
  unfold RegExpQuery.nextMatch. rewrite <- !RegExpCursor_first. cbv zeta.
  destruct (RegExpCursor.done
              (RegExpCursor.nextOverlapping
                 (RegExpQuery.cursor this doc curTo (length doc)))) eqn:Hd;
    cbn [orElse]; rewrite ?Hd; reflexivity.
Qed.

Lemma orElse_Some {A : Type} (x y : option A) (v : A) :
  orElse x y = Some v <-> x = Some v \/ (x = None /\ y = Some v).
Proof.
  destruct x as [w|]; simpl; split.
  - intros ->. now left.
  - intros [H|[H _]]; [assumption|discriminate].
  - intros ->. right. now split.
  - intros [H|[_ H]]; [discriminate|assumption].
Qed.

Lemma orElse_None {A : Type} (x y : option A) :
  orElse x y = None <-> x = None /\ y = None.
Proof.
  destruct x as [w|]; simpl; split.
  - discriminate.
  - intros [H _]. discriminate.
  - intros ->. now split.
  - now intros [_ H].
Qed.

(** C1, as amended.  [nextMatch] answers the first match of the query that
    lies inside [[curTo, doc.length)], a match starting at [curTo] included;
    when there is none it answers the first match that lies inside
    [[0, curFrom)]; and it answers [null] exactly when neither range holds
    a match.  For a literal query the first match of a range is the
    occurrence of the needle with the least offset among those that start
    and end inside the range. *)
Theorem nextMatch_wraps {E : RegExpEngine} (q : Query) (doc : Text) (curFrom curTo : Z) :
  nextMatch q doc curFrom curTo
  = orElse (firstWithin q doc curTo (length doc)) (firstWithin q doc 0 curFrom)
  /\ (forall needle replacement ci m,
        nextMatch (StringQuery needle replacement ci) doc curFrom curTo = Some m <->
        isFirstMatch doc (foldOf ci) needle curTo (length doc) m
        \/ (noMatch doc (foldOf ci) needle curTo (length doc)
            /\ isFirstMatch doc (foldOf ci) needle 0 curFrom m))
  /\ (forall needle replacement ci,
        nextMatch (StringQuery needle replacement ci) doc curFrom curTo = None <->
        noMatch doc (foldOf ci) needle curTo (length doc)
        /\ noMatch doc (foldOf ci) needle 0 curFrom).
Proof.
  assert (Heq : forall q, nextMatch q doc curFrom curTo
                = orElse (firstWithin q doc curTo (length doc))
                         (firstWithin q doc 0 curFrom)).
  { intros [s r ci|s r ci]; cbn [nextMatch firstWithin].
    - apply StringQuery_nextMatch_spec.
    - apply RegExpQuery_nextMatch_spec. }
  split; [apply Heq|]. split.
  - intros needle replacement ci m. rewrite Heq. cbn [firstWithin].
    rewrite orElse_Some, !firstMatchIn_Some, firstMatchIn_None. tauto.
  - intros needle replacement ci. rewrite Heq. cbn [firstWithin].
    rewrite orElse_None, !firstMatchIn_None. tauto.
Qed.

(** C1, counterexample.  In the document [xabx] with the match [ab]
    selected ([curFrom = 1], [curTo = 3]), [nextMatch] answers [null]
    although the document holds a match. *)
Lemma nextMatch_null_with_match :
  ~ nullOnlyWithoutMatch (lit "ab") false (lit "xabx") 1 3.
Proof.
  intros Hclaim. apply (Hclaim Logic.eq_refl 1).
  unfold occursWithin, occursAt. cbn. repeat split; lia.
Qed.

(** C5 at [a cat sat], for the range of [cat]. *)
Lemma isWholeWord_iff_witness :
  let state := mkState (lit "a cat sat") (EditorSelection.create [] 0) in
  isWholeWord categorize state 2 5 = true <->
  ((2 = 0 \/ ~ wordCharAt categorize (doc state) (2 - 1)) /\
   (5 = length (doc state) \/ ~ wordCharAt categorize (doc state) 5)) /\
  (wordCharAt categorize (doc state) 2 /\ wordCharAt categorize (doc state) (5 - 1)).
Proof.
  apply (isWholeWord_iff categorize (mkState (lit "a cat sat") (EditorSelection.create [] 0))
           2 5); cbn; lia.
Defined.

(** ** Searching backward *)

Lemma lastOf_map {A B : Type} (f : A -> B) (l : list A) :
  lastOf (map f l) = option_map f (lastOf l).
Proof.
  induction l as [|x l IH]; [reflexivity|].
  cbn [map]. rewrite !lastOf_cons, IH. now destruct (lastOf l).
Qed.

Lemma prevMatchInRange_turn_spec (this : Query) (doc : Text) (from pos : Z) :
  StringQuery.prevMatchInRange_turn this doc from pos
  = Ok (let start := Z.max from (pos - FindPrev.ChunkSize - length (search this)) in
        match lastMatchIn doc (foldOf (caseInsensitive this)) (search this) start pos with
        | Some r => Return (Some r)
        | None => if start =? from then Return None
                  else Again (pos - FindPrev.ChunkSize)
        end).
Proof.
  unfold StringQuery.prevMatchInRange_turn. cbv zeta.
  rewrite lastInChunk_spec by lia. rewrite cursor_overlapping, lastOf_map.
  fold (lastMatchIn doc (foldOf (caseInsensitive this)) (search this)
          (Z.max from (pos - FindPrev.ChunkSize - length (search this))) pos).
  cbn [bind]. destruct (lastMatchIn _ _ _ _ _); cbn [bind]; [reflexivity|].
  now destruct (_ =? _).
Qed.

Lemma lastMatchIn_ext (doc : Text) (norm : ascii -> ascii) (needle : str)
    (a b a' b' : Z) :
  (forall p, occursWithin doc norm needle a b p <-> occursWithin doc norm needle a' b' p) ->
  lastMatchIn doc norm needle a b = lastMatchIn doc norm needle a' b'.
Proof.
  intros Hext.
  destruct (lastMatchIn doc norm needle a b) as [m|] eqn:Hl; symmetry.
  - apply lastMatchIn_Some in Hl as (p & -> & Hin & Hmax).
    apply lastMatchIn_Some. exists p. split; [reflexivity|]. split.
    + now apply Hext.
    + intros p' Hp'. apply Hmax. now apply Hext.
  - apply lastMatchIn_None. intros p Hp. apply Hext in Hp.
    apply lastMatchIn_None in Hl. exact (Hl p Hp).
Qed.

Lemma lastMatchIn_chunk (doc : Text) (norm : ascii -> ascii) (needle : str)
    (from pos : Z) :
  let start := Z.max from (pos - FindPrev.ChunkSize - length needle) in
  lastMatchIn doc norm needle from pos
  = match lastMatchIn doc norm needle start pos with
    | Some r => Some r
    | None => if start =? from then None
              else lastMatchIn doc norm needle from (pos - FindPrev.ChunkSize)
    end.
Proof.
  intros start. pose proof (length_nonneg needle) as Hn.
  assert (Hstart : from <= start) by (unfold start; lia).
  destruct (lastMatchIn doc norm needle start pos) as [m|] eqn:Hl.
  - apply lastMatchIn_Some in Hl as (p & -> & (Ha & Hb & Hocc) & Hmax).
    apply lastMatchIn_Some. exists p. split; [reflexivity|]. split.
    + split; [lia|split; [lia|assumption]].
    + intros p' (Ha' & Hb' & Hocc').
      destruct (Z.le_gt_cases start p') as [Hge|Hlt]; [|lia].
      apply Hmax. split; [lia|split; [lia|assumption]].
  - destruct (Z.eqb_spec start from) as [Heq|Hne].
    + rewrite <- Heq. exact Hl.
    + apply lastMatchIn_ext. intros p.
      apply lastMatchIn_None in Hl. unfold FindPrev.ChunkSize in *. split.
      * intros (Ha & Hb & Hocc).
        destruct (Z.le_gt_cases start p) as [Hge|Hlt].
        -- exfalso. apply (Hl p). split; [lia|split; [lia|assumption]].
        -- split; [lia|split; [|assumption]]. unfold start in *. lia.
      * intros (Ha & Hb & Hocc). split; [lia|split; [lia|assumption]].
Qed.

Lemma prevMatchInRange_loop_spec (this : Query) (doc : Text) (from : Z)
    (gas : nat) (pos : Z) :
  (Z.to_nat ((pos - from) / FindPrev.ChunkSize) < gas)%nat ->
  StringQuery.prevMatchInRange_loop gas this doc from pos
  = Ok (lastMatchIn doc (foldOf (caseInsensitive this)) (search this) from pos).
Proof.
  revert pos; induction gas as [|gas IH]; intros pos Hgas; [lia|].
  cbn [StringQuery.prevMatchInRange_loop].
  rewrite prevMatchInRange_turn_spec. cbn [bind]. cbv zeta.
  rewrite (lastMatchIn_chunk doc _ (search this) from pos). cbv zeta.
  destruct (lastMatchIn _ _ _ (Z.max _ _) pos) as [m|]; [reflexivity|].
  destruct (Z.eqb_spec (Z.max from (pos - FindPrev.ChunkSize - length (search this))) from)
    as [Heq|Hne]; [reflexivity|].
  apply IH. pose proof (length_nonneg (search this)).
  unfold FindPrev.ChunkSize in *.
  assert (Hdiv : (pos - 10000 - from) / 10000 = (pos - from) / 10000 - 1).
  { replace (pos - 10000 - from) with ((pos - from) + (-1) * 10000) by lia.
    rewrite Z.div_add by lia. lia. }
  assert (1 <= (pos - from) / 10000) by (apply Z.div_le_lower_bound; lia).
  lia.
Qed.

Lemma prevMatchInRange_spec (this : Query) (doc : Text) (from to : Z) :
  StringQuery.prevMatchInRange this doc from to
  = Ok (lastMatchIn doc (foldOf (caseInsensitive this)) (search this) from to).
Proof. unfold StringQuery.prevMatchInRange. apply prevMatchInRange_loop_spec. lia. Qed.

Lemma chunkWindows_spec (doc : Text) (norm : ascii -> ascii) (needle : str) (from : Z)
    (count : nat) (pos : Z) :
  (Z.to_nat ((pos - from) / FindPrev.ChunkSize) < count)%nat ->
  firstSome (map (fun w => lastMatchIn doc norm needle (fst w) (snd w))
                 (chunkWindows count from pos (length needle)))
  = lastMatchIn doc norm needle from pos.
Proof.
  revert pos; induction count as [|count IH]; intros pos Hgas; [lia|].
  cbn [chunkWindows map firstSome fst snd].
  rewrite (lastMatchIn_chunk doc norm needle from pos). cbv zeta.
  destruct (lastMatchIn _ _ _ (Z.max _ _) pos) as [m|]; [reflexivity|].
  destruct (Z.eqb_spec (Z.max from (pos - FindPrev.ChunkSize - length needle)) from)
    as [Heq|Hne]; [reflexivity|].
  apply IH. pose proof (length_nonneg needle).
  unfold FindPrev.ChunkSize in *.
  assert (Hdiv : (pos - 10000 - from) / 10000 = (pos - from) / 10000 - 1).
  { replace (pos - 10000 - from) with ((pos - from) + (-1) * 10000) by lia.
    rewrite Z.div_add by lia. lia. }
  assert (1 <= (pos - from) / 10000) by (apply Z.div_le_lower_bound; lia).
  lia.
Qed.

(** C2.  For a literal query, [prevMatch] answers the last match of the
    chunk nearest to [curFrom] that holds one, the chunks being the windows
    of 10000 characters, each extended backward by the needle's length, that
    go back from [curFrom] to the start of the document; when no chunk holds
    a match it answers the last match inside [[curTo, doc.length)]; it
    answers [null] exactly when neither [[0, curFrom)] nor
    [[curTo, doc.length)] holds a match.  The match answered is the last
    one of its range. *)
Theorem prevMatch_chunked (needle replacement : str) (ci : bool)
    (doc : Text) (curFrom curTo : Z) :
  prevMatch (StringQuery needle replacement ci) doc curFrom curTo
  = Ok (orElse (lastMatchByChunks doc (foldOf ci) needle 0 curFrom)
               (lastMatchIn doc (foldOf ci) needle curTo (length doc)))
  /\ lastMatchByChunks doc (foldOf ci) needle 0 curFrom
     = lastMatchIn doc (foldOf ci) needle 0 curFrom
  /\ (prevMatch (StringQuery needle replacement ci) doc curFrom curTo = Ok None <->
      noMatch doc (foldOf ci) needle 0 curFrom
      /\ noMatch doc (foldOf ci) needle curTo (length doc))
  /\ (forall m,
      prevMatch (StringQuery needle replacement ci) doc curFrom curTo = Ok (Some m) <->
      isLastMatch doc (foldOf ci) needle 0 curFrom m
      \/ (noMatch doc (foldOf ci) needle 0 curFrom
          /\ isLastMatch doc (foldOf ci) needle curTo (length doc) m)).
Proof.
  assert (Hchunks : lastMatchByChunks doc (foldOf ci) needle 0 curFrom
                    = lastMatchIn doc (foldOf ci) needle 0 curFrom).
  { unfold lastMatchByChunks, chunksOf. apply chunkWindows_spec. lia. }
  assert (Heq : prevMatch (StringQuery needle replacement ci) doc curFrom curTo
                = Ok (orElse (lastMatchIn doc (foldOf ci) needle 0 curFrom)
                             (lastMatchIn doc (foldOf ci) needle curTo (length doc)))).
  { cbn [prevMatch]. unfold StringQuery.prevMatch.
    rewrite !prevMatchInRange_spec. cbn [bind search caseInsensitive].
    destruct (lastMatchIn doc (foldOf ci) needle 0 curFrom); reflexivity. }
  split; [now rewrite Hchunks|]. split; [exact Hchunks|]. split.
  - rewrite Heq. split.
    + intros [= Hnone]. apply orElse_None in Hnone.
      now rewrite <- !lastMatchIn_None.
    + intros Hno. rewrite <- !lastMatchIn_None in Hno.
      apply orElse_None in Hno. now rewrite Hno.
  - intros m. rewrite Heq. split.
    + intros [= Hsome]. apply orElse_Some in Hsome.
      now rewrite <- !lastMatchIn_Some, <- lastMatchIn_None.
    + intros Hm. rewrite <- !lastMatchIn_Some, <- lastMatchIn_None in Hm.
      apply orElse_Some in Hm. now rewrite Hm.
Qed.

(** C10.  [prevMatchInRange] returns, whatever the document, the needle and
    the bounds (so also for [0 <= from <= to <= doc.length]): the gas it
    runs on is never used up, and more gas changes nothing.  Every turn of
    its loop at a position [pos] either returns a match, or returns [null]
    with the chunk start clamped to [from], or goes on from
    [pos - 10000], which is still above [from]. *)
Theorem prevMatchInRange_terminates (this : Query) (doc : Text) (from to : Z) :
  (exists r, StringQuery.prevMatchInRange this doc from to = Ok r)
  /\ (forall gas,
        (S (Z.to_nat ((to - from) / FindPrev.ChunkSize)) <= gas)%nat ->
        StringQuery.prevMatchInRange_loop gas this doc from to
        = StringQuery.prevMatchInRange this doc from to)
  /\ (forall pos,
        (exists r, StringQuery.prevMatchInRange_turn this doc from pos
                   = Ok (Return (Some r)))
        \/ (StringQuery.prevMatchInRange_turn this doc from pos = Ok (Return None)
            /\ Z.max from (pos - FindPrev.ChunkSize - length (search this)) = from)
        \/ (StringQuery.prevMatchInRange_turn this doc from pos
            = Ok (Again (pos - 10000))
            /\ from < pos - 10000)).
Proof.
  split; [|split].
  - eexists. apply prevMatchInRange_spec.
  - intros gas Hgas. rewrite prevMatchInRange_spec.
    apply prevMatchInRange_loop_spec. lia.
  - intros pos. rewrite prevMatchInRange_turn_spec. cbv zeta.
    destruct (lastMatchIn _ _ _ _ _) as [m|].
    + left. now exists m.
    + right.
      destruct (Z.eqb_spec (Z.max from (pos - FindPrev.ChunkSize - length (search this)))
                           from) as [Heq|Hne].
      * left. now split.
      * right. split; [reflexivity|].
        pose proof (length_nonneg (search this)). unfold FindPrev.ChunkSize in Hne. lia.
Qed.

(** ** Replacement text *)

Lemma replaceDollar_other (f : str -> ascii -> str) (c : ascii) (t : str) :
  c <> "$"%char -> replaceDollar f (c :: t) = c :: replaceDollar f t.
Proof.
  intros Hc. cbn [replaceDollar]. destruct t as [|i rest]; [reflexivity|].
  destruct (Ascii.eqb_spec c "$"); [contradiction|]. reflexivity.
Qed.

Lemma replaceDollar_dollar (f : str -> ascii -> str) (i : ascii) (rest : str) :
  replaceDollar f ("$"%char :: i :: rest)
  = if inDollarClass i then f ["$"%char; i] i ++ replaceDollar f rest
    else "$"%char :: replaceDollar f (i :: rest).
Proof. reflexivity. Qed.

Lemma digitChar_facts (n : nat) :
  (n <= 9)%nat ->
  inDollarClass (digitChar n) = true /\
  toNumber (digitChar n) = Some (Z.of_nat n) /\
  Ascii.eqb (digitChar n) "$" = false /\
  Ascii.eqb (digitChar n) "&" = false /\
  Ascii.eqb (digitChar n) "0" = Nat.eqb n 0.
Proof.
  intros Hn. do 10 (destruct n as [|n]; [vm_compute; auto|]). lia.
Qed.

(** C4.  A literal query's [getReplacement] is its replace string, whatever
    the match result.  A regex query's [getReplacement], for a result that
    holds its groups, reads the replace string from the left and
    writes [$$] as [$], [$&] as the whole match, [$n] (n from 1 to 9) as the
    n-th group when the match has a group of that index, and copies
    everything else: [$0], [$n] without such a group, [$] before any other
    character or at the end, and every other character. *)
Theorem getReplacement_expands (search template : str) (ci : bool)
    (result : SearchResult) :
  getReplacement (StringQuery search template ci) result = template
  /\ forall groups, match_ result = Some groups ->
  getReplacement (RegExpQuery search [] ci) result = []
  /\ (forall t, getReplacement (RegExpQuery search ("$" :: "$" :: t)%char ci) result
                = "$"%char :: getReplacement (RegExpQuery search t ci) result)
  /\ (forall t, getReplacement (RegExpQuery search ("$" :: "&" :: t)%char ci) result
                = nth 0%nat groups [] ++ getReplacement (RegExpQuery search t ci) result)
  /\ (forall n t, (1 <= n <= 9)%nat -> (n < List.length groups)%nat ->
        getReplacement (RegExpQuery search ("$"%char :: digitChar n :: t) ci) result
        = nth n groups [] ++ getReplacement (RegExpQuery search t ci) result)
  /\ (forall n t, (n <= 9)%nat -> (n = 0 \/ List.length groups <= n)%nat ->
        getReplacement (RegExpQuery search ("$"%char :: digitChar n :: t) ci) result
        = "$"%char :: digitChar n :: getReplacement (RegExpQuery search t ci) result)
  /\ (forall c t, c <> "$"%char -> c <> "&"%char -> isDigit c = false ->
        getReplacement (RegExpQuery search ("$"%char :: c :: t) ci) result
        = "$"%char :: c :: getReplacement (RegExpQuery search t ci) result)
  /\ getReplacement (RegExpQuery search ["$"%char] ci) result = ["$"%char]
  /\ (forall c t, c <> "$"%char ->
        getReplacement (RegExpQuery search (c :: t) ci) result
        = c :: getReplacement (RegExpQuery search t ci) result).
Proof.
  split; [reflexivity|]. intros groups Hgroups.
  assert (Hg : RegExpQuery.groupsOf result = groups)
    by (unfold RegExpQuery.groupsOf; now rewrite Hgroups).
  cbn [getReplacement StringQuery.getReplacement replace].
  unfold RegExpQuery.getReplacement. cbn [replace]. rewrite Hg.
  repeat split.
  - intros n t Hn Hlen.
    destruct (digitChar_facts n) as (Hclass & Hnum & Hd & Ha & Hz); [lia|].
    rewrite replaceDollar_dollar, Hclass, Hnum, Hd, Ha, Hz.
    cbn [andb]. rewrite Nat2Z.id.
    destruct (Nat.eqb_spec n 0); [lia|].
    destruct (Z.ltb_spec (Z.of_nat n) (Z.of_nat (List.length groups))); [|lia].
    reflexivity.
  - intros n t Hn Hlen.
    destruct (digitChar_facts n) as (Hclass & Hnum & Hd & Ha & Hz); [lia|].
    rewrite replaceDollar_dollar, Hclass, Hnum, Hd, Ha, Hz.
    cbn [andb].
    destruct (Nat.eqb_spec n 0); [reflexivity|].
    destruct (Z.ltb_spec (Z.of_nat n) (Z.of_nat (List.length groups))); [lia|].
    reflexivity.
  - intros c t Hd Ha Hdig. rewrite replaceDollar_dollar.
    destruct (inDollarClass c) eqn:Hclass.
    + unfold toNumber. rewrite Hdig.
      destruct (Ascii.eqb_spec c "$"); [contradiction|].
      destruct (Ascii.eqb_spec c "&"); [contradiction|].
      reflexivity.
    + f_equal. now apply replaceDollar_other.
  - intros c t Hc. now apply replaceDollar_other.
Qed.

(** ** [matchAll] and [replaceAll] *)

Lemma StringQuery_matchAll_spec (this : Query) (doc : Text) (limit : Z) :
  StringQuery.matchAll this doc limit
  = Ok (collect [] (map (resultAt (search this))
                        (nonOverlappingIn doc (foldOf (caseInsensitive this))
                                          (search this) 0 (length doc)))
                limit).
Proof.
  unfold StringQuery.matchAll. cbv zeta.
  rewrite StringQuery_matchAll_loop_spec by lia. now rewrite cursor_nonOverlapping.
Qed.

Lemma RegExpCursor_step {E : RegExpEngine} (laws : EngineLaws E) (c : RegExpCursor.t) :
  RegExpCursor.done (RegExpCursor.nextOverlapping c) = false ->
  (RegExpCursor.budget (RegExpCursor.nextOverlapping c) < RegExpCursor.budget c)%nat.
Proof.
  unfold RegExpCursor.nextOverlapping, RegExpCursor.seek.
  destruct (RegExpCursor.done c) eqn:Hd; [congruence|].
  destruct (regexpExec _ _ _ _) as [[index groups]|] eqn:Hexec; [|discriminate].
  intros _. apply laws in Hexec as (Hlo & whole & rest & -> & Hhi).
  unfold RegExpCursor.budget. cbn. pose proof (length_nonneg whole). lia.
Qed.

Lemma regexpStream_stable {E : RegExpEngine} (laws : EngineLaws E) (g1 g2 : nat)
    (c : RegExpCursor.t) :
  (RegExpCursor.budget c <= g1)%nat -> (RegExpCursor.budget c <= g2)%nat ->
  regexpStream g1 c = regexpStream g2 c.
Proof.
  revert g2 c; induction g1 as [|g1 IH]; intros g2 c H1 H2.
  - unfold RegExpCursor.budget in H1. lia.
  - destruct g2 as [|g2]; [unfold RegExpCursor.budget in H2; lia|].
    cbn [regexpStream].
    destruct (RegExpCursor.done (RegExpCursor.nextOverlapping c)) eqn:Hd; [reflexivity|].
    pose proof (RegExpCursor_step laws c Hd). f_equal. apply IH; lia.
Qed.

Lemma RegExpQuery_matchAll_loop_spec {E : RegExpEngine} (laws : EngineLaws E)
    (gas : nat) (c : RegExpCursor.t) (ranges : list SearchResult) (limit : Z) :
  (RegExpCursor.budget c <= gas)%nat ->
  RegExpQuery.matchAll_loop gas c ranges limit
  = Ok (collect ranges (regexpStream (RegExpCursor.budget c) c) limit).
Proof.
  revert c ranges; induction gas as [|gas IH]; intros c ranges Hgas.
  - unfold RegExpCursor.budget in Hgas. lia.
  - rewrite (regexpStream_stable laws (RegExpCursor.budget c) (S gas) c) by lia.
    cbn [RegExpQuery.matchAll_loop regexpStream].
    destruct (RegExpCursor.done (RegExpCursor.nextOverlapping c)) eqn:Hd; [reflexivity|].
    pose proof (RegExpCursor_step laws c Hd). rewrite collect_cons.
    destruct (Z.of_nat (List.length ranges) >=? limit); [reflexivity|].
    rewrite IH by lia.
    now rewrite (regexpStream_stable laws gas
                   (RegExpCursor.budget (RegExpCursor.nextOverlapping c))
                   (RegExpCursor.nextOverlapping c)) by lia.
Qed.

Lemma matchAll_spec {E : RegExpEngine} (laws : EngineLaws E) (q : Query) (doc : Text)
    (limit : Z) :
  matchAll q doc limit = Ok (collect [] (allMatches q doc) limit).
Proof.
  destruct q as [s r ci|s r ci]; cbn [matchAll allMatches].
  - apply StringQuery_matchAll_spec.
  - unfold RegExpQuery.matchAll. cbv zeta.
    now rewrite (RegExpQuery_matchAll_loop_spec laws) by lia.
Qed.

Lemma collect_within (all : list SearchResult) (limit : Z) :
  Z.of_nat (List.length all) <= limit -> collect [] all limit = Some all.
Proof.
  intros Hlen. unfold collect. destruct all as [|m all]; [reflexivity|].
  cbn [List.length Nat.add app].
  destruct (Z.gtb_spec (Z.of_nat (S (List.length all))) limit) as [Hgt|_];
    [cbn [List.length] in Hlen; lia|reflexivity].
Qed.

(** C9.  For a valid query whose matches in the document number at most
    [1e9], the [matchAll] call of [replaceAll] does not answer [null], so
    the dereference does not fail; [replaceAll] returns [false] without
    dispatching when there is no match, and otherwise dispatches one change
    [(from, to, getReplacement(match))] per match, in order, and returns
    [true]. *)
Theorem replaceAll_changes {E : RegExpEngine} (laws : EngineLaws E) (view : EditorView)
    (st : SearchState) :
  searchState (config view) = Some st ->
  valid (query st) = true ->
  Z.of_nat (List.length (allMatches (query st) (doc (state view)))) <= 1000000000 ->
  matchAll (query st) (doc (state view)) 1000000000
  = Ok (Some (allMatches (query st) (doc (state view))))
  /\ replaceAll view
     = Ok (match allMatches (query st) (doc (state view)) with
           | [] => Returned None false
           | ms => Returned (Some (mkTransaction (map (changeFor (query st)) ms)
                                                 None false))
                            true
           end).
Proof.
  intros Hfield Hvalid Hcount.
  assert (Hall : matchAll (query st) (doc (state view)) 1000000000
                 = Ok (Some (allMatches (query st) (doc (state view))))).
  { rewrite (matchAll_spec laws). now rewrite collect_within. }
  split; [exact Hall|].
  unfold replaceAll, searchCommand. rewrite Hfield, Hvalid, Hall. cbn [bind].
  now destruct (allMatches (query st) (doc (state view))).
Qed.

(** C3, at the failing input.  For the regex query [aba] over [ababa],
    [matchAll] enumerates the two overlapping matches [[0, 3)] and
    [[2, 5)], where the literal query [aba] enumerates [[0, 3)] alone. *)
Theorem RegExpQuery_matchAll_overlapping :
  matchAll (E := plainEngine) (RegExpQuery (lit "aba") [] false) (lit "ababa") 1000
  = Ok (Some [mkResult 0 3 (Some [lit "aba"]); mkResult 2 5 (Some [lit "aba"])])
  /\ overlap (mkResult 0 3 (Some [lit "aba"])) (mkResult 2 5 (Some [lit "aba"]))
  /\ matchAll (E := plainEngine) (StringQuery (lit "aba") [] false) (lit "ababa") 1000
     = Ok (Some [mkResult 0 3 None]).
Proof.
  split; [vm_compute; reflexivity|]. split; [unfold overlap; cbn; lia|].
  vm_compute; reflexivity.
Qed.

(** ** The next-occurrence selector *)

Lemma create_cursor (doc : Text) (query : str) (a b : Z) :
  SearchCursor.create doc query a b None
  = StringQuery.cursor (StringQuery query [] false) doc a b.
Proof. reflexivity. Qed.

Lemma create_nonOverlapping (doc : Text) (query : str) (a b : Z) :
  nonOverlappingFrom (SearchCursor.create doc query a b None)
  = map (resultAt query) (nonOverlappingIn doc (fun c => c) query a b).
Proof. rewrite create_cursor. apply cursor_nonOverlapping. Qed.

Lemma create_overlapping (doc : Text) (query : str) (a b : Z) :
  overlappingFrom (SearchCursor.create doc query a b None)
  = map (resultAt query) (occurrencesIn doc (fun c => c) query a b).
Proof. rewrite create_cursor. apply cursor_overlapping. Qed.


Lemma existsb_false {A : Type} (f : A -> bool) (l : list A) :
  (forall x, In x l -> f x = false) -> existsb f l = false.
Proof.
  intros Hall. induction l as [|x l IH]; [reflexivity|].
  cbn [existsb]. rewrite (Hall x (or_introl Logic.eq_refl)). apply IH.
  intros y Hy. apply Hall. now right.
Qed.





(** ** The selection-match highlighter *)

Lemma getDeco_scan_spec (gas : nat) (state : EditorState) (conf : HighlightOptions)
    (range : SelectionRange.t) (check : option (str -> CharCategory))
    (c : SearchCursor.t) (deco : list Decoration.range) :
  (SearchCursor.budget c <= gas)%nat ->
  getDeco_scan gas state conf range check c deco
  = Ok (decoFold state conf range check (overlappingFrom c) deco).
Proof.
  revert c deco; induction gas as [|gas IH]; intros c deco Hgas.
  - unfold SearchCursor.budget in Hgas. lia.
  - cbn [getDeco_scan]. rewrite (overlapping_step c).
    destruct (SearchCursor.done (SearchCursor.nextOverlapping c)) eqn:Hd; [reflexivity|].
    pose proof (nextOverlapping_budget c Hd). cbn [decoFold]. cbv zeta.
    set (m := SearchCursor.value (SearchCursor.nextOverlapping c)).
    change (match check with
            | Some check0 =>
                ((from m =? 0)
                 || negb (CharCategory_eqb (check0 (sliceDoc state (from m - 1) (from m)))
                                           Word))
                && ((to m =? length (doc state))
                    || negb (CharCategory_eqb (check0 (sliceDoc state (to m) (to m + 1)))
                                              Word))
            | None => true
            end) with (passesBoundary state check (from m) (to m)).
    destruct (passesBoundary state check (from m) (to m)); [|apply IH; lia].
    assert (Hpush :
      (if match check with Some _ => true | None => false end
          && (from m <=? SelectionRange.from range) && (to m >=? SelectionRange.to range)
       then deco ++ [Decoration.mkRange (from m) (to m) mainMatchDeco]
       else if (from m >=? SelectionRange.to range) || (to m <=? SelectionRange.from range)
       then deco ++ [Decoration.mkRange (from m) (to m) matchDeco]
       else deco)
      = deco ++ decorationFor range check (from m) (to m)).
    { unfold decorationFor.
      destruct (_ && _ && _); [reflexivity|].
      destruct (_ || _); [reflexivity|]. now rewrite app_nil_r. }
    rewrite Hpush.
    destruct (_ >? _); [reflexivity|]. apply IH; lia.
Qed.

Lemma getDeco_parts_spec {H : EditorHost} (state : EditorState) (conf : HighlightOptions)
    (range : SelectionRange.t) (check : option (str -> CharCategory)) (query : str)
    (parts : list (Z * Z)) (deco : list Decoration.range) :
  getDeco_parts state conf range check query parts deco
  = Ok (partsFold state conf range check query parts deco).
Proof.
  revert deco; induction parts as [|part parts IH]; intros deco; [reflexivity|].
  cbn [getDeco_parts partsFold]. cbv zeta.
  rewrite getDeco_scan_spec by lia. rewrite create_overlapping. cbn [bind].
  destruct (decoFold _ _ _ _ _ _); [apply IH|reflexivity].
Qed.

Lemma decoFold_In (state : EditorState) (conf : HighlightOptions)
    (range : SelectionRange.t) (check : option (str -> CharCategory))
    (ms : list SearchResult) (deco deco' : list Decoration.range) (d : Decoration.range) :
  decoFold state conf range check ms deco = Some deco' -> In d deco' ->
  In d deco \/
  exists m, In m ms /\ passesBoundary state check (from m) (to m) = true /\
            In d (decorationFor range check (from m) (to m)).
Proof.
  revert deco; induction ms as [|m ms IH]; intros deco.
  - intros [= <-] Hd. now left.
  - cbn [decoFold].
    destruct (passesBoundary state check (from m) (to m)) eqn:Hpass.
    + destruct (_ >? _); [discriminate|]. intros Hfold Hd.
      destruct (IH _ Hfold Hd) as [Hin|(m' & Hm' & Hp' & Hd')].
      * apply in_app_or in Hin as [Hin|Hin]; [now left|].
        right. exists m. repeat split; try assumption. now left.
      * right. exists m'. repeat split; try assumption. now right.
    + intros Hfold Hd.
      destruct (IH _ Hfold Hd) as [Hin|(m' & Hm' & Hp' & Hd')]; [now left|].
      right. exists m'. repeat split; try assumption. now right.
Qed.

Lemma partsFold_In (state : EditorState) (conf : HighlightOptions)
    (range : SelectionRange.t) (check : option (str -> CharCategory)) (query : str)
    (parts : list (Z * Z)) (deco : list Decoration.range) (d : Decoration.range) :
  In d (partsFold state conf range check query parts deco) ->
  In d deco \/
  exists part p, In part parts /\
    occursWithin (doc state) (fun c => c) query (fst part) (snd part) p /\
    passesBoundary state check p (p + length query) = true /\
    In d (decorationFor range check p (p + length query)).
Proof.
  revert deco; induction parts as [|part parts IH]; intros deco; [now left|].
  cbn [partsFold].
  destruct (decoFold _ _ _ _ _ _) as [deco'|] eqn:Hfold; [|intros []].
  intros Hd. destruct (IH _ Hd) as [Hin|(part' & p & Hpart & Hocc & Hpass & Hin)].
  - destruct (decoFold_In _ _ _ _ _ _ _ _ Hfold Hin) as [Hin'|(m & Hm & Hpass & Hd')];
      [now left|].
    right. apply in_map_iff in Hm as (p & <- & Hp). apply In_occurrencesIn in Hp.
    cbn [from to resultAt] in Hpass, Hd'.
    exists part, p. split; [now left|]. split; [assumption|]. split; assumption.
  - right. exists part', p. split; [now right|]. split; [assumption|]. split; assumption.
Qed.

Lemma decoFold_incl (state : EditorState) (conf : HighlightOptions)
    (range : SelectionRange.t) (check : option (str -> CharCategory))
    (ms : list SearchResult) (deco deco' : list Decoration.range) :
  decoFold state conf range check ms deco = Some deco' -> incl deco deco'.
Proof.
  revert deco; induction ms as [|m ms IH]; intros deco.
  - intros [= <-]. apply incl_refl.
  - cbn [decoFold]. destruct (passesBoundary _ _ _ _); [|apply IH].
    destruct (_ >? _); [discriminate|]. intros Hfold.
    apply IH in Hfold. intros d Hd. apply Hfold, in_or_app. now left.
Qed.

Lemma decoFold_pushes (state : EditorState) (conf : HighlightOptions)
    (range : SelectionRange.t) (check : option (str -> CharCategory))
    (ms : list SearchResult) (deco deco' : list Decoration.range) (m : SearchResult) :
  In m ms -> passesBoundary state check (from m) (to m) = true ->
  decoFold state conf range check ms deco = Some deco' ->
  incl (decorationFor range check (from m) (to m)) deco'.
Proof.
  revert deco; induction ms as [|m' ms IH]; intros deco; [intros []|].
  intros [->|Hin] Hpass; cbn [decoFold].
  - rewrite Hpass. destruct (_ >? _); [discriminate|]. intros Hfold.
    apply decoFold_incl in Hfold. intros d Hd. apply Hfold, in_or_app. now right.
  - destruct (passesBoundary state check (from m') (to m')); [|now apply IH].
    destruct (_ >? _); [discriminate|]. now apply IH.
Qed.

Lemma partsFold_incl (state : EditorState) (conf : HighlightOptions)
    (range : SelectionRange.t) (check : option (str -> CharCategory)) (query : str)
    (parts : list (Z * Z)) (deco : list Decoration.range) :
  partsFold state conf range check query parts deco <> [] ->
  incl deco (partsFold state conf range check query parts deco).
Proof.
  revert deco; induction parts as [|part parts IH]; intros deco; [intros _; apply incl_refl|].
  cbn [partsFold].
  destruct (decoFold _ _ _ _ _ _) as [deco'|] eqn:Hfold; [|intros Hne; now elim Hne].
  intros Hne. apply decoFold_incl in Hfold. apply IH in Hne.
  intros d Hd. now apply Hne, Hfold.
Qed.

Lemma partsFold_pushes (state : EditorState) (conf : HighlightOptions)
    (range : SelectionRange.t) (check : option (str -> CharCategory)) (query : str)
    (parts : list (Z * Z)) (deco : list Decoration.range) (part : Z * Z) (p : Z) :
  In part parts ->
  occursWithin (doc state) (fun c => c) query (fst part) (snd part) p ->
  passesBoundary state check p (p + length query) = true ->
  partsFold state conf range check query parts deco <> [] ->
  incl (decorationFor range check p (p + length query))
       (partsFold state conf range check query parts deco).
Proof.
  revert deco; induction parts as [|part' parts IH]; intros deco; [intros []|].
  intros Hin Hocc Hpass. cbn [partsFold].
  destruct (decoFold _ _ _ _ _ _) as [deco'|] eqn:Hfold; [|intros Hne; now elim Hne].
  intros Hne. destruct Hin as [->|Hin].
  - apply (decoFold_pushes _ _ _ _ _ _ _ (resultAt query p)) in Hfold.
    + apply partsFold_incl in Hne. intros d Hd. now apply Hne, Hfold.
    + apply in_map. now apply In_occurrencesIn.
    + exact Hpass.
  - now apply IH.
Qed.

Lemma decorationFor_In (range : SelectionRange.t) (check : option (str -> CharCategory))
    (from to : Z) (d : Decoration.range) :
  In d (decorationFor range check from to) ->
  Decoration.from d = from /\ Decoration.to d = to /\
  ((Decoration.value d = mainMatchDeco /\ check <> None /\
    from <= SelectionRange.from range /\ SelectionRange.to range <= to)
   \/ (Decoration.value d = matchDeco /\
       (SelectionRange.to range <= from \/ to <= SelectionRange.from range))).
Proof.
  unfold decorationFor.
  destruct (_ && _ && _) eqn:Hmain.
  - intros [<-|[]]. cbn. repeat split. left.
    apply andb_true_iff in Hmain as [Hmain Hto].
    apply andb_true_iff in Hmain as [Hcheck Hfrom].
    repeat split; [now destruct check|lia|lia].
  - destruct (_ || _) eqn:Hout; [|intros []].
    intros [<-|[]]. cbn. repeat split. right. split; [reflexivity|].
    apply orb_true_iff in Hout. lia.
Qed.

Lemma occurrence_insideWord (check : str -> CharCategory) (state : EditorState)
    (wf wt p : Z) :
  0 <= wf -> wf < wt -> wt <= length (doc state) ->
  occursAt (doc state) (fun c => c) (sliceDoc state wf wt) p ->
  insideWord check state p (p + length (sliceDoc state wf wt))
  = insideWord check state wf wt.
Proof.
  intros H0 Hlt Hlen (Hp & Hend & Heq). unfold sliceDoc in *.
  rewrite !map_id in Heq. rewrite length_slice in * by lia.
  unfold insideWord, sliceDoc. f_equal; do 2 f_equal.
  - rewrite <- (firstn_slice (doc state) p (p + (wt - wf)) 1) by lia.
    rewrite <- (firstn_slice (doc state) wf wt 1) by lia. now rewrite Heq.
  - replace (p + (wt - wf) - 1) with (p + (wt - wf - 1)) by lia.
    replace (wt - 1) with (wf + (wt - wf - 1)) at 1 by lia.
    rewrite <- (skipn_slice (doc state) p (p + (wt - wf)) (wt - wf - 1)) by lia.
    rewrite <- (skipn_slice (doc state) wf wt (wt - wf - 1)) by lia. now rewrite Heq.
Qed.

Lemma getDeco_word_mode {H : EditorHost} (view : EditorView)
    (word : SelectionRange.t) (deco : list Decoration.range) (d : Decoration.range) :
  SelectionRange.empty (EditorSelection.main (selection (state view))) = true ->
  highlightWordAroundCursor (highlightConfig (config view)) = true ->
  wordAt (state view)
         (SelectionRange.head (EditorSelection.main (selection (state view))))
  = Some word ->
  0 <= SelectionRange.from word ->
  SelectionRange.from word < SelectionRange.to word ->
  SelectionRange.to word <= length (doc (state view)) ->
  insideWord
    (charCategorizer (state view)
       (SelectionRange.head (EditorSelection.main (selection (state view)))))
    (state view) (SelectionRange.from word) (SelectionRange.to word) = true ->
  getDeco view = Ok deco ->
  In d deco ->
  let check :=
    charCategorizer (state view)
      (SelectionRange.head (EditorSelection.main (selection (state view)))) in
  isWholeWord check (state view) (Decoration.from d) (Decoration.to d) = true
  /\ sliceDoc (state view) (Decoration.from d) (Decoration.to d)
     = sliceDoc (state view) (SelectionRange.from word) (SelectionRange.to word)
  /\ (Decoration.from d = 0
      \/ ~ wordCharAt check (doc (state view)) (Decoration.from d - 1))
  /\ (Decoration.to d = length (doc (state view))
      \/ ~ wordCharAt check (doc (state view)) (Decoration.to d)).
Proof.
  intros Hempty Hopt Hword H0 Hlt Hlen Hinside Hdeco Hd check.
  unfold getDeco in Hdeco. cbv zeta in Hdeco.
  destruct (_ <? _)%nat; [injection Hdeco as <-; destruct Hd|].
  rewrite Hempty, Hopt, Hword in Hdeco. cbn [negb] in Hdeco.
  rewrite getDeco_parts_spec in Hdeco. injection Hdeco as <-. fold check in Hd.
  apply partsFold_In in Hd as [[]|(part & p & _ & Hocc & Hpass & Hin)].
  apply decorationFor_In in Hin as (-> & -> & _).
  destruct Hocc as (_ & _ & Hocc). pose proof Hocc as (Hp & Hend & Heq).
  cbn [passesBoundary] in Hpass.
  assert (Hn : length (sliceDoc (state view) (SelectionRange.from word)
                                (SelectionRange.to word))
               = SelectionRange.to word - SelectionRange.from word)
    by (apply length_slice; lia).
  split; [|split].
  - unfold isWholeWord. rewrite Hpass. cbn [andb].
    rewrite occurrence_insideWord by assumption. fold check in Hinside. exact Hinside.
  - rewrite map_id in Heq. rewrite map_id in Heq. exact Heq.
  - apply insideWordBoundaries_iff in Hpass; [exact Hpass|lia|lia|lia].
Qed.

Lemma getDeco_modes {H : EditorHost} (view : EditorView)
    (deco : list Decoration.range) :
  getDeco view = Ok deco ->
  (forall word part,
      SelectionRange.empty (EditorSelection.main (selection (state view))) = true ->
      wordAt (state view)
             (SelectionRange.head (EditorSelection.main (selection (state view))))
      = Some word ->
      0 <= SelectionRange.from word ->
      SelectionRange.to word <= length (doc (state view)) ->
      SelectionRange.from word
        <= SelectionRange.head (EditorSelection.main (selection (state view)))
        <= SelectionRange.to word ->
      insideWordBoundaries
        (charCategorizer (state view)
           (SelectionRange.head (EditorSelection.main (selection (state view)))))
        (state view) (SelectionRange.from word) (SelectionRange.to word) = true ->
      In part (visibleRanges view) ->
      fst part <= SelectionRange.from word -> SelectionRange.to word <= snd part ->
      deco <> [] ->
      In (Decoration.mkRange (SelectionRange.from word) (SelectionRange.to word)
                             mainMatchDeco) deco)
  /\ (SelectionRange.empty (EditorSelection.main (selection (state view))) = false ->
      forall d, In d deco ->
        Decoration.value d = matchDeco /\
        (SelectionRange.to (EditorSelection.main (selection (state view)))
           <= Decoration.from d
         \/ Decoration.to d
            <= SelectionRange.from (EditorSelection.main (selection (state view)))))
  /\ mainMatchDeco <> matchDeco.
Proof.
  intros Hdeco. unfold getDeco in Hdeco. cbv zeta in Hdeco.
  set (range := EditorSelection.main (selection (state view))) in *.
  split; [|split; [|discriminate]].
  - intros word part Hempty Hword H0 Hlen Hhead Hbound Hpart Hfst Hsnd Hne.
    destruct (_ <? _)%nat; [injection Hdeco as <-; now elim Hne|].
    rewrite Hempty, Hword in Hdeco.
    destruct (negb _); [injection Hdeco as <-; now elim Hne|].
    rewrite getDeco_parts_spec in Hdeco. injection Hdeco as <-.
    set (query := sliceDoc (state view) (SelectionRange.from word)
                           (SelectionRange.to word)) in *.
    assert (Hn : length query = SelectionRange.to word - SelectionRange.from word).
    { apply length_slice; [lia| |lia].
      unfold SelectionRange.from, SelectionRange.to. lia. }
    pose proof (partsFold_pushes (state view) (highlightConfig (config view)) range
                  (Some (charCategorizer (state view) (SelectionRange.head range)))
                  query (visibleRanges view) [] part (SelectionRange.from word)
                  Hpart) as Hpush.
    rewrite Hn in Hpush.
    replace (SelectionRange.from word + (SelectionRange.to word - SelectionRange.from word))
      with (SelectionRange.to word) in Hpush by lia.
    apply Hpush; [| exact Hbound | exact Hne |].
    + split; [lia|]. split; [lia|]. split; [lia|]. split; [lia|].
      rewrite Hn. unfold query, sliceDoc. do 2 f_equal. lia.
    + unfold decorationFor.
      apply Z.eqb_eq in Hempty.
      assert (Hanchor : SelectionRange.from range = SelectionRange.head range
                        /\ SelectionRange.to range = SelectionRange.head range)
        by (unfold SelectionRange.from, SelectionRange.to in *; lia).
      destruct Hanchor as [-> ->]. cbn [andb].
      destruct (Z.leb_spec (SelectionRange.from word) (SelectionRange.head range)); [|lia].
      destruct (Z.geb_spec (SelectionRange.to word) (SelectionRange.head range)); [|lia].
      now left.
  - intros Hempty d Hd.
    destruct (_ <? _)%nat; [injection Hdeco as <-; destruct Hd|].
    rewrite Hempty in Hdeco.
    destruct (_ || _); [injection Hdeco as <-; destruct Hd|].
    destruct (trim _) as [|c query]; [injection Hdeco as <-; destruct Hd|].
    rewrite getDeco_parts_spec in Hdeco. injection Hdeco as <-.
    apply partsFold_In in Hd as [[]|(part & p & _ & _ & _ & Hin)].
    apply decorationFor_In in Hin as (-> & -> & [(_ & Hcheck & _)|Hmatch]).
    + now elim Hcheck.
    + exact Hmatch.
Qed.

Lemma getDeco_total {H : EditorHost} (view : EditorView) :
  exists deco, getDeco view = Ok deco.
Proof.
  unfold getDeco. cbv zeta.
  destruct (_ <? _)%nat; [now eexists|].
  destruct (SelectionRange.empty _).
  - destruct (negb _); [now eexists|].
    destruct (wordAt _ _); [|now eexists].
    rewrite getDeco_parts_spec. now eexists.
  - destruct (_ || _); [now eexists|].
    destruct (trim _); [now eexists|].
    rewrite getDeco_parts_spec. now eexists.
Qed.

(** C7.  In word-under-cursor mode (the option is on, the selection is one
    empty cursor, and the host finds a word around it whose first and last
    characters it classifies as word characters), every range the
    highlighter decorates holds the text of the word and passes the
    whole-word test: its first and last characters are word characters and
    the characters just outside it are not, so it is no part of a longer
    word. *)
Theorem getDeco_whole_words {H : EditorHost} (view : EditorView)
    (word : SelectionRange.t) :
  SelectionRange.empty (EditorSelection.main (selection (state view))) = true ->
  highlightWordAroundCursor (highlightConfig (config view)) = true ->
  wordAt (state view)
         (SelectionRange.head (EditorSelection.main (selection (state view))))
  = Some word ->
  0 <= SelectionRange.from word ->
  SelectionRange.from word < SelectionRange.to word ->
  SelectionRange.to word <= length (doc (state view)) ->
  insideWord
    (charCategorizer (state view)
       (SelectionRange.head (EditorSelection.main (selection (state view)))))
    (state view) (SelectionRange.from word) (SelectionRange.to word) = true ->
  exists deco,
    getDeco view = Ok deco /\
    forall d, In d deco ->
      let check :=
        charCategorizer (state view)
          (SelectionRange.head (EditorSelection.main (selection (state view)))) in
      isWholeWord check (state view) (Decoration.from d) (Decoration.to d) = true
      /\ sliceDoc (state view) (Decoration.from d) (Decoration.to d)
         = sliceDoc (state view) (SelectionRange.from word) (SelectionRange.to word)
      /\ (Decoration.from d = 0
          \/ ~ wordCharAt check (doc (state view)) (Decoration.from d - 1))
      /\ (Decoration.to d = length (doc (state view))
          \/ ~ wordCharAt check (doc (state view)) (Decoration.to d)).
Proof.
  intros Hempty Hopt Hword H0 Hlt Hlen Hinside.
  destruct (getDeco_total view) as [deco Hdeco]. exists deco. split; [exact Hdeco|].
  intros d Hd. now apply (getDeco_word_mode view word deco d).
Qed.

(** C8, as amended.  In word-under-cursor mode, when the word the host
    finds around the cursor has no word character just outside it and lies
    within a visible range, a non-empty decoration set holds the range of
    that word tagged with [mainMatchDeco].  With a non-empty selection
    every decoration carries [matchDeco] and lies outside the selection, so
    nothing is tagged as the main match and the range of the selection
    itself is not decorated.  The two tags differ. *)
Theorem getDeco_main_match {H : EditorHost} (view : EditorView) :
  exists deco,
    getDeco view = Ok deco
    /\ (forall word part,
          SelectionRange.empty (EditorSelection.main (selection (state view))) = true ->
          wordAt (state view)
                 (SelectionRange.head (EditorSelection.main (selection (state view))))
          = Some word ->
          0 <= SelectionRange.from word ->
          SelectionRange.to word <= length (doc (state view)) ->
          SelectionRange.from word
            <= SelectionRange.head (EditorSelection.main (selection (state view)))
            <= SelectionRange.to word ->
          insideWordBoundaries
            (charCategorizer (state view)
               (SelectionRange.head (EditorSelection.main (selection (state view)))))
            (state view) (SelectionRange.from word) (SelectionRange.to word) = true ->
          In part (visibleRanges view) ->
          fst part <= SelectionRange.from word -> SelectionRange.to word <= snd part ->
          deco <> [] ->
          In (Decoration.mkRange (SelectionRange.from word) (SelectionRange.to word)
                                 mainMatchDeco) deco)
    /\ (SelectionRange.empty (EditorSelection.main (selection (state view))) = false ->
        forall d, In d deco ->
          Decoration.value d = matchDeco /\
          (SelectionRange.to (EditorSelection.main (selection (state view)))
             <= Decoration.from d
           \/ Decoration.to d
              <= SelectionRange.from (EditorSelection.main (selection (state view)))))
    /\ mainMatchDeco <> matchDeco.
Proof.
  destruct (getDeco_total view) as [deco Hdeco]. exists deco. split; [exact Hdeco|].
  now apply getDeco_modes.
Qed.

(** C8, counterexample.  In [ab ab] with the first [ab] selected, the
    highlighter decorates the second [ab] only: the set is not empty, and
    the range of the selection is not in it. *)
Lemma getDeco_selection_not_decorated :
  ~ selectionIsMainMatch (H := plainHost) firstSelected.
Proof.
  intros Hclaim.
  specialize (Hclaim [Decoration.mkRange 3 5 matchDeco] Logic.eq_refl).
  destruct Hclaim as [Heq|[]]; [discriminate|discriminate Heq].
Qed.

(** ** The example engine, and the theorems at concrete inputs *)

Lemma plainEngine_laws : EngineLaws plainEngine.
Proof.
  intros pattern ic subject lastIndex index groups. cbn [regexpExec plainEngine].
  unfold plainExec.
  destruct (SearchCursor.scan _ _ _ _ _) as [p|] eqn:Hscan; [|discriminate].
  intros [= <- <-]. apply scan_Some in Hscan as (Hrange & _ & _).
  pose proof (length_nonneg pattern) as Hn.
  split; [lia|]. eexists _, []. split; [reflexivity|].
  pose proof (length_slice_le subject p (p + length pattern)). lia.
Qed.

(** C4 at the template [$1$&]: a literal query answers the template for the
    result of a literal cursor, which holds no groups, and a regex query
    expands it for a match [abc] with one group [b]. *)
Lemma getReplacement_expands_witness :
  match_ (resultAt (lit "abc") 0) = None
  /\ getReplacement (StringQuery (lit "abc") (lit "$1$&") false) (resultAt (lit "abc") 0)
     = lit "$1$&"
  /\ match_ (mkResult 0 3 (Some [lit "abc"; lit "b"])) = Some [lit "abc"; lit "b"]
  /\ getReplacement (RegExpQuery (lit "a(b)c") (lit "$1$&") false)
                    (mkResult 0 3 (Some [lit "abc"; lit "b"]))
     = lit "babc".
Proof.
  split; [reflexivity|].
  split; [exact (proj1 (getReplacement_expands (lit "abc") (lit "$1$&") false
                          (resultAt (lit "abc") 0)))|].
  split; [reflexivity|].
  destruct (proj2 (getReplacement_expands (lit "a(b)c") [] false
                     (mkResult 0 3 (Some [lit "abc"; lit "b"])))
              [lit "abc"; lit "b"] Logic.eq_refl) as (Hnil & _ & Hwhole & Hgroup & _).
  change (lit "$1$&") with ("$"%char :: digitChar 1 :: lit "$&").
  rewrite (Hgroup 1%nat (lit "$&")) by (cbn; lia).
  change (lit "$&") with ("$"%char :: "&"%char :: []).
  rewrite (Hwhole []), Hnil. reflexivity.
Defined.

(** C9 at [ab cab], replacing [ab] by [X]. *)
Lemma replaceAll_changes_witness :
  replaceAll (E := plainEngine) searchingAb
  = Ok (Returned
          (Some (mkTransaction [ChangeSpec.mk 0 2 (lit "X"); ChangeSpec.mk 4 6 (lit "X")]
                               None false))
          true).
Proof.
  refine (proj2 (replaceAll_changes plainEngine_laws searchingAb
                   (mkSearchState (StringQuery (lit "ab") (lit "X") false) true)
                   Logic.eq_refl Logic.eq_refl _)).
  vm_compute. discriminate.
Defined.


(** C7 at [cat category cat] with the cursor in the first [cat]. *)
Lemma getDeco_whole_words_witness :
  exists deco,
    getDeco (H := plainHost) cursorInCat = Ok deco /\
    forall d, In d deco ->
      isWholeWord categorize (state cursorInCat) (Decoration.from d) (Decoration.to d)
      = true.
Proof.
  destruct (getDeco_whole_words (H := plainHost) cursorInCat (SelectionRange.range 0 3)
              Logic.eq_refl Logic.eq_refl Logic.eq_refl)
    as (deco & Hdeco & Hall).
  - cbn; lia.
  - cbn; lia.
  - cbn; lia.
  - reflexivity.
  - exists deco. split; [exact Hdeco|]. intros d Hd. exact (proj1 (Hall d Hd)).
Defined.

(** C8 at [cat category cat] with the cursor in the first [cat]: the word
    under the cursor is the main match. *)
Lemma getDeco_main_match_witness :
  exists deco,
    getDeco (H := plainHost) cursorInCat = Ok deco /\
    In (Decoration.mkRange 0 3 mainMatchDeco) deco.
Proof.
  destruct (getDeco_main_match (H := plainHost) cursorInCat)
    as (deco & Hdeco & Hword & _).
  exists deco. split; [exact Hdeco|].
  refine (Hword (SelectionRange.range 0 3) (0, 16)
                Logic.eq_refl Logic.eq_refl _ _ _ Logic.eq_refl _ _ _ _).
  - cbn; lia.
  - cbn; lia.
  - cbn; lia.
  - now left.
  - cbn; lia.
  - cbn; lia.
  - intros ->. vm_compute in Hdeco. discriminate Hdeco.
Defined.

(** ** The matches a literal [matchAll] enumerates *)

Lemma Zseq_sorted (n : nat) (a : Z) : StronglySorted Z.lt (Zseq a n).
Proof.
  revert a; induction n as [|n IH]; intros a; cbn [Zseq]; constructor.
  - apply IH.
  - apply Forall_forall. intros p Hp. apply In_Zseq in Hp. lia.
Qed.

Lemma filter_sorted (f : Z -> bool) (l : list Z) :
  StronglySorted Z.lt l -> StronglySorted Z.lt (filter f l).
Proof.
  induction 1 as [|x l Hs IH Hall]; cbn [filter]; [constructor|].
  destruct (f x); [|exact IH]. constructor; [exact IH|].
  apply Forall_forall. intros y Hy. apply filter_In in Hy as [Hy _].
  rewrite Forall_forall in Hall. now apply Hall.
Qed.

Lemma occurrencesIn_sorted (doc : Text) (norm : ascii -> ascii) (needle : str) (a b : Z) :
  StronglySorted Z.lt (occurrencesIn doc norm needle a b).
Proof. unfold occurrencesIn, occurrences. apply filter_sorted, Zseq_sorted. Qed.

Lemma thin_In (n B : Z) (ps : list Z) (p : Z) :
  0 <= n -> StronglySorted Z.lt ps -> In p (thin n B ps) -> In p ps /\ B <= p.
Proof.
  intros Hn Hs. revert B; induction Hs as [|q ps Hs IH Hall]; intros B; cbn [thin];
    [intros []|].
  destruct (Z.ltb_spec q B) as [Hlt|Hge].
  - intros Hp. apply IH in Hp as [Hin HB]. split; [now right|exact HB].
  - intros [<-|Hp]; [split; [now left|exact Hge]|].
    apply IH in Hp as [Hin HB]. split; [now right|lia].
Qed.

Lemma thin_apart (n B : Z) (ps : list Z) :
  0 <= n -> StronglySorted Z.lt ps -> StronglySorted (apart n) (thin n B ps).
Proof.
  intros Hn Hs. revert B; induction Hs as [|q ps Hs IH Hall]; intros B; cbn [thin];
    [constructor|].
  destruct (Z.ltb_spec q B) as [Hlt|Hge]; [apply IH|].
  constructor; [apply IH|].
  apply Forall_forall. intros p Hp. apply thin_In in Hp as [Hin Hq]; try assumption.
  rewrite Forall_forall in Hall. split; [now apply Hall|exact Hq].
Qed.

Lemma thin_complete (n B : Z) (ps : list Z) (p : Z) :
  0 <= n -> StronglySorted Z.lt ps -> In p ps -> B <= p ->
  In p (thin n B ps) \/ exists p0, In p0 (thin n B ps) /\ p0 < p < p0 + n.
Proof.
  intros Hn Hs. revert B; induction Hs as [|q ps Hs IH Hall]; intros B; [intros []|].
  rewrite Forall_forall in Hall. cbn [thin].
  destruct (Z.ltb_spec q B) as [Hlt|Hge].
  - intros [->|Hin] HB; [lia|]. now apply IH.
  - intros [->|Hin] HB; [left; now left|].
    specialize (Hall _ Hin).
    destruct (Z.le_gt_cases (q + n) p) as [Hfar|Hnear].
    + destruct (IH (q + n) Hin Hfar) as [Hp|(p0 & Hp0 & Hbetween)].
      * left. now right.
      * right. exists p0. split; [now right|exact Hbetween].
    + right. exists q. split; [now left|lia].
Qed.

(** The literal half of C3.  For a literal query and a limit that is not
    negative, [matchAll] answers [null] when the non-overlapping occurrences
    of the needle number more than [limit], and otherwise all of them in
    document order.  Each of them is an occurrence of the needle in the
    document; each starts at or after the end of the one before; and every
    occurrence of the needle in the document is one of them or starts
    inside one of them. *)
Theorem StringQuery_matchAll_nonOverlapping {E : RegExpEngine}
    (needle replacement : str) (ci : bool) (doc : Text) (limit : Z) :
  (0 <= limit ->
   matchAll (StringQuery needle replacement ci) doc limit
   = Ok (if Z.of_nat (List.length (nonOverlappingIn doc (foldOf ci) needle 0 (length doc)))
            >? limit
         then None
         else Some (map (resultAt needle)
                        (nonOverlappingIn doc (foldOf ci) needle 0 (length doc)))))
  /\ (forall p, In p (nonOverlappingIn doc (foldOf ci) needle 0 (length doc)) ->
                occursWithin doc (foldOf ci) needle 0 (length doc) p)
  /\ StronglySorted (apart (length needle))
                    (nonOverlappingIn doc (foldOf ci) needle 0 (length doc))
  /\ (forall p, occursWithin doc (foldOf ci) needle 0 (length doc) p ->
        In p (nonOverlappingIn doc (foldOf ci) needle 0 (length doc))
        \/ exists p0, In p0 (nonOverlappingIn doc (foldOf ci) needle 0 (length doc))
                      /\ p0 < p < p0 + length needle).
Proof.
  pose proof (length_nonneg needle) as Hn.
  pose proof (occurrencesIn_sorted doc (foldOf ci) needle 0 (length doc)) as Hs.
  split; [|split; [|split]].
  - intros Hlimit. cbn [matchAll]. rewrite StringQuery_matchAll_spec.
    cbn [search caseInsensitive]. unfold collect.
    destruct (nonOverlappingIn doc (foldOf ci) needle 0 (length doc)) as [|p ps].
    + cbn. destruct (Z.gtb_spec 0 limit); [lia|reflexivity].
    + cbn [map List.length Nat.add app]. rewrite List.length_map. reflexivity.
  - intros p Hp. apply thin_In in Hp as [Hin _]; try assumption.
    now apply In_occurrencesIn.
  - now apply thin_apart.
  - intros p Hp. unfold nonOverlappingIn.
    apply thin_complete; try assumption.
    + now apply In_occurrencesIn.
    + destruct Hp as (_ & _ & H0 & _). lia.
Qed.

(** A regex query has no backward search: [prevMatch] answers [null]. *)
Theorem RegExpQuery_prevMatch_null (search replacement : str)
    (ci : bool) (doc : Text) (curFrom curTo : Z) :
  prevMatch (RegExpQuery search replacement ci) doc curFrom curTo = Ok None.
Proof. reflexivity. Qed.

(** Two queries are equal for [eq] exactly when their search text, their
    replace text, their case flag and their variant are the same. *)
Theorem Query_eq_iff (this other : Query) : Query_eq this other = true <-> this = other.
Proof.
  unfold Query_eq. rewrite !andb_true_iff, !str_eqb_eq, Bool.eqb_true_iff.
  destruct this as [s r c|s r c], other as [s' r' c'|s' r' c']; cbn; split;
    try (intros (((-> & ->) & ->) & _); reflexivity);
    try (intros (_ & Hv); discriminate Hv);
    try (intros [= -> -> ->]; auto);
    try discriminate.
Qed.

(** ** Examples *)

(** A literal search folds case when asked to. *)
Example matchAll_folds_case :
  matchAll (E := plainEngine) (StringQuery (lit "abC") [] true) (lit "aBc flakdj aABC") 1000
  = Ok (Some [mkResult 0 3 None; mkResult 12 15 None]).
Proof. vm_compute. reflexivity. Qed.

(** Of the three occurrences of [aba] in [abababa.], [matchAll] keeps the two
    that do not overlap. *)
Example matchAll_skips_overlapping :
  occurrencesIn (lit "abababa.") (fun c => c) (lit "aba") 0 8 = [0; 2; 4]
  /\ matchAll (E := plainEngine) (StringQuery (lit "aba") [] false) (lit "abababa.") 1000
     = Ok (Some [mkResult 0 3 None; mkResult 4 7 None]).
Proof. split; vm_compute; reflexivity. Qed.

(** [matchAll] answers [null] rather than a shorter list. *)
Example matchAll_over_limit :
  matchAll (E := plainEngine) (StringQuery (lit "a") [] false) (lit "aaa") 2 = Ok None.
Proof. vm_compute. reflexivity. Qed.

(** Backward search finds the nearest match before the selection, and wraps
    to the end of the document when there is none. *)
Example prevMatch_nearest_then_wraps :
  prevMatch (StringQuery (lit "ab") [] false) (lit "ab ab ab") 6 8
  = Ok (Some (mkResult 3 5 None))
  /\ prevMatch (StringQuery (lit "ab") [] false) (lit "ab ab ab") 0 2
     = Ok (Some (mkResult 6 8 None)).
Proof. split; vm_compute; reflexivity. Qed.

(** In [cat category cat], [cat] is a whole word at 0 and at 13, not at 4. *)
Example isWholeWord_cat :
  let state := mkState (lit "cat category cat") (EditorSelection.create [] 0) in
  isWholeWord categorize state 0 3 = true
  /\ isWholeWord categorize state 4 7 = false
  /\ isWholeWord categorize state 13 16 = true.
Proof. vm_compute. auto. Qed.

(** With the cursor in the first [cat], the highlighter marks that word as
    the main match and the last [cat] as a match, and leaves [category]
    alone. *)
Example getDeco_cat :
  getDeco (H := plainHost) cursorInCat
  = Ok [Decoration.mkRange 0 3 mainMatchDeco; Decoration.mkRange 13 16 matchDeco].
Proof. vm_compute. reflexivity. Qed.

(** Going back from offset 25000 for a needle of three characters, the
    windows are 10003 characters long, overlap by three, and end at the
    start of the document. *)
Example chunksOf_25000 :
  chunksOf 0 25000 3 = [(14997, 25000); (4997, 15000); (0, 5000)].
Proof. vm_compute. reflexivity. Qed.

(** * Further properties *)

(** ** The non-overlapping occurrences of a range *)

Lemma nonOverlappingIn_spec (doc : Text) (norm : ascii -> ascii) (needle : str) (a b : Z) :
  (forall p, In p (nonOverlappingIn doc norm needle a b) ->
             occursWithin doc norm needle a b p)
  /\ StronglySorted (apart (length needle)) (nonOverlappingIn doc norm needle a b)
  /\ (forall p, occursWithin doc norm needle a b p ->
        In p (nonOverlappingIn doc norm needle a b)
        \/ exists p0, In p0 (nonOverlappingIn doc norm needle a b)
                      /\ p0 < p < p0 + length needle).
Proof.
  pose proof (length_nonneg needle) as Hn.
  pose proof (occurrencesIn_sorted doc norm needle a b) as Hs.
  unfold nonOverlappingIn. split; [|split].
  - intros p Hp. apply thin_In in Hp as [Hin _]; try assumption.
    now apply In_occurrencesIn.
  - now apply thin_apart.
  - intros p Hp. apply thin_complete; try assumption.
    + now apply In_occurrencesIn.
    + destruct Hp as (Ha & _ & H0 & _). lia.
Qed.

(** ** [highlight] *)

Lemma StringQuery_highlight_loop_spec {B : Type} (gas : nat) (c : SearchCursor.t)
    (add : Z -> Z -> B -> B) (acc : B) :
  (SearchCursor.budget c <= gas)%nat ->
  StringQuery.highlight_loop gas c add acc
  = Ok (fold_left (fun acc m => add (from m) (to m) acc) (nonOverlappingFrom c) acc).
Proof.
  revert c acc; induction gas as [|gas IH]; intros c acc Hgas.
  - unfold SearchCursor.budget in Hgas. lia.
  - cbn [StringQuery.highlight_loop]. rewrite (nonOverlapping_step c).
    destruct (SearchCursor.done (SearchCursor.next c)) eqn:Hd; [reflexivity|].
    pose proof (next_budget c Hd). cbn [fold_left]. apply IH. lia.
Qed.

Lemma fold_left_map {A B C : Type} (f : C -> B -> C) (g : A -> B) (l : list A) (acc : C) :
  fold_left f (map g l) acc = fold_left (fun acc x => f acc (g x)) l acc.
Proof. revert acc; induction l as [|x l IH]; intros acc; [reflexivity|]. apply IH. Qed.

Lemma StringQuery_highlight_spec {B : Type} (this : Query) (doc : Text) (from_ to_ : Z)
    (add : Z -> Z -> B -> B) (acc : B) :
  StringQuery.highlight this doc from_ to_ add acc
  = Ok (fold_left (fun acc p => add p (p + length (search this)) acc)
          (nonOverlappingIn doc (foldOf (caseInsensitive this)) (search this)
             (Z.max 0 (from_ - length (search this)))
             (Z.min (to_ + length (search this)) (length doc)))
          acc).
Proof.
  unfold StringQuery.highlight. cbv zeta.
  rewrite StringQuery_highlight_loop_spec by lia.
  rewrite cursor_nonOverlapping, fold_left_map. reflexivity.
Qed.

(** For a literal query, [highlight] calls [add] once for each
    non-overlapping occurrence of the needle inside the window
    [[max(0, from - |needle|), min(to + |needle|, doc.length))], in document
    order.  No occurrence that touches [[from, to)] is cut off by the
    window: each one is passed to [add] or starts inside one that is. *)
Theorem StringQuery_highlight_window {E : RegExpEngine} {B : Type}
    (needle replacement : str) (ci : bool) (doc : Text) (from_ to_ : Z)
    (add : Z -> Z -> B -> B) (acc : B) :
  highlight (StringQuery needle replacement ci) doc from_ to_ add acc
  = Ok (fold_left (fun acc p => add p (p + length needle) acc)
          (nonOverlappingIn doc (foldOf ci) needle
             (Z.max 0 (from_ - length needle)) (Z.min (to_ + length needle) (length doc)))
          acc)
  /\ StronglySorted (apart (length needle))
       (nonOverlappingIn doc (foldOf ci) needle
          (Z.max 0 (from_ - length needle)) (Z.min (to_ + length needle) (length doc)))
  /\ (forall p, In p (nonOverlappingIn doc (foldOf ci) needle
                        (Z.max 0 (from_ - length needle))
                        (Z.min (to_ + length needle) (length doc))) ->
                occursAt doc (foldOf ci) needle p)
  /\ (forall p, occursAt doc (foldOf ci) needle p -> p < to_ -> from_ < p + length needle ->
        In p (nonOverlappingIn doc (foldOf ci) needle
                (Z.max 0 (from_ - length needle))
                (Z.min (to_ + length needle) (length doc)))
        \/ exists p0,
             In p0 (nonOverlappingIn doc (foldOf ci) needle
                      (Z.max 0 (from_ - length needle))
                      (Z.min (to_ + length needle) (length doc)))
             /\ p0 < p < p0 + length needle).
Proof.
  destruct (nonOverlappingIn_spec doc (foldOf ci) needle
              (Z.max 0 (from_ - length needle))
              (Z.min (to_ + length needle) (length doc))) as (Hocc & Hsorted & Hcomplete).
  split; [|split; [exact Hsorted|split]].
  - cbn [highlight]. now rewrite StringQuery_highlight_spec.
  - intros p Hp. now destruct (Hocc p Hp) as (_ & _ & Hat).
  - intros p Hat Hto Hfrom. apply Hcomplete.
    pose proof Hat as (H0 & Hlen & _). split; [lia|]. split; [lia|exact Hat].
Qed.

Lemma RegExpCursor_step_spec {E : RegExpEngine} (laws : EngineLaws E) (c : RegExpCursor.t) :
  RegExpCursor.done (RegExpCursor.nextOverlapping c) = false ->
  RegExpCursor.bufferStart (RegExpCursor.nextOverlapping c) = RegExpCursor.bufferStart c
  /\ RegExpCursor.buffer (RegExpCursor.nextOverlapping c) = RegExpCursor.buffer c
  /\ RegExpCursor.pos (RegExpCursor.nextOverlapping c)
     = from (RegExpCursor.value (RegExpCursor.nextOverlapping c)) + 1
  /\ inside (RegExpCursor.pos c)
            (RegExpCursor.bufferStart c + length (RegExpCursor.buffer c))
            (RegExpCursor.value (RegExpCursor.nextOverlapping c)).
Proof.
  unfold RegExpCursor.nextOverlapping, RegExpCursor.seek.
  destruct (RegExpCursor.done c) eqn:Hd; [congruence|].
  destruct (regexpExec _ _ _ _) as [[index groups]|] eqn:Hexec; [|discriminate].
  intros _. apply laws in Hexec as (Hlo & whole & rest & -> & Hhi).
  unfold inside. cbn. pose proof (length_nonneg whole). repeat split; lia.
Qed.

Lemma regexpStream_spec {E : RegExpEngine} (laws : EngineLaws E) (gas : nat)
    (c : RegExpCursor.t) :
  Forall (inside (RegExpCursor.pos c)
                 (RegExpCursor.bufferStart c + length (RegExpCursor.buffer c)))
         (regexpStream gas c)
  /\ StronglySorted startsBefore (regexpStream gas c).
Proof.
  revert c; induction gas as [|gas IH]; intros c; cbn [regexpStream].
  - split; constructor.
  - destruct (RegExpCursor.done (RegExpCursor.nextOverlapping c)) eqn:Hd;
      [split; constructor|].
    destruct (RegExpCursor_step_spec laws c Hd) as (Hstart & Hbuf & Hpos & Hin).
    destruct (IH (RegExpCursor.nextOverlapping c)) as (Hall & Hsorted).
    rewrite Hstart, Hbuf, Hpos in Hall.
    assert (Hrest : Forall (fun m => from (RegExpCursor.value (RegExpCursor.nextOverlapping c))
                                     < from m
                                     /\ inside (RegExpCursor.pos c)
                                          (RegExpCursor.bufferStart c
                                           + length (RegExpCursor.buffer c)) m)
                           (regexpStream gas (RegExpCursor.nextOverlapping c))).
    { eapply Forall_impl; [|exact Hall]. intros m (Ha & Hb & Hc).
      destruct Hin as (Hin & _). unfold inside. lia. }
    split.
    + constructor; [exact Hin|]. eapply Forall_impl; [|exact Hrest]. now intros m [_ Hm].
    + constructor; [exact Hsorted|]. eapply Forall_impl; [|exact Hrest].
      now intros m [Hm _].
Qed.

Lemma RegExpQuery_highlight_loop_spec {E : RegExpEngine} {B : Type} (laws : EngineLaws E)
    (gas : nat) (c : RegExpCursor.t) (add : Z -> Z -> B -> B) (acc : B) :
  (RegExpCursor.budget c <= gas)%nat ->
  RegExpQuery.highlight_loop gas c add acc
  = Ok (fold_left (fun acc m => add (from m) (to m) acc)
                  (regexpStream (RegExpCursor.budget c) c) acc).
Proof.
  revert c acc; induction gas as [|gas IH]; intros c acc Hgas.
  - unfold RegExpCursor.budget in Hgas. lia.
  - rewrite (regexpStream_stable laws (RegExpCursor.budget c) (S gas) c) by lia.
    cbn [RegExpQuery.highlight_loop regexpStream].
    destruct (RegExpCursor.done (RegExpCursor.nextOverlapping c)) eqn:Hd; [reflexivity|].
    pose proof (RegExpCursor_step laws c Hd). cbn [fold_left].
    rewrite IH by lia.
    now rewrite (regexpStream_stable laws gas
                   (RegExpCursor.budget (RegExpCursor.nextOverlapping c))
                   (RegExpCursor.nextOverlapping c)) by lia.
Qed.

(** For a regex query and a range [[from, to)] of the document, [highlight]
    calls [add] on matches that all lie inside the window
    [[max(0, from - 250), min(to + 250, doc.length)]], each starting after
    the one before. *)
Theorem RegExpQuery_highlight_window {E : RegExpEngine} (laws : EngineLaws E)
    (pattern replacement : str) (ci : bool) (doc : Text) (from_ to_ : Z) :
  0 <= from_ -> from_ <= to_ -> to_ <= length doc ->
  exists ms,
    (forall (B : Type) (add : Z -> Z -> B -> B) (acc : B),
        highlight (RegExpQuery pattern replacement ci) doc from_ to_ add acc
        = Ok (fold_left (fun acc m => add (from m) (to m) acc) ms acc))
    /\ Forall (inside (Z.max 0 (from_ - RegExp.HighlightMargin))
                      (Z.min (to_ + RegExp.HighlightMargin) (length doc))) ms
    /\ StronglySorted startsBefore ms.
Proof.
  intros H0 Hle Hlen.
  set (c := RegExpQuery.cursor (RegExpQuery pattern replacement ci) doc
              (Z.max 0 (from_ - RegExp.HighlightMargin))
              (Z.min (to_ + RegExp.HighlightMargin) (length doc))).
  exists (regexpStream (RegExpCursor.budget c) c).
  destruct (regexpStream_spec laws (RegExpCursor.budget c) c) as (Hall & Hsorted).
  split; [|split; [|exact Hsorted]].
  - intros B add acc. cbn [highlight]. unfold RegExpQuery.highlight. cbv zeta. fold c.
    now apply RegExpQuery_highlight_loop_spec.
  - eapply Forall_impl; [|exact Hall]. intros m (Ha & Hb & Hc).
    unfold c, RegExpQuery.cursor, RegExpCursor.create in Ha, Hc. cbn in Ha, Hc.
    unfold RegExp.HighlightMargin in *.
    rewrite length_slice in Hc by lia. unfold inside. lia.
Qed.

(** ** How many matches a document can hold *)

Lemma apart_startsBefore (needle : str) (ps : list Z) :
  StronglySorted (apart (length needle)) ps ->
  StronglySorted startsBefore (map (resultAt needle) ps).
Proof.
  induction 1 as [|p ps Hs IH Hall]; cbn [map]; constructor; [exact IH|].
  apply Forall_forall. intros m Hm. apply in_map_iff in Hm as (p' & <- & Hp').
  rewrite Forall_forall in Hall. now destruct (Hall p' Hp') as [Hlt _].
Qed.

Lemma allMatches_spec {E : RegExpEngine} (laws : EngineLaws E) (q : Query) (doc : Text) :
  Forall (inside 0 (length doc)) (allMatches q doc)
  /\ StronglySorted startsBefore (allMatches q doc).
Proof.
  destruct q as [s r ci|s r ci]; cbn [allMatches].
  - destruct (nonOverlappingIn_spec doc (foldOf ci) s 0 (length doc))
      as (Hocc & Hsorted & _).
    split; [|now apply apart_startsBefore].
    apply Forall_forall. intros m Hm. apply in_map_iff in Hm as (p & <- & Hp).
    destruct (Hocc p Hp) as (Ha & Hb & _). pose proof (length_nonneg s).
    unfold inside. cbn. lia.
  - cbv zeta.
    destruct (regexpStream_spec laws
                (RegExpCursor.budget (RegExpQuery.cursor (RegExpQuery s r ci) doc 0 (length doc)))
                (RegExpQuery.cursor (RegExpQuery s r ci) doc 0 (length doc)))
      as (Hall & Hsorted).
    split; [|exact Hsorted].
    eapply Forall_impl; [|exact Hall]. intros m (Ha & Hb & Hc).
    unfold RegExpQuery.cursor, RegExpCursor.create in Ha, Hc. cbn in Ha, Hc.
    pose proof (length_nonneg doc).
    rewrite length_slice in Hc by lia. unfold inside. lia.
Qed.

Lemma sorted_count (ms : list SearchResult) (a b : Z) :
  StronglySorted startsBefore ms -> Forall (inside a b) ms ->
  Z.of_nat (List.length ms) <= Z.max 0 (b - a + 1).
Proof.
  intros Hs. revert a; induction Hs as [|m ms Hs IH Hall]; intros a Hin; [cbn; lia|].
  inversion Hin as [|m' ms' Hm Hms]; subst.
  assert (Hrest : Forall (inside (from m + 1) b) ms).
  { rewrite Forall_forall in *. intros m' Hm'.
    specialize (Hall m' Hm'). specialize (Hms m' Hm').
    unfold startsBefore, inside in *. lia. }
  specialize (IH _ Hrest). cbn [List.length]. unfold inside in Hm. lia.
Qed.

(** [matchAll] never enumerates more than [doc.length + 1] matches, each
    inside the document and starting after the one before; so with a limit
    above the length of the document it never answers [null]. *)
Theorem matchAll_bounded_by_length {E : RegExpEngine} (laws : EngineLaws E) (q : Query)
    (doc : Text) (limit : Z) :
  length doc < limit ->
  exists ms,
    matchAll q doc limit = Ok (Some ms)
    /\ Z.of_nat (List.length ms) <= length doc + 1
    /\ Forall (inside 0 (length doc)) ms
    /\ StronglySorted startsBefore ms.
Proof.
  intros Hlimit. destruct (allMatches_spec laws q doc) as (Hall & Hsorted).
  pose proof (sorted_count _ _ _ Hsorted Hall) as Hcount.
  pose proof (length_nonneg doc) as Hlen.
  exists (allMatches q doc). split; [|split; [lia|split; assumption]].
  rewrite (matchAll_spec laws). rewrite collect_within by lia. reflexivity.
Qed.

(** On a document shorter than [1e9] characters, [replaceAll] with a valid
    query never dereferences [null].  It returns [false] without dispatching
    when the query has no match in the document, and otherwise dispatches
    one change per match, in order; the matches lie inside the document and
    each starts after the one before.  For a literal query the changes are
    the non-overlapping occurrences of the needle, each replaced by the
    replace text: every change is at an occurrence, and every occurrence of
    the needle is changed or starts inside one that is. *)
Theorem replaceAll_short_document {E : RegExpEngine} (laws : EngineLaws E)
    (view : EditorView) (st : SearchState) :
  searchState (config view) = Some st ->
  valid (query st) = true ->
  length (doc (state view)) < 1000000000 ->
  replaceAll view
  = Ok (match allMatches (query st) (doc (state view)) with
        | [] => Returned None false
        | ms => Returned (Some (mkTransaction (map (changeFor (query st)) ms) None false))
                         true
        end)
  /\ Forall (inside 0 (length (doc (state view))))
            (allMatches (query st) (doc (state view)))
  /\ StronglySorted startsBefore (allMatches (query st) (doc (state view)))
  /\ (forall needle replacement ci,
        query st = StringQuery needle replacement ci ->
        map (changeFor (query st)) (allMatches (query st) (doc (state view)))
        = map (fun p => ChangeSpec.mk p (p + length needle) replacement)
              (nonOverlappingIn (doc (state view)) (foldOf ci) needle
                                0 (length (doc (state view))))
        /\ (forall p, In p (nonOverlappingIn (doc (state view)) (foldOf ci) needle
                              0 (length (doc (state view)))) ->
                      occursAt (doc (state view)) (foldOf ci) needle p)
        /\ (forall p, occursAt (doc (state view)) (foldOf ci) needle p ->
              In p (nonOverlappingIn (doc (state view)) (foldOf ci) needle
                      0 (length (doc (state view))))
              \/ exists p0,
                   In p0 (nonOverlappingIn (doc (state view)) (foldOf ci) needle
                            0 (length (doc (state view))))
                   /\ p0 < p < p0 + length needle)).
Proof.
  intros Hfield Hvalid Hshort.
  destruct (allMatches_spec laws (query st) (doc (state view))) as (Hin & Hsorted).
  pose proof (sorted_count _ _ _ Hsorted Hin) as Hcount.
  pose proof (length_nonneg (doc (state view))) as Hlen.
  split; [|split; [exact Hin|split; [exact Hsorted|]]].
  - unfold replaceAll, searchCommand. rewrite Hfield, Hvalid.
    rewrite (matchAll_spec laws), collect_within by lia. cbn [bind].
    now destruct (allMatches (query st) (doc (state view))).
  - intros needle replacement ci Hq. rewrite Hq. cbn [allMatches].
    destruct (nonOverlappingIn_spec (doc (state view)) (foldOf ci) needle
                0 (length (doc (state view)))) as (Hocc & _ & Hcomplete).
    split; [|split].
    + rewrite map_map. apply map_ext. intros p. reflexivity.
    + intros p Hp. apply (Hocc p Hp).
    + intros p Hp. apply Hcomplete. destruct Hp as (H0 & Hfits & Heq).
      split; [lia|]. split; [lia|]. split; [lia|]. split; [lia|exact Heq].
Qed.

(** ** The search-match highlighter *)

Lemma mergeVisible_spec (to_ : Z) (rest : list (Z * Z)) :
  exists merged,
    rest = merged ++ snd (mergeVisible to_ rest)
    /\ fst (mergeVisible to_ rest) = last (map snd merged) to_
    /\ match snd (mergeVisible to_ rest) with
       | [] => True
       | next :: _ => fst (mergeVisible to_ rest) + RegExp.HighlightMargin <= fst next
       end.
Proof.
  revert to_; induction rest as [|next rest IH]; intros to_; cbn [mergeVisible].
  - exists []. repeat split.
  - destruct (Z.gtb_spec to_ (fst next - RegExp.HighlightMargin)) as [Hgt|Hle].
    + destruct (IH (snd next)) as (merged & Hrest & Hto & Hnext).
      exists (next :: merged). split; [cbn [app]; now f_equal|]. split; [|exact Hnext].
      rewrite Hto. cbn [map]. destruct (map snd merged) as [|x l]; [reflexivity|].
      change (last (x :: l) (snd next) = last (x :: l) to_). apply last_default.
    + exists []. cbn [fst snd app map last]. repeat split. lia.
Qed.

Lemma mergeVisible_length (to_ : Z) (rest : list (Z * Z)) :
  (List.length (snd (mergeVisible to_ rest)) <= List.length rest)%nat.
Proof.
  destruct (mergeVisible_spec to_ rest) as (merged & Hrest & _).
  rewrite Hrest at 2. rewrite List.length_app. lia.
Qed.

Lemma addAll_app (marks marks' : list Decoration.range) (builder : RangeSetBuilder) :
  addAll (marks ++ marks') builder = addAll marks' (addAll marks builder).
Proof. unfold addAll. apply fold_left_app. Qed.

Lemma fold_addMark (state : EditorState) (needle : str) (ps : list Z)
    (builder : RangeSetBuilder) :
  fold_left (fun acc p => addMark state p (p + length needle) acc) ps builder
  = addAll (map (markAt state needle) ps) builder.
Proof.
  revert builder; induction ps as [|p ps IH]; intros builder; [reflexivity|].
  cbn [fold_left map]. rewrite IH. reflexivity.
Qed.

Lemma highlight_ranges_cons {E : RegExpEngine} (gas : nat) (view : EditorView)
    (query : Query) (range : Z * Z) (rest : list (Z * Z))
    (builder : RangeSetBuilder) :
  highlight_ranges (S gas) view query (range :: rest) builder
  = bind (highlight query (doc (state view)) (fst range)
                    (fst (mergeVisible (snd range) rest)) (addMark (state view)) builder)
         (fun builder =>
            highlight_ranges gas view query (snd (mergeVisible (snd range) rest)) builder).
Proof. cbn [highlight_ranges]. now destruct (mergeVisible (snd range) rest). Qed.

Lemma highlight_ranges_literal {E : RegExpEngine} (view : EditorView)
    (needle replacement : str) (ci : bool) (gas : nat) (ranges : list (Z * Z))
    (builder : RangeSetBuilder) :
  (List.length ranges <= gas)%nat ->
  highlight_ranges (S gas) view (StringQuery needle replacement ci) ranges builder
  = Ok (addAll
          (flat_map
             (fun w => map (markAt (state view) needle)
                           (nonOverlappingIn (doc (state view)) (foldOf ci) needle
                              (Z.max 0 (fst w - length needle))
                              (Z.min (snd w + length needle) (length (doc (state view))))))
             (mergedWindows_from gas ranges))
          builder).
Proof.
  revert ranges builder; induction gas as [|gas IH]; intros ranges builder Hgas.
  - destruct ranges; [|cbn in Hgas; lia]. reflexivity.
  - destruct ranges as [|range rest]; [reflexivity|].
    rewrite highlight_ranges_cons. cbn [mergedWindows_from].
    pose proof (mergeVisible_length (snd range) rest) as Hlen.
    destruct (mergeVisible (snd range) rest) as [to' rest']. cbn [fst snd] in *.
    cbn [highlight]. rewrite StringQuery_highlight_spec. cbn [bind search caseInsensitive].
    rewrite fold_addMark. rewrite IH by (cbn [List.length] in Hgas; lia).
    cbn [flat_map fst snd]. now rewrite addAll_app.
Qed.

Lemma inOrder_inv (r : Z * Z) (rest : list (Z * Z)) :
  inOrder (r :: rest) ->
  fst r <= snd r /\ inOrder rest /\ forall x, In x rest -> snd r <= fst x.
Proof.
  intros [Hall Hsorted]. inversion Hall; subst. inversion Hsorted; subst.
  split; [assumption|]. split; [now split|]. now apply Forall_forall.
Qed.

Lemma mergeVisible_ordered (rest : list (Z * Z)) (to_ : Z) :
  inOrder rest -> (forall r, In r rest -> to_ <= fst r) ->
  to_ <= fst (mergeVisible to_ rest)
  /\ inOrder (snd (mergeVisible to_ rest))
  /\ (forall r, In r rest ->
        snd r <= fst (mergeVisible to_ rest) \/ In r (snd (mergeVisible to_ rest)))
  /\ (forall r, In r (snd (mergeVisible to_ rest)) ->
        In r rest /\ fst (mergeVisible to_ rest) + RegExp.HighlightMargin <= fst r)
  /\ (fst (mergeVisible to_ rest) = to_
      \/ exists r, In r rest /\ fst (mergeVisible to_ rest) = snd r).
Proof.
  revert to_; induction rest as [|next rest IH]; intros to_ Horder Hafter; cbn [mergeVisible].
  - cbn. split; [lia|]. split; [split; constructor|]. split; [tauto|]. split; [tauto|now left].
  - destruct (inOrder_inv _ _ Horder) as (Hnext & Hrest & Hlater).
    pose proof (Hafter next (or_introl Logic.eq_refl)) as Hto.
    destruct (Z.gtb_spec to_ (fst next - RegExp.HighlightMargin)) as [Hgt|Hle].
    + destruct (IH (snd next) Hrest Hlater) as (Hge & Hord & Hcover & Hleft & Hend).
      split; [lia|]. split; [exact Hord|]. split; [|split].
      * intros r [<-|Hr]; [now left|now apply Hcover].
      * intros r Hr. destruct (Hleft r Hr) as [Hin Hfar]. split; [now right|exact Hfar].
      * right. destruct Hend as [Heq|(r & Hr & Heq)].
        -- exists next. split; [now left|exact Heq].
        -- exists r. split; [now right|exact Heq].
    + cbn [fst snd]. split; [lia|]. split; [exact Horder|]. split; [|split].
      * intros r Hr. now right.
      * intros r Hr. split; [exact Hr|]. destruct Hr as [<-|Hr]; [lia|].
        specialize (Hlater r Hr). lia.
      * now left.
Qed.

Lemma mergedWindows_from_spec (gas : nat) (ranges : list (Z * Z)) :
  (List.length ranges <= gas)%nat -> inOrder ranges ->
  StronglySorted farApart (mergedWindows_from gas ranges)
  /\ (forall r, In r ranges ->
        exists w, In w (mergedWindows_from gas ranges) /\ fst w <= fst r /\ snd r <= snd w)
  /\ (forall w, In w (mergedWindows_from gas ranges) ->
        exists r r', In r ranges /\ In r' ranges /\ fst w = fst r /\ snd w = snd r').
Proof.
  revert ranges; induction gas as [|gas IH]; intros ranges Hgas Horder.
  - destruct ranges; [|cbn in Hgas; lia]. cbn. repeat split; try constructor; intros ? [].
  - destruct ranges as [|range rest].
    + cbn. repeat split; try constructor; intros ? [].
    + cbn [mergedWindows_from].
      destruct (inOrder_inv _ _ Horder) as (Hrange & Hrest & Hlater).
      destruct (mergeVisible_ordered rest (snd range) Hrest Hlater)
        as (Hge & Hord & Hcover & Hleft & Hend).
      pose proof (mergeVisible_length (snd range) rest) as Hlen.
      destruct (mergeVisible (snd range) rest) as [to' rest']. cbn [fst snd] in *.
      cbn [List.length] in Hgas.
      destruct (IH rest') as (Hsorted & Hcover' & Hends); [lia|exact Hord|].
      split; [|split].
      * constructor; [exact Hsorted|]. apply Forall_forall. intros w Hw.
        destruct (Hends w Hw) as (r & _ & Hr & _ & Hfst & _).
        destruct (Hleft r Hr) as [_ Hfar]. unfold farApart. cbn [fst snd]. lia.
      * intros r [<-|Hr].
        -- exists (fst range, to'). split; [now left|]. cbn [fst snd]. lia.
        -- destruct (Hcover r Hr) as [Hmerged|Hkept].
           ++ exists (fst range, to'). split; [now left|]. cbn [fst snd].
              specialize (Hlater r Hr). lia.
           ++ destruct (Hcover' r Hkept) as (w & Hw & Hin). exists w. split; [now right|exact Hin].
      * intros w [<-|Hw].
        -- cbn [fst snd]. destruct Hend as [->|(r & Hr & ->)].
           ++ exists range, range. repeat split; now left.
           ++ exists range, r. repeat split; [now left|now right].
        -- destruct (Hends w Hw) as (r & r' & Hr & Hr' & Hfst & Hsnd).
           exists r, r'. destruct (Hleft r Hr) as [Hin _]. destruct (Hleft r' Hr') as [Hin' _].
           repeat split; try assumption; now right.
Qed.

Lemma highlight_ranges_windows {E : RegExpEngine} (view : EditorView) (query : Query)
    (gas : nat) (ranges : list (Z * Z)) (builder : RangeSetBuilder) :
  (List.length ranges <= gas)%nat ->
  highlight_ranges (S gas) view query ranges builder
  = scanWindows view query (mergedWindows_from gas ranges) builder.
Proof.
  revert ranges builder; induction gas as [|gas IH]; intros ranges builder Hgas.
  - destruct ranges; [|cbn in Hgas; lia]. reflexivity.
  - destruct ranges as [|range rest]; [reflexivity|].
    rewrite highlight_ranges_cons. cbn [mergedWindows_from].
    pose proof (mergeVisible_length (snd range) rest) as Hlen.
    destruct (mergeVisible (snd range) rest) as [to' rest']. cbn [fst snd] in *.
    cbn [scanWindows fst snd].
    destruct (highlight query (doc (state view)) (fst range) to' (addMark (state view)) builder)
      as [builder'|]; [|reflexivity].
    cbn [bind]. apply IH. cbn [List.length] in Hgas. lia.
Qed.

(** With a panel open and a valid query, the search-match highlighter calls
    [query.highlight] once per merged window, in order.  For visible ranges
    in document order these windows cover every visible range, start and
    end where visible ranges start and end, and lie further apart than the
    highlight margin of 250: ranges closer than that are scanned as one
    window. *)
Theorem searchHighlighter_windows {E : RegExpEngine} (view : EditorView) (st : SearchState) :
  panel st = true -> valid (query st) = true -> inOrder (visibleRanges view) ->
  searchHighlighter_highlight view st
  = scanWindows view (query st) (mergedWindows (visibleRanges view)) (Built [])
  /\ StronglySorted farApart (mergedWindows (visibleRanges view))
  /\ (forall r, In r (visibleRanges view) ->
        exists w, In w (mergedWindows (visibleRanges view))
                  /\ fst w <= fst r /\ snd r <= snd w)
  /\ (forall w, In w (mergedWindows (visibleRanges view)) ->
        exists r r', In r (visibleRanges view) /\ In r' (visibleRanges view)
                     /\ fst w = fst r /\ snd w = snd r').
Proof.
  intros Hpanel Hvalid Horder. split.
  - unfold searchHighlighter_highlight. rewrite Hpanel, Hvalid. cbn [negb orb].
    now apply highlight_ranges_windows.
  - now apply mergedWindows_from_spec.
Qed.

(** ** The search-match highlighter: the marks of a literal query *)

Lemma addAll_Throws (marks : list Decoration.range) : addAll marks Throws = Throws.
Proof. induction marks as [|d marks IH]; [reflexivity|exact IH]. Qed.

Lemma addAll_Built (marks : list Decoration.range) (added rs : list Decoration.range) :
  addAll marks (Built added) = Built rs -> rs = added ++ marks.
Proof.
  revert added; induction marks as [|d marks IH]; intros added.
  - cbn. intros [= <-]. now rewrite app_nil_r.
  - unfold addAll. cbn [fold_left]. fold (addAll marks). destruct d as [f t v].
    cbn [Decoration.from Decoration.to Decoration.value RangeSetBuilder_add].
    destruct (rev added) as [|last ?].
    + intros Hrs. apply IH in Hrs. now rewrite <- app_assoc in Hrs.
    + destruct (f <? Decoration.from last).
      * rewrite addAll_Throws. discriminate.
      * intros Hrs. apply IH in Hrs. now rewrite <- app_assoc in Hrs.
Qed.

Lemma addAll_sorted (marks : list Decoration.range) :
  StronglySorted startsNoEarlier marks ->
  forall added,
    (forall x d, In x added -> In d marks -> startsNoEarlier x d) ->
    addAll marks (Built added) = Built (added ++ marks).
Proof.
  induction 1 as [|d marks Hsorted IH Hall]; intros added Hadded.
  - cbn. now rewrite app_nil_r.
  - unfold addAll. cbn [fold_left]. fold (addAll marks).
    assert (Hadd : RangeSetBuilder_add (Decoration.from d) (Decoration.to d)
                     (Decoration.value d) (Built added) = Built (added ++ [d])).
    { destruct d as [f t v].
      cbn [Decoration.from Decoration.to Decoration.value RangeSetBuilder_add].
      destruct (rev added) as [|last rest] eqn:Hrev; [reflexivity|].
      assert (Hlast : In last added)
        by (apply in_rev; rewrite Hrev; now left).
      specialize (Hadded last _ Hlast (or_introl Logic.eq_refl)).
      unfold startsNoEarlier in Hadded. cbn [Decoration.from] in Hadded.
      destruct (Z.ltb_spec f (Decoration.from last)); [lia|reflexivity]. }
    rewrite Hadd, IH; [now rewrite <- app_assoc|].
    intros x d' Hx Hd'. apply in_app_or in Hx as [Hx|[<-|[]]].
    + apply Hadded; [exact Hx|now right].
    + rewrite Forall_forall in Hall. now apply Hall.
Qed.

Lemma StronglySorted_app {A : Type} (R : A -> A -> Prop) (l l' : list A) :
  StronglySorted R l -> StronglySorted R l' ->
  (forall a b, In a l -> In b l' -> R a b) ->
  StronglySorted R (l ++ l').
Proof.
  induction 1 as [|a l Hsorted IH Hall]; intros Hl' Hcross; [exact Hl'|].
  cbn [app]. constructor.
  - apply IH; [exact Hl'|]. intros x y Hx Hy. apply Hcross; [now right|exact Hy].
  - apply Forall_app. split; [exact Hall|].
    apply Forall_forall. intros y Hy. apply Hcross; [now left|exact Hy].
Qed.

Lemma StronglySorted_flat_map {A B : Type} (R : B -> B -> Prop) (S : A -> A -> Prop)
    (g : A -> list B) (ws : list A) :
  StronglySorted S ws ->
  (forall w, In w ws -> StronglySorted R (g w)) ->
  (forall w w' a b, S w w' -> In a (g w) -> In b (g w') -> R a b) ->
  StronglySorted R (flat_map g ws).
Proof.
  induction 1 as [|w ws Hsorted IH Hall]; intros Heach Hcross; [constructor|].
  cbn [flat_map]. apply StronglySorted_app.
  - apply Heach. now left.
  - apply IH; [|exact Hcross]. intros w' Hw'. apply Heach. now right.
  - intros a b Ha Hb. apply in_flat_map in Hb as (w' & Hw' & Hb).
    rewrite Forall_forall in Hall. exact (Hcross w w' a b (Hall w' Hw') Ha Hb).
Qed.

Lemma StronglySorted_map {A B : Type} (R : B -> B -> Prop) (S : A -> A -> Prop)
    (f : A -> B) (l : list A) :
  (forall a b, S a b -> R (f a) (f b)) ->
  StronglySorted S l -> StronglySorted R (map f l).
Proof.
  intros Hf. induction 1 as [|a l Hsorted IH Hall]; [constructor|].
  cbn [map]. constructor; [exact IH|].
  apply Forall_forall. intros y Hy. apply in_map_iff in Hy as (x & <- & Hx).
  rewrite Forall_forall in Hall. apply Hf. now apply Hall.
Qed.

Lemma literalMarks_sorted (view : EditorView) (needle : str) (ci : bool) :
  inOrder (visibleRanges view) ->
  length needle <= RegExp.HighlightMargin ->
  StronglySorted startsNoEarlier (literalMarks view needle ci).
Proof.
  intros Horder Hshort. unfold literalMarks.
  destruct (mergedWindows_from_spec (List.length (visibleRanges view)) (visibleRanges view))
    as (Hwindows & _); [lia|exact Horder|].
  apply (StronglySorted_flat_map startsNoEarlier farApart); [exact Hwindows| |].
  - intros w _.
    apply (StronglySorted_map startsNoEarlier (apart (length needle))).
    + intros p p' [Hlt _]. unfold startsNoEarlier, markAt. cbn [Decoration.from]. lia.
    + apply nonOverlappingIn_spec.
  - intros w w' a b Hfar Ha Hb.
    apply in_map_iff in Ha as (p & <- & Hp). apply in_map_iff in Hb as (p' & <- & Hp').
    apply (proj1 (nonOverlappingIn_spec _ _ _ _ _)) in Hp as (_ & Hend & _).
    apply (proj1 (nonOverlappingIn_spec _ _ _ _ _)) in Hp' as (Hstart & _).
    unfold startsNoEarlier, markAt, farApart in *. cbn [Decoration.from]. lia.
Qed.

(** The search-match highlighter produces no decoration when no panel is
    open or the literal query is empty.  Otherwise it adds to its builder,
    window by window, a mark for each non-overlapping occurrence of the
    needle inside the merged window padded by the needle's length, and the
    result is the set of exactly these marks unless the builder throws.
    When the visible ranges are in document order and the needle is no
    longer than the highlight margin of 250, the marks are added in order
    and the builder does not throw.  Each mark is the selected-match mark
    exactly when its range coincides with a range of the selection, and the
    plain match mark otherwise. *)
Theorem searchHighlighter_literal {E : RegExpEngine} (view : EditorView)
    (needle replacement : str) (ci : bool) (open : bool) :
  (open = false \/ needle = [] ->
   searchHighlighter_highlight view
     (mkSearchState (StringQuery needle replacement ci) open) = Ok (Built []))
  /\ (open = true -> needle <> [] ->
      searchHighlighter_highlight view
        (mkSearchState (StringQuery needle replacement ci) open)
      = Ok (addAll (literalMarks view needle ci) (Built []))
      /\ (addAll (literalMarks view needle ci) (Built [])
          = Built (literalMarks view needle ci)
          \/ addAll (literalMarks view needle ci) (Built []) = Throws))
  /\ (open = true -> needle <> [] ->
      inOrder (visibleRanges view) -> length needle <= RegExp.HighlightMargin ->
      searchHighlighter_highlight view
        (mkSearchState (StringQuery needle replacement ci) open)
      = Ok (Built (literalMarks view needle ci))
      /\ StronglySorted startsNoEarlier (literalMarks view needle ci))
  /\ (forall p,
        Decoration.value (markAt (state view) needle p) = selectedMatchMark
        <-> exists r, In r (EditorSelection.ranges (selection (state view)))
                      /\ SelectionRange.from r = p
                      /\ SelectionRange.to r = p + length needle)
  /\ (forall p,
        Decoration.value (markAt (state view) needle p) = selectedMatchMark
        \/ Decoration.value (markAt (state view) needle p) = matchMark).
Proof.
  assert (Hrun : open = true -> needle <> [] ->
            searchHighlighter_highlight view
              (mkSearchState (StringQuery needle replacement ci) open)
            = Ok (addAll (literalMarks view needle ci) (Built []))).
  { intros -> Hne. unfold searchHighlighter_highlight.
    cbn [panel query valid StringQuery.valid search].
    destruct needle as [|c needle]; [contradiction|]. cbn [negb orb].
    rewrite highlight_ranges_literal by lia. reflexivity. }
  split; [|split; [|split; [|split]]].
  - unfold searchHighlighter_highlight. cbn [panel query valid StringQuery.valid search].
    intros [-> | ->]; [reflexivity|]. now rewrite orb_true_r.
  - intros Hopen Hne. split; [now apply Hrun|].
    destruct (addAll (literalMarks view needle ci) (Built [])) as [rs|] eqn:Hadd;
      [left|now right].
    apply addAll_Built in Hadd. now rewrite Hadd.
  - intros Hopen Hne Horder Hshort.
    pose proof (literalMarks_sorted view needle ci Horder Hshort) as Hsorted.
    split; [|exact Hsorted].
    rewrite (Hrun Hopen Hne), (addAll_sorted _ Hsorted []); [reflexivity|].
    intros x d [].
  - intros p. unfold markAt. cbn [Decoration.value].
    destruct (existsb _ _) eqn:Hex.
    + split; [intros _|reflexivity].
      apply existsb_exists in Hex as (r & Hr & Heq).
      apply andb_true_iff in Heq as [Hf Ht]. exists r. split; [exact Hr|]. lia.
    + split; [discriminate|]. intros (r & Hr & Hf & Ht).
      assert (Hex' : existsb (fun r => (SelectionRange.from r =? p)
                                       && (SelectionRange.to r =? p + length needle))
                             (EditorSelection.ranges (selection (state view))) = true).
      { apply existsb_exists. exists r. split; [exact Hr|].
        apply andb_true_iff. split; lia. }
      congruence.
  - intros p. unfold markAt. cbn [Decoration.value]. destruct (existsb _ _); auto.
Qed.

(** With a needle of 260 characters, longer than the margin that separates
    two windows, the second window's first mark starts before the first
    window's last mark, and the builder throws. *)
Example searchHighlighter_throws :
  searchHighlighter_highlight (E := plainEngine) wideNeedleView
    (mkSearchState (StringQuery (List.repeat "a"%char 260) [] false) true)
  = Ok Throws.
Proof. vm_compute. reflexivity. Qed.

(** ** Moving to the next and to the previous match *)

Lemma nonempty_length (s : str) : s <> [] -> 0 < length s.
Proof. destruct s; [congruence|]. intros _. unfold length. cbn [List.length]. lia. Qed.

Lemma firstMatchIn_within (doc : Text) (norm : ascii -> ascii) (needle : str)
    (a b : Z) (m : SearchResult) :
  firstMatchIn doc norm needle a b = Some m ->
  to m = from m + length needle /\ a <= from m /\ 0 <= from m /\ to m <= b
  /\ occursAt doc norm needle (from m).
Proof.
  intros Hm. apply firstMatchIn_Some in Hm as (p & -> & (Ha & Hb & Hocc) & _).
  cbn [resultAt from to]. pose proof Hocc as (H0 & _). repeat split; try lia; apply Hocc.
Qed.

Lemma lastMatchIn_within (doc : Text) (norm : ascii -> ascii) (needle : str)
    (a b : Z) (m : SearchResult) :
  lastMatchIn doc norm needle a b = Some m ->
  to m = from m + length needle /\ a <= from m /\ 0 <= from m /\ to m <= b
  /\ occursAt doc norm needle (from m).
Proof.
  intros Hm. apply lastMatchIn_Some in Hm as (p & -> & (Ha & Hb & Hocc) & _).
  cbn [resultAt from to]. pose proof Hocc as (H0 & _). repeat split; try lia; apply Hocc.
Qed.

Lemma SelectionRange_from_le_to (r : SelectionRange.t) :
  SelectionRange.from r <= SelectionRange.to r.
Proof. unfold SelectionRange.from, SelectionRange.to. lia. Qed.

Lemma StringQuery_prevMatch_spec (this : Query) (doc : Text) (curFrom curTo : Z) :
  StringQuery.prevMatch this doc curFrom curTo
  = Ok (orElse (lastMatchIn doc (foldOf (caseInsensitive this)) (search this) 0 curFrom)
               (lastMatchIn doc (foldOf (caseInsensitive this)) (search this)
                            curTo (length doc))).
Proof.
  unfold StringQuery.prevMatch. rewrite !prevMatchInRange_spec. cbn [bind].
  destruct (lastMatchIn doc _ (search this) 0 curFrom); reflexivity.
Qed.

(** With a non-empty literal query, [findNext] moves the selection to the
    first occurrence of the needle at or after the end of the main
    selection, else to the first occurrence that ends at or before its
    start, scrolls it into view and announces it; it returns [false], and
    dispatches nothing, exactly when there is neither.  The match selected
    is never the current selection: the test for that case cannot
    succeed. *)
Theorem findNext_literal {E : RegExpEngine} (view : EditorView)
    (needle replacement : str) (ci open : bool) :
  searchState (config view) = Some (mkSearchState (StringQuery needle replacement ci) open) ->
  needle <> [] ->
  let main := EditorSelection.main (selection (state view)) in
  let next :=
    orElse (firstMatchIn (doc (state view)) (foldOf ci) needle
                         (SelectionRange.to main) (length (doc (state view))))
           (firstMatchIn (doc (state view)) (foldOf ci) needle
                         0 (SelectionRange.from main)) in
  findNext view
  = Ok match next with
       | None => Finished None false
       | Some m =>
           Finished
             (Some (mkDispatch (mkTransaction [] (Some (single (from m) (to m))) true)
                               (Some (announceMatch view (from m) (to m)))))
             true
       end
  /\ (forall m, next = Some m ->
        occursAt (doc (state view)) (foldOf ci) needle (from m)
        /\ to m = from m + length needle
        /\ (SelectionRange.to main <= from m \/ to m <= SelectionRange.from main)
        /\ (from m, to m) <> (SelectionRange.from main, SelectionRange.to main)).
Proof.
  intros Hstate Hneedle main next.
  pose proof (nonempty_length needle Hneedle) as Hlen.
  pose proof (SelectionRange_from_le_to main) as Hmain.
  assert (Hnext : forall m, next = Some m ->
            occursAt (doc (state view)) (foldOf ci) needle (from m)
            /\ to m = from m + length needle
            /\ (SelectionRange.to main <= from m \/ to m <= SelectionRange.from main)).
  { intros m Hm. apply orElse_Some in Hm as [Hm|[_ Hm]];
      apply firstMatchIn_within in Hm as (Hto & Ha & H0 & Hb & Hocc);
      (split; [exact Hocc|split; [exact Hto|lia]]). }
  split.
  - unfold findNext, searchCommandWith. rewrite Hstate. cbn [query valid StringQuery.valid search].
    destruct needle as [|c needle']; [congruence|]. cbv zeta.
    cbn [nextMatch]. rewrite StringQuery_nextMatch_spec. cbn [search caseInsensitive].
    fold main. fold next. destruct next as [m|] eqn:Hm; [|reflexivity].
    destruct (Hnext m Logic.eq_refl) as (_ & Hto & Hside).
    destruct ((from m =? SelectionRange.from main) && (to m =? SelectionRange.to main)) eqn:Hsame;
      [|reflexivity].
    apply andb_true_iff in Hsame as [Hf Ht]. apply Z.eqb_eq in Hf, Ht. lia.
  - intros m Hm. destruct (Hnext m Hm) as (Hocc & Hto & Hside).
    split; [exact Hocc|]. split; [exact Hto|]. split; [exact Hside|].
    intros [= Hf Ht]. lia.
Qed.

(** [findPrevious] never moves the selection for a regular-expression
    query: it returns [false] and dispatches nothing, whatever the document
    holds.  With a non-empty literal query it moves to the last occurrence
    of the needle that ends at or before the start of the main selection,
    else to the last occurrence at or after its end, and returns [false]
    exactly when there is neither; the match selected lies outside the
    current selection. *)
Theorem findPrevious_spec {E : RegExpEngine} (view : EditorView) (st : SearchState) :
  searchState (config view) = Some st -> valid (query st) = true ->
  let main := EditorSelection.main (selection (state view)) in
  (forall pattern replacement ci,
     query st = RegExpQuery pattern replacement ci ->
     findPrevious view = Ok (Finished None false))
  /\ (forall needle replacement ci,
        query st = StringQuery needle replacement ci ->
        let prev :=
          orElse (lastMatchIn (doc (state view)) (foldOf ci) needle
                              0 (SelectionRange.from main))
                 (lastMatchIn (doc (state view)) (foldOf ci) needle
                              (SelectionRange.to main) (length (doc (state view)))) in
        findPrevious view
        = Ok match prev with
             | None => Finished None false
             | Some m =>
                 Finished
                   (Some (mkDispatch (mkTransaction [] (Some (single (from m) (to m))) true)
                                     (Some (announceMatch view (from m) (to m)))))
                   true
             end
        /\ (forall m, prev = Some m ->
              occursAt (doc (state view)) (foldOf ci) needle (from m)
              /\ to m = from m + length needle
              /\ (to m <= SelectionRange.from main \/ SelectionRange.to main <= from m))).
Proof.
  intros Hstate Hvalid main. split.
  - intros pattern replacement ci Hq.
    unfold findPrevious, searchCommandWith. rewrite Hstate, Hvalid, Hq. reflexivity.
  - intros needle replacement ci Hq prev. split.
    + unfold findPrevious, searchCommandWith. rewrite Hstate, Hvalid, Hq. cbv zeta.
      cbn [prevMatch]. rewrite StringQuery_prevMatch_spec. cbn [search caseInsensitive bind].
      fold main. fold prev. destruct prev; reflexivity.
    + intros m Hm. apply orElse_Some in Hm as [Hm|[_ Hm]];
        apply lastMatchIn_within in Hm as (Hto & Ha & H0 & Hb & Hocc);
        (split; [exact Hocc|split; [exact Hto|lia]]).
Qed.

(** ** Selecting all matches *)

(** With a non-empty literal query, [selectMatches] selects the
    non-overlapping occurrences of the needle in the whole document, in
    document order, each as one range; it returns [false], and dispatches
    nothing, when there is none or when there are more than 1000.  The
    ranges it selects are pairwise disjoint. *)
Theorem selectMatches_literal {E : RegExpEngine} (view : EditorView)
    (needle replacement : str) (ci open : bool) :
  searchState (config view) = Some (mkSearchState (StringQuery needle replacement ci) open) ->
  needle <> [] ->
  let ps := nonOverlappingIn (doc (state view)) (foldOf ci) needle
                             0 (length (doc (state view))) in
  selectMatches view
  = Ok (if match ps with [] => true | _ => false end
           || (Z.of_nat (List.length ps) >? 1000)
        then Returned None false
        else Returned
               (Some (mkTransaction []
                        (Some (EditorSelection.create
                                 (map (fun p => SelectionRange.range p (p + length needle)) ps)
                                 0))
                        false))
               true)
  /\ StronglySorted (apart (length needle)) ps
  /\ (forall p, In p ps -> occursAt (doc (state view)) (foldOf ci) needle p).
Proof.
  intros Hstate Hneedle ps.
  destruct (nonOverlappingIn_spec (doc (state view)) (foldOf ci) needle
              0 (length (doc (state view)))) as (Hin & Hsorted & _).
  split; [|split; [exact Hsorted|intros p Hp; apply (Hin p Hp)]].
  assert (Hvalid : valid (StringQuery needle replacement ci) = true)
    by (destruct needle; [congruence|reflexivity]).
  unfold selectMatches, searchCommand. rewrite Hstate. cbn [query]. rewrite Hvalid.
  cbn [matchAll]. rewrite StringQuery_matchAll_spec. cbn [search caseInsensitive bind].
  fold ps. unfold collect. destruct ps as [|p ps'].
  - reflexivity.
  - cbn [map List.length Nat.add app orb]. rewrite List.length_map.
    destruct (Z.of_nat (S (List.length ps')) >? 1000); [reflexivity|].
    cbn [map resultAt from to]. do 6 f_equal.
    rewrite map_map. reflexivity.
Qed.

Lemma selectSelectionMatches_loop_spec (gas : nat) (from_ : Z) (c : SearchCursor.t)
    (ranges : list SelectionRange.t) (main : nat) :
  (SearchCursor.budget c <= gas)%nat ->
  selectSelectionMatches_loop gas from_ c ranges main
  = Ok (gatherRanges from_ (nonOverlappingFrom c) ranges main).
Proof.
  revert c ranges main; induction gas as [|gas IH]; intros c ranges main Hgas.
  - unfold SearchCursor.budget in Hgas. lia.
  - cbn [selectSelectionMatches_loop]. rewrite (nonOverlapping_step c).
    destruct (SearchCursor.done (SearchCursor.next c)) eqn:Hd; [reflexivity|].
    pose proof (next_budget c Hd). cbn [gatherRanges].
    destruct (Z.of_nat (List.length ranges) >? 1000); [reflexivity|].
    apply IH. lia.
Qed.

Lemma gatherRanges_over (from_ : Z) (ms : list SearchResult)
    (ranges : list SelectionRange.t) (main : nat) :
  ms <> [] -> 1001 < Z.of_nat (List.length ranges + List.length ms) ->
  gatherRanges from_ ms ranges main = None.
Proof.
  revert ranges main; induction ms as [|m ms IH]; intros ranges main Hne Hlen; [congruence|].
  cbn [gatherRanges].
  destruct (Z.gtb_spec (Z.of_nat (List.length ranges)) 1000) as [Hgt|Hle]; [reflexivity|].
  apply IH.
  - destruct ms; [cbn [List.length] in Hlen; lia|discriminate].
  - rewrite List.length_app. cbn [List.length] in *. lia.
Qed.

Lemma gatherRanges_within (from_ : Z) (q : str) (ps : list Z) :
  StronglySorted (apart (length q)) ps ->
  forall (ranges : list SelectionRange.t) (main : nat),
  Z.of_nat (List.length ranges + List.length ps) <= 1001 ->
  exists i,
    gatherRanges from_ (map (resultAt q) ps) ranges main
    = Some (ranges ++ map (fun p => SelectionRange.range p (p + length q)) ps, i)
    /\ (In from_ ps ->
        exists k, i = (List.length ranges + k)%nat /\ nth_error ps k = Some from_)
    /\ (~ In from_ ps -> i = main).
Proof.
  induction ps as [|p ps IH]; intros Hsorted ranges main Hlen.
  - exists main. cbn. rewrite app_nil_r. split; [reflexivity|]. split; [intros []|reflexivity].
  - apply StronglySorted_inv in Hsorted as [Hsorted Hlater].
    cbn [map gatherRanges resultAt from to]. cbn [List.length] in Hlen.
    destruct (Z.gtb_spec (Z.of_nat (List.length ranges)) 1000) as [Hgt|_]; [lia|].
    destruct (IH Hsorted (ranges ++ [SelectionRange.range p (p + length q)])
                 (if p =? from_ then List.length ranges else main))
      as (i & Heq & Hin & Hout).
    { rewrite List.length_app. cbn [List.length]. lia. }
    exists i. split; [|split].
    + rewrite Heq. now rewrite <- app_assoc.
    + intros [->|Hp].
      * exists 0%nat. split; [|reflexivity].
        rewrite Hout, Z.eqb_refl; [lia|].
        intros Hp. rewrite Forall_forall in Hlater. destruct (Hlater _ Hp). lia.
      * destruct (Hin Hp) as (k & -> & Hk). exists (S k).
        rewrite List.length_app. cbn [List.length]. split; [lia|exact Hk].
    + intros Hp. rewrite Hout by (intros Hp'; apply Hp; now right).
      destruct (Z.eqb_spec p from_) as [->|_]; [|reflexivity].
      exfalso. apply Hp. now left.
Qed.

(** [selectSelectionMatches], for a single non-empty selection, selects the
    non-overlapping occurrences of the selected text in the whole document,
    in document order; the main range is the selection itself when its
    start is among them, and the first range otherwise.  It gives up,
    returning [false], only when there are more than 1001 of them.  Every
    range selected holds the selected text; and a selection that lies
    inside the document is selected again, or starts inside a range that
    is. *)
Theorem selectSelectionMatches_spec (state : EditorState) :
  (List.length (EditorSelection.ranges (selection state)) <= 1)%nat ->
  SelectionRange.empty (EditorSelection.main (selection state)) = false ->
  let from_ := SelectionRange.from (EditorSelection.main (selection state)) in
  let to_ := SelectionRange.to (EditorSelection.main (selection state)) in
  let q := sliceDoc state from_ to_ in
  let ps := nonOverlappingIn (doc state) (fun c => c) q 0 (length (doc state)) in
  (1001 < Z.of_nat (List.length ps) ->
   selectSelectionMatches state = Ok (Returned None false))
  /\ (Z.of_nat (List.length ps) <= 1001 ->
      exists i,
        selectSelectionMatches state
        = Ok (Returned
                (Some (mkTransaction []
                         (Some (EditorSelection.create
                                  (map (fun p => SelectionRange.range p (p + length q)) ps)
                                  i))
                         false))
                true)
        /\ (In from_ ps -> nth_error ps i = Some from_)
        /\ (~ In from_ ps -> i = 0%nat))
  /\ StronglySorted (apart (length q)) ps
  /\ (forall p, In p ps -> sliceDoc state p (p + length q) = q)
  /\ (0 <= from_ -> to_ <= length (doc state) ->
      In from_ ps \/ exists p0, In p0 ps /\ p0 < from_ < p0 + length q).
Proof.
  intros Hsingle Hempty from_ to_ q ps.
  destruct (nonOverlappingIn_spec (doc state) (fun c => c) q 0 (length (doc state)))
    as (Hin & Hsorted & Hcomplete).
  assert (Hrun : selectSelectionMatches state
                 = bind (Ok (gatherRanges from_ (map (resultAt q) ps) [] 0%nat))
                     (fun found =>
                        match found with
                        | None => Ok (Returned None false)
                        | Some (ranges, main) =>
                            Ok (Returned
                                  (Some (mkTransaction []
                                           (Some (EditorSelection.create ranges main)) false))
                                  true)
                        end)).
  { unfold selectSelectionMatches. cbv zeta.
    destruct (Nat.ltb_spec 1 (List.length (EditorSelection.ranges (selection state))));
      [lia|].
    rewrite Hempty. cbn [orb]. fold from_ to_ q.
    rewrite selectSelectionMatches_loop_spec by lia.
    now rewrite create_nonOverlapping. }
  split; [|split; [|split; [exact Hsorted|split]]].
  - intros Hover. rewrite Hrun, gatherRanges_over; [reflexivity| |].
    + destruct ps; [cbn in Hover; lia|discriminate].
    + rewrite List.length_map. cbn [List.length Nat.add]. lia.
  - intros Hwithin.
    destruct (gatherRanges_within from_ q ps Hsorted [] 0%nat) as (i & Heq & Hmain & Hother).
    { cbn [List.length Nat.add]. lia. }
    exists i. rewrite Hrun, Heq. cbn [bind app]. split; [reflexivity|]. split.
    + intros Hp. destruct (Hmain Hp) as (k & -> & Hk). exact Hk.
    + exact Hother.
  - intros p Hp. destruct (Hin p Hp) as (_ & _ & _ & _ & Heq).
    rewrite !map_id in Heq. exact Heq.
  - intros Hfrom Hto. apply Hcomplete.
    assert (Hlt : from_ <= to_) by apply SelectionRange_from_le_to.
    assert (Hq : length q = to_ - from_) by (apply length_slice; lia).
    split; [lia|]. split; [lia|]. split; [lia|]. split; [lia|].
    rewrite !map_id, Hq. replace (from_ + (to_ - from_)) with to_ by lia. reflexivity.
Qed.

(** ** Replacing the current match *)

Lemma length_app (a b : str) : length (a ++ b) = length a + length b.
Proof. unfold length. rewrite List.length_app. lia. Qed.

Lemma slice_app_l (a b : str) (i j : Z) :
  j <= length a -> sliceString (a ++ b) i j = sliceString a i j.
Proof.
  intros Hj. unfold sliceString, length in *.
  rewrite List.skipn_app, List.firstn_app, List.length_skipn.
  replace (Z.to_nat j - Z.to_nat i - (List.length a - Z.to_nat i))%nat with 0%nat by lia.
  cbn [firstn]. now rewrite app_nil_r.
Qed.

Lemma slice_app_r (a b : str) (i j : Z) :
  0 <= i -> sliceString (a ++ b) (length a + i) (length a + j) = sliceString b i j.
Proof.
  intros Hi. unfold sliceString, length in *.
  rewrite List.skipn_app.
  rewrite (List.skipn_all2 a) by lia. cbn [app].
  f_equal; [lia|f_equal; lia].
Qed.

Lemma slice_slice (d : Text) (a b i j : Z) :
  0 <= a -> 0 <= i -> i <= j -> a + j <= b ->
  sliceString (sliceString d a b) i j = sliceString d (a + i) (a + j).
Proof.
  intros Ha Hi Hij Hb. unfold sliceString at 1.
  rewrite skipn_slice by lia.
  replace (Z.to_nat j - Z.to_nat i)%nat with (Z.to_nat (j - i)) by lia.
  rewrite firstn_slice by lia. f_equal. lia.
Qed.

(** [replaceNext] with a non-empty literal query looks for the first
    occurrence of the needle at or after the start of the main selection,
    else the first one that ends at or before it, and returns [false] when
    there is none.  When that occurrence is not the selection itself it
    only moves the selection there.  When it is, the selection is replaced
    by the replacement text and the selection moves to the following
    occurrence, if any, at its place in the changed document: the text
    selected after the change is the text of that occurrence. *)
Theorem replaceNext_literal {E : RegExpEngine} (view : EditorView)
    (needle replacement : str) (ci open : bool) :
  searchState (config view) = Some (mkSearchState (StringQuery needle replacement ci) open) ->
  needle <> [] ->
  let d := doc (state view) in
  let from_ := SelectionRange.from (EditorSelection.main (selection (state view))) in
  let to_ := SelectionRange.to (EditorSelection.main (selection (state view))) in
  let found := orElse (firstMatchIn d (foldOf ci) needle from_ (length d))
                      (firstMatchIn d (foldOf ci) needle 0 from_) in
  let following := orElse (firstMatchIn d (foldOf ci) needle to_ (length d))
                          (firstMatchIn d (foldOf ci) needle 0 from_) in
  (found = None -> replaceNext view = Ok (Finished None false))
  /\ (forall m, found = Some m -> (from m, to m) <> (from_, to_) ->
        replaceNext view
        = Ok (Finished
                (Some (mkDispatch (mkTransaction [] (Some (single (from m) (to m))) true)
                                  (Some (announceMatch view (from m) (to m)))))
                true))
  /\ (forall m, found = Some m -> (from m, to m) = (from_, to_) ->
        match following with
        | None =>
            replaceNext view
            = Ok (Finished
                    (Some (mkDispatch
                             (mkTransaction [ChangeSpec.mk from_ to_ replacement] None false)
                             None))
                    true)
        | Some n =>
            let shift := if from_ >=? to n then 0 else length replacement - length needle in
            replaceNext view
            = Ok (Finished
                    (Some (mkDispatch
                             (mkTransaction [ChangeSpec.mk from_ to_ replacement]
                                            (Some (single (from n + shift) (to n + shift)))
                                            true)
                             (Some (announceMatch view (from n) (to n)))))
                    true)
            /\ sliceString (applyChange d from_ to_ replacement)
                           (from n + shift) (to n + shift)
               = sliceString d (from n) (to n)
        end).
Proof.
  intros Hstate Hneedle d from_ to_ found following.
  pose proof (nonempty_length needle Hneedle) as Hlen.
  assert (Hvalid : valid (StringQuery needle replacement ci) = true)
    by (destruct needle; [congruence|reflexivity]).
  assert (Hrun : replaceNext view
    = match found with
      | None => Ok (Finished None false)
      | Some next =>
          let current := (from next =? from_) && (to next =? to_) in
          let changes :=
            if current then [ChangeSpec.mk (from next) (to next) replacement] else [] in
          let next' :=
            if current
            then orElse (firstMatchIn d (foldOf ci) needle (to next) (length d))
                        (firstMatchIn d (foldOf ci) needle 0 (from next))
            else Some next in
          let selection :=
            match next' with
            | Some next =>
                let off :=
                  match changes with
                  | [] => 0
                  | change :: _ =>
                      if ChangeSpec.from change >=? to next then 0
                      else to next - from next - length replacement
                  end in
                Some (single (from next - off) (to next - off))
            | None => None
            end in
          Ok (Finished
                (Some (mkDispatch
                         (mkTransaction changes selection
                                        match selection with Some _ => true | None => false end)
                         match next' with
                         | Some next => Some (announceMatch view (from next) (to next))
                         | None => None
                         end))
                true)
      end).
  { unfold replaceNext, searchCommandWith. rewrite Hstate. cbn [query]. rewrite Hvalid.
    cbv zeta. cbn [nextMatch getReplacement StringQuery.getReplacement replace].
    rewrite StringQuery_nextMatch_spec. cbn [search caseInsensitive].
    fold d from_ to_ found. destruct found as [m|]; [|reflexivity].
    now rewrite StringQuery_nextMatch_spec. }
  split; [|split].
  - intros Hnone. now rewrite Hrun, Hnone.
  - intros m Hm Hother. rewrite Hrun, Hm. cbv zeta.
    destruct ((from m =? from_) && (to m =? to_)) eqn:Hsame.
    + apply andb_true_iff in Hsame as [Hf Ht]. apply Z.eqb_eq in Hf, Ht.
      exfalso. apply Hother. now rewrite Hf, Ht.
    + rewrite !Z.sub_0_r. reflexivity.
  - intros m Hm [= Hf Ht].
    assert (Hocc : occursAt d (foldOf ci) needle from_ /\ to_ = from_ + length needle).
    { apply orElse_Some in Hm as [Hm|[_ Hm]];
        apply firstMatchIn_within in Hm as (Hto & _ & _ & _ & Hocc);
        rewrite Hf in *; (split; [exact Hocc|lia]). }
    destruct Hocc as ((Hfrom0 & Hfits & _) & Hto).
    rewrite Hrun, Hm. cbv zeta. rewrite Hf, Ht, !Z.eqb_refl. cbn [andb].
    fold following. destruct following as [n|] eqn:Hn; [|reflexivity].
    cbv zeta. cbn [ChangeSpec.from].
    assert (Hwhere : (to n <= from_ /\ 0 <= from n /\ to n = from n + length needle)
                     \/ (to_ <= from n /\ to n = from n + length needle
                         /\ to n <= length d)).
    { apply orElse_Some in Hn as [Hn|[_ Hn]];
        apply firstMatchIn_within in Hn as (Hton & Ha & H0 & Hb & _); [right|left]; lia. }
    destruct (Z.geb_spec from_ (to n)) as [Hbefore|Hafter].
    + destruct Hwhere as [(Hton & H0 & Hlenn)|?]; [|lia].
      rewrite !Z.sub_0_r, !Z.add_0_r. split; [reflexivity|].
      unfold applyChange. rewrite slice_app_l by (rewrite length_slice; lia).
      replace (from n) with (0 + from n) at 1 by lia.
      replace (to n) with (0 + to n) at 1 by lia.
      rewrite slice_slice by lia. reflexivity.
    + destruct Hwhere as [?|(Hafter' & Hlenn & Hend)]; [lia|].
      split.
      * do 7 f_equal; lia.
      * unfold applyChange.
        assert (Hpre : length (sliceString d 0 from_) = from_)
          by (rewrite length_slice; lia).
        replace (from n + (length replacement - length needle))
          with (length (sliceString d 0 from_)
                + (length replacement + (from n - to_))) by lia.
        replace (to n + (length replacement - length needle))
          with (length (sliceString d 0 from_)
                + (length replacement + (to n - to_))) by lia.
        rewrite slice_app_r by (pose proof (length_nonneg replacement); lia).
        rewrite slice_app_r by lia.
        rewrite slice_slice by lia. f_equal; lia.
Qed.

(** ** The search state field *)

(** The search state after a transaction holds the query of the
    transaction's last [setQuery] effect and the panel of its last
    [togglePanel] effect, and keeps what it had where there is none: the
    two kinds of effect do not disturb each other, whatever their order,
    and applying the effects of two transactions in turn is applying them
    all at once. *)
Theorem searchState_update_last (value : SearchState) (effects : list StateEffect) :
  searchState_update value effects
  = mkSearchState
      match lastQuery effects with Some q => q | None => query value end
      match lastToggle effects with Some on => on | None => panel value end
  /\ (forall more,
        searchState_update (searchState_update value effects) more
        = searchState_update value (effects ++ more)).
Proof.
  split.
  - revert value; induction effects as [|effect effects IH]; intros value.
    + now destruct value.
    + cbn [searchState_update lastQuery lastToggle]. rewrite IH.
      destruct effect as [q|on|]; cbn [query panel];
        destruct (lastQuery effects), (lastToggle effects); reflexivity.
  - intros more. revert value; induction effects as [|effect effects IH]; intros value;
      [reflexivity|].
    cbn [searchState_update app]. apply IH.
Qed.

(** ** The selection-match highlighter: how much it decorates, and where *)

Lemma decoFold_length (state : EditorState) (conf : HighlightOptions)
    (range : SelectionRange.t) (check : option (str -> CharCategory))
    (ms : list SearchResult) (deco deco' : list Decoration.range) :
  decoFold state conf range check ms deco = Some deco' ->
  Z.of_nat (List.length deco) <= Z.max 0 (maxMatches conf) ->
  Z.of_nat (List.length deco') <= Z.max 0 (maxMatches conf).
Proof.
  revert deco; induction ms as [|m ms IH]; intros deco.
  - now intros [= <-].
  - cbn [decoFold]. destruct (passesBoundary _ _ _ _); [|apply IH].
    destruct (Z.gtb_spec (Z.of_nat (List.length
                (deco ++ decorationFor range check (from m) (to m)))) (maxMatches conf));
      [discriminate|].
    intros Hfold _. apply (IH _ Hfold). lia.
Qed.

Lemma partsFold_length (state : EditorState) (conf : HighlightOptions)
    (range : SelectionRange.t) (check : option (str -> CharCategory)) (query : str)
    (parts : list (Z * Z)) (deco : list Decoration.range) :
  Z.of_nat (List.length deco) <= Z.max 0 (maxMatches conf) ->
  Z.of_nat (List.length (partsFold state conf range check query parts deco))
  <= Z.max 0 (maxMatches conf).
Proof.
  revert deco; induction parts as [|part parts IH]; intros deco Hlen; [exact Hlen|].
  cbn [partsFold].
  destruct (decoFold _ _ _ _ _ _) as [deco'|] eqn:Hfold; [|cbn; lia].
  apply IH. eapply decoFold_length; eassumption.
Qed.

(** The selection-match highlighter never makes more decorations than
    [maxMatches] allows, and makes none when the selection has more than
    one range.  Every range it decorates lies inside a visible range and
    holds one and the same text; it either lies outside the main selection
    range or covers it, and then it is tagged as the main match. *)
Theorem getDeco_bounded {H : EditorHost} (view : EditorView) :
  exists deco query,
    getDeco view = Ok deco
    /\ Z.of_nat (List.length deco) <= Z.max 0 (maxMatches (highlightConfig (config view)))
    /\ ((1 < List.length (EditorSelection.ranges (selection (state view))))%nat ->
        deco = [])
    /\ forall d, In d deco ->
         let range := EditorSelection.main (selection (state view)) in
         (exists part, In part (visibleRanges view)
                       /\ fst part <= Decoration.from d /\ Decoration.to d <= snd part)
         /\ sliceDoc (state view) (Decoration.from d) (Decoration.to d) = query
         /\ (SelectionRange.to range <= Decoration.from d
             \/ Decoration.to d <= SelectionRange.from range
             \/ (Decoration.from d <= SelectionRange.from range
                 /\ SelectionRange.to range <= Decoration.to d
                 /\ Decoration.value d = mainMatchDeco)).
Proof.
  assert (Hnone : forall query : str,
            Z.of_nat (List.length Decoration.none)
            <= Z.max 0 (maxMatches (highlightConfig (config view)))
            /\ ((1 < List.length (EditorSelection.ranges (selection (state view))))%nat ->
                Decoration.none = [])
            /\ forall d, In d Decoration.none ->
                 let range := EditorSelection.main (selection (state view)) in
                 (exists part, In part (visibleRanges view)
                               /\ fst part <= Decoration.from d
                               /\ Decoration.to d <= snd part)
                 /\ sliceDoc (state view) (Decoration.from d) (Decoration.to d) = query
                 /\ (SelectionRange.to range <= Decoration.from d
                     \/ Decoration.to d <= SelectionRange.from range
                     \/ (Decoration.from d <= SelectionRange.from range
                         /\ SelectionRange.to range <= Decoration.to d
                         /\ Decoration.value d = mainMatchDeco))).
  { intros query. split; [cbn; lia|]. split; [reflexivity|intros d []]. }
  assert (Hparts : forall check query,
            (List.length (EditorSelection.ranges (selection (state view))) <= 1)%nat ->
            let deco := partsFold (state view) (highlightConfig (config view))
                          (EditorSelection.main (selection (state view))) check query
                          (visibleRanges view) [] in
            Z.of_nat (List.length deco)
            <= Z.max 0 (maxMatches (highlightConfig (config view)))
            /\ ((1 < List.length (EditorSelection.ranges (selection (state view))))%nat ->
                deco = [])
            /\ forall d, In d deco ->
                 let range := EditorSelection.main (selection (state view)) in
                 (exists part, In part (visibleRanges view)
                               /\ fst part <= Decoration.from d
                               /\ Decoration.to d <= snd part)
                 /\ sliceDoc (state view) (Decoration.from d) (Decoration.to d) = query
                 /\ (SelectionRange.to range <= Decoration.from d
                     \/ Decoration.to d <= SelectionRange.from range
                     \/ (Decoration.from d <= SelectionRange.from range
                         /\ SelectionRange.to range <= Decoration.to d
                         /\ Decoration.value d = mainMatchDeco))).
  { intros check query Hone deco. split; [|split].
    - apply partsFold_length. cbn. lia.
    - intros Hmany. lia.
    - intros d Hd range. apply partsFold_In in Hd as [[]|(part & p & Hpart & Hocc & _ & Hd)].
      destruct Hocc as (Ha & Hb & H0 & Hfits & Heq).
      apply decorationFor_In in Hd as (Hfrom & Hto & Hkind). rewrite Hfrom, Hto.
      split; [exists part; repeat split; [assumption|lia|lia]|].
      split; [rewrite !map_id in Heq; exact Heq|].
      destruct Hkind as [(Hmain & _ & Hl & Hr)|(_ & [Hout|Hout])];
        [right; right; repeat split; assumption|now left|right; now left]. }
  unfold getDeco. cbv zeta.
  destruct (Nat.ltb_spec 1 (List.length (EditorSelection.ranges (selection (state view)))))
    as [Hmany|Hone].
  { exists Decoration.none, []. split; [reflexivity|apply Hnone]. }
  destruct (SelectionRange.empty _).
  - destruct (negb _).
    { exists Decoration.none, []. split; [reflexivity|apply Hnone]. }
    destruct (wordAt _ _) as [word|].
    2:{ exists Decoration.none, []. split; [reflexivity|apply Hnone]. }
    rewrite getDeco_parts_spec. eexists _, _. split; [reflexivity|]. now apply Hparts.
  - destruct (_ || _).
    { exists Decoration.none, []. split; [reflexivity|apply Hnone]. }
    destruct (trim _) as [|c query] eqn:Htrim.
    { exists Decoration.none, []. split; [reflexivity|apply Hnone]. }
    rewrite getDeco_parts_spec. eexists _, _. split; [reflexivity|]. now apply Hparts.
Qed.

(** ** Selecting the next occurrence: what is added *)

Lemma In_nonOverlappingFrom_create (doc : Text) (query : str) (a b : Z) (m : SearchResult) :
  In m (nonOverlappingFrom (SearchCursor.create doc query a b None)) ->
  exists p, m = resultAt query p /\ occursWithin doc (fun c => c) query a b p.
Proof.
  rewrite create_nonOverlapping. intros Hm. apply in_map_iff in Hm as (p & <- & Hp).
  exists p. split; [reflexivity|].
  now apply (proj1 (nonOverlappingIn_spec doc (fun c => c) query a b)).
Qed.

Lemma findNextOccurrence_occurrence {H : EditorHost} (state : EditorState) (query : str) :
  exists found,
    findNextOccurrence state query = Ok found
    /\ forall m, found = Some m ->
         exists p, m = resultAt query p /\ occursAt (doc state) (fun c => c) query p.
Proof.
  unfold findNextOccurrence. cbv zeta.
  set (ranges := EditorSelection.ranges (selection state)).
  set (ahead := SearchCursor.create (doc state) query (SelectionRange.to (lastRange ranges))
                                    (length (doc state)) None).
  set (cursor := SearchCursor.create (doc state) query 0
                   (Z.max 0 (SelectionRange.from (lastRange ranges) - 1)) None).
  pose proof (nonOverlapping_step ahead) as Hstep.
  destruct (SearchCursor.done (SearchCursor.next ahead)); cbn [negb].
  - rewrite findNextOccurrence_loop_spec by lia. eexists. split; [reflexivity|].
    intros m Hm. apply find_some in Hm as [Hm _].
    apply In_nonOverlappingFrom_create in Hm as (p & -> & _ & _ & Hocc).
    now exists p.
  - eexists. split; [reflexivity|]. intros m [= <-].
    assert (Hm : In (SearchCursor.value (SearchCursor.next ahead)) (nonOverlappingFrom ahead))
      by (rewrite Hstep; now left).
    apply In_nonOverlappingFrom_create in Hm as (p & -> & _ & _ & Hocc).
    now exists p.
Qed.

(** What [selectNextOccurrence] adds.  When no selected range is empty and
    the first range lies inside the document, the command either dispatches
    nothing and returns [false], or dispatches, scrolled into view, the
    selection the host's [addRange] makes of the selection and one range:
    a non-empty range that holds the text of the first range, which every
    selected range holds too. *)
Theorem selectNextOccurrence_adds_occurrence {H : EditorHost} (state : EditorState) :
  let ranges := EditorSelection.ranges (selection state) in
  (forall r, In r ranges -> SelectionRange.from r <> SelectionRange.to r) ->
  ranges <> [] ->
  0 <= SelectionRange.from (firstRange ranges) ->
  SelectionRange.to (firstRange ranges) <= length (doc state) ->
  selectNextOccurrence state = Ok (Returned None false)
  \/ exists m,
       selectNextOccurrence state
       = Ok (Returned
               (Some (mkTransaction []
                        (Some (addRange (selection state)
                                        (SelectionRange.range (from m) (to m))))
                        true))
               true)
       /\ from m < to m
       /\ to m = from m + length (selectedText state)
       /\ occursAt (doc state) (fun c => c) (selectedText state) (from m)
       /\ sliceDoc state (from m) (to m) = selectedText state
       /\ (forall r, In r ranges ->
             sliceDoc state (SelectionRange.from r) (SelectionRange.to r)
             = selectedText state).
Proof.
  intros ranges Hnonempty Hsome Hfrom Hto.
  unfold selectNextOccurrence. cbv zeta.
  fold (firstRange (EditorSelection.ranges (selection state))).
  fold (selectedText state). fold ranges.
  rewrite existsb_false.
  2:{ intros r Hr. apply Z.eqb_neq. now apply Hnonempty. }
  destruct (existsb _ ranges) eqn:Halike; [now left|].
  assert (Hsame : forall r, In r ranges ->
            sliceDoc state (SelectionRange.from r) (SelectionRange.to r)
            = selectedText state).
  { intros r Hr. apply str_eqb_eq, negb_false_iff.
    destruct (negb (str_eqb (sliceDoc state (SelectionRange.from r) (SelectionRange.to r))
                            (selectedText state))) eqn:Hr'; [|reflexivity].
    rewrite <- Halike. symmetry. apply existsb_exists. exists r. now split. }
  assert (Hfirst : In (firstRange ranges) ranges).
  { unfold firstRange. destruct ranges as [|r rs]; [congruence|]. now left. }
  assert (Htext : 0 < length (selectedText state)).
  { unfold selectedText. fold ranges. cbv zeta. unfold sliceDoc.
    pose proof (SelectionRange_from_le_to (firstRange ranges)).
    pose proof (Hnonempty _ Hfirst). rewrite length_slice; lia. }
  destruct (findNextOccurrence_occurrence state (selectedText state))
    as (found & -> & Hfound).
  cbn [bind]. destruct found as [m|]; [|now left].
  right. exists m. split; [reflexivity|].
  destruct (Hfound m Logic.eq_refl) as (p & -> & Hocc).
  cbn [resultAt from to]. split; [lia|]. split; [reflexivity|]. split; [exact Hocc|].
  split; [|exact Hsame].
  destruct Hocc as (_ & _ & Heq). rewrite !map_id in Heq. exact Heq.
Qed.

(** In [aaa aa] with [[1, 3)] and [[4, 6)] selected, the search wraps and
    finds [[0, 2)], which overlaps the first selected range; the example
    host joins the two, and the selection dispatched has two ranges. *)
Example selectNextOccurrence_joins_overlapping :
  findNextOccurrence overlappingSelected (lit "aa")
  = Ok (Some (mkResult 0 2 None))
  /\ selectNextOccurrence (H := plainHost) overlappingSelected
     = Ok (Returned
             (Some (mkTransaction []
                      (Some (EditorSelection.create
                               [SelectionRange.range 0 3; SelectionRange.range 4 6] 0))
                      true))
             true).
Proof. split; vm_compute; reflexivity. Qed.

(** ** Announcing a match *)

Lemma lineRest_length (s : str) : (List.length (lineRest s) <= List.length s)%nat.
Proof.
  induction s as [|c s IH]; [reflexivity|]. cbn [lineRest].
  destruct (isLineBreak c); cbn [List.length]; lia.
Qed.

Lemma lineAt_bounds (doc : Text) (pos : Z) :
  0 <= pos <= length doc ->
  0 <= lineFrom (lineAt doc pos) <= pos
  /\ pos <= lineTo (lineAt doc pos) <= length doc.
Proof.
  intros Hpos. unfold lineAt. cbv zeta. cbn [lineFrom lineTo].
  pose proof (lineRest_length (rev (firstn (Z.to_nat pos) doc))) as Hbefore.
  pose proof (lineRest_length (skipn (Z.to_nat pos) doc)) as Hafter.
  rewrite List.length_rev, List.length_firstn in Hbefore.
  rewrite List.length_skipn in Hafter.
  unfold length in *. lia.
Qed.

Lemma slice_all (text : str) : sliceString text 0 (length text) = text.
Proof.
  unfold sliceString, length. cbn [Z.to_nat skipn].
  rewrite Nat.sub_0_r, Nat2Z.id. apply List.firstn_all.
Qed.

Lemma announce_cutStart_spec (count : nat) (i : Z) (text : str) :
  0 <= i ->
  exists j, announce_cutStart count i text = sliceString text j (length text)
            /\ (j = 0 \/ i <= j < i + Z.of_nat count).
Proof.
  revert i; induction count as [|count IH]; intros i Hi; cbn [announce_cutStart].
  - exists 0. split; [now rewrite slice_all|now left].
  - destruct (negb _ && _).
    + exists i. split; [reflexivity|lia].
    + destruct (IH (i + 1)) as (j & Heq & Hj); [lia|].
      exists j. split; [exact Heq|lia].
Qed.

Lemma announce_cutEnd_spec (count : nat) (i : Z) (text : str) :
  exists j, announce_cutEnd count i text = sliceString text 0 j
            /\ (j = length text \/ i - Z.of_nat count < j <= i).
Proof.
  revert i; induction count as [|count IH]; intros i; cbn [announce_cutEnd].
  - exists (length text). split; [now rewrite slice_all|now left].
  - destruct (negb _ && _).
    + exists i. split; [reflexivity|lia].
    + destruct (IH (i - 1)) as (j & Heq & Hj). exists j. split; [exact Heq|lia].
Qed.

(** The text announced for a match inside the document is a slice of the
    document that holds the whole match, at most 30 characters before it
    and at most 30 after it, and reaches neither before the start of the
    line the match starts on nor past the end of the line it ends on. *)
Theorem announceMatch_contains (view : EditorView) (from_ to_ : Z) :
  0 <= from_ -> from_ <= to_ -> to_ <= length (doc (state view)) ->
  exists before after,
    announcedText (announceMatch view from_ to_)
    = sliceDoc (state view) (from_ - before) (to_ + after)
    /\ 0 <= before <= AnnounceMargin /\ 0 <= after <= AnnounceMargin
    /\ lineFrom (lineAt (doc (state view)) from_) <= from_ - before
    /\ to_ + after <= lineTo (lineAt (doc (state view)) to_).
Proof.
  intros Hfrom Hle Hto. unfold announceMatch. cbv zeta. cbn [announcedText].
  destruct (lineAt_bounds (doc (state view)) from_) as [[Hs0 Hs] _]; [lia|].
  destruct (lineAt_bounds (doc (state view)) to_) as [_ [He He']]; [lia|].
  set (lineStart := lineFrom (lineAt (doc (state view)) from_)) in *.
  set (lineEnd := lineTo (lineAt (doc (state view)) to_)) in *.
  set (start := Z.max lineStart (from_ - AnnounceMargin)).
  set (end_ := Z.min lineEnd (to_ + AnnounceMargin)).
  unfold AnnounceMargin in *.
  assert (Hcut : exists s1,
            (if negb (start =? lineStart)
             then announce_cutStart (Z.to_nat 30) 0 (sliceDoc (state view) start end_)
             else sliceDoc (state view) start end_)
            = sliceDoc (state view) s1 end_
            /\ lineStart <= s1 <= from_ /\ from_ - s1 <= 30).
  { destruct (Z.eqb_spec start lineStart) as [Heq|Hne]; cbn [negb].
    - exists start. split; [reflexivity|]. subst start. lia.
    - destruct (announce_cutStart_spec (Z.to_nat 30) 0 (sliceDoc (state view) start end_))
        as (j & -> & Hj); [lia|].
      exists (start + j). unfold sliceDoc.
      rewrite (length_slice (doc (state view)) start end_) by (subst start end_; lia).
      rewrite slice_slice by (subst start end_; lia).
      split; [f_equal; lia|]. subst start. lia. }
  destruct Hcut as (s1 & -> & Hs1 & Hnear).
  assert (Hlen1 : length (sliceDoc (state view) s1 end_) = end_ - s1)
    by (unfold sliceDoc; apply length_slice; subst end_; lia).
  destruct (Z.eqb_spec end_ lineEnd) as [Heq|Hne]; cbn [negb].
  - exists (from_ - s1), (end_ - to_).
    split; [f_equal; lia|]. subst end_. lia.
  - destruct (announce_cutEnd_spec (Z.to_nat (30 - 1))
                (length (sliceDoc (state view) s1 end_) - 1)
                (sliceDoc (state view) s1 end_)) as (j & -> & Hj).
    rewrite Hlen1 in Hj.
    exists (from_ - s1), (s1 + j - to_). unfold sliceDoc.
    rewrite slice_slice by (subst end_; lia).
    split; [f_equal; lia|]. subst end_. lia.
Qed.

(** ** The further properties at concrete inputs *)

(** The highlight window of a regular-expression query, at [ab cab]. *)
Lemma RegExpQuery_highlight_window_witness :
  exists ms,
    (forall (B : Type) (add : Z -> Z -> B -> B) (acc : B),
        highlight (E := plainEngine) (RegExpQuery (lit "ab") [] false) (lit "ab cab") 0 6
                  add acc
        = Ok (fold_left (fun acc m => add (from m) (to m) acc) ms acc))
    /\ Forall (inside 0 6) ms
    /\ StronglySorted startsBefore ms.
Proof.
  apply (RegExpQuery_highlight_window plainEngine_laws (lit "ab") [] false (lit "ab cab") 0 6).
  - lia.
  - lia.
  - vm_compute. discriminate.
Defined.

(** The matches of [ab] in [ab cab], with a limit of 1000. *)
Lemma matchAll_bounded_by_length_witness :
  exists ms,
    matchAll (E := plainEngine) (StringQuery (lit "ab") [] false) (lit "ab cab") 1000
    = Ok (Some ms)
    /\ Z.of_nat (List.length ms) <= 7
    /\ Forall (inside 0 6) ms
    /\ StronglySorted startsBefore ms.
Proof.
  apply (matchAll_bounded_by_length plainEngine_laws (StringQuery (lit "ab") [] false)
           (lit "ab cab") 1000).
  vm_compute. reflexivity.
Defined.

(** [replaceAll] at [ab cab]: both occurrences of [ab] become [X]. *)
Lemma replaceAll_short_document_witness :
  replaceAll (E := plainEngine) searchingAb
  = Ok (Returned
          (Some (mkTransaction [ChangeSpec.mk 0 2 (lit "X"); ChangeSpec.mk 4 6 (lit "X")]
                               None false))
          true).
Proof.
  refine (proj1 (replaceAll_short_document plainEngine_laws searchingAb
                   (mkSearchState (StringQuery (lit "ab") (lit "X") false) true)
                   Logic.eq_refl Logic.eq_refl _)).
  vm_compute. reflexivity.
Defined.

(** The marks of [aa] in the folded view are added in order. *)
Lemma searchHighlighter_literal_witness :
  searchHighlighter_highlight (E := plainEngine) foldedView
    (mkSearchState (StringQuery (lit "aa") [] false) true)
  = Ok (Built (literalMarks foldedView (lit "aa") false)).
Proof.
  refine (proj1 (proj1 (proj2 (proj2 (searchHighlighter_literal (E := plainEngine)
                                        foldedView (lit "aa") [] false true)))
                       Logic.eq_refl _ _ _)).
  - discriminate.
  - split; repeat constructor; cbn; lia.
  - vm_compute. discriminate.
Defined.

(** The three visible stretches of the folded view are scanned as two
    windows: the first two lie closer together than the margin. *)
Lemma searchHighlighter_windows_witness :
  searchHighlighter_highlight (E := plainEngine) foldedView
    (mkSearchState (StringQuery (lit "aa") [] false) true)
  = scanWindows (E := plainEngine) foldedView (StringQuery (lit "aa") [] false)
                [(0, 200); (600, 700)] (Built [])
  /\ StronglySorted farApart [(0, 200); (600, 700)].
Proof.
  destruct (searchHighlighter_windows (E := plainEngine) foldedView
              (mkSearchState (StringQuery (lit "aa") [] false) true))
    as (Hscan & Hsorted & _).
  - reflexivity.
  - reflexivity.
  - split; repeat constructor; cbn; lia.
  - split; [exact Hscan|exact Hsorted].
Defined.

(** [findNext] at [ab cab ab] with the first [ab] selected moves to the
    second. *)
Lemma findNext_literal_witness :
  findNext (E := plainEngine) replacingAb
  = Ok (Finished
          (Some (mkDispatch (mkTransaction [] (Some (single 4 6)) true)
                            (Some (announceMatch replacingAb 4 6))))
          true).
Proof.
  refine (proj1 (findNext_literal (E := plainEngine) replacingAb (lit "ab") (lit "XYZ")
                   false true Logic.eq_refl _)).
  discriminate.
Defined.

(** [findPrevious] at [ab cab ab] with the first [ab] selected wraps to the
    last. *)
Lemma findPrevious_spec_witness :
  findPrevious (E := plainEngine) replacingAb
  = Ok (Finished
          (Some (mkDispatch (mkTransaction [] (Some (single 7 9)) true)
                            (Some (announceMatch replacingAb 7 9))))
          true).
Proof.
  exact (proj1 (proj2 (findPrevious_spec (E := plainEngine) replacingAb
                         (mkSearchState (StringQuery (lit "ab") (lit "XYZ") false) true)
                         Logic.eq_refl Logic.eq_refl)
                      (lit "ab") (lit "XYZ") false Logic.eq_refl)).
Defined.

(** [selectMatches] at [ab cab ab]. *)
Lemma selectMatches_literal_witness :
  selectMatches (E := plainEngine) replacingAb
  = Ok (Returned
          (Some (mkTransaction []
                   (Some (EditorSelection.create
                            [SelectionRange.range 0 2; SelectionRange.range 4 6;
                             SelectionRange.range 7 9] 0))
                   false))
          true).
Proof.
  refine (proj1 (selectMatches_literal (E := plainEngine) replacingAb (lit "ab") (lit "XYZ")
                   false true Logic.eq_refl _)).
  discriminate.
Defined.

(** [selectSelectionMatches] at [ab cab ab] with the first [ab] selected. *)
Lemma selectSelectionMatches_spec_witness :
  exists i,
    selectSelectionMatches (state replacingAb)
    = Ok (Returned
            (Some (mkTransaction []
                     (Some (EditorSelection.create
                              [SelectionRange.range 0 2; SelectionRange.range 4 6;
                               SelectionRange.range 7 9] i))
                     false))
            true)
    /\ i = 0%nat.
Proof.
  destruct (selectSelectionMatches_spec (state replacingAb)) as (_ & Hsel & _).
  - cbn. lia.
  - reflexivity.
  - destruct Hsel as (i & Heq & Hmain & _); [vm_compute; discriminate|].
    exists i. split; [exact Heq|].
    specialize (Hmain (or_introl Logic.eq_refl)).
    destruct i as [|[|[|i]]]; [reflexivity|discriminate Hmain|discriminate Hmain|].
    destruct i; discriminate Hmain.
Defined.

(** [replaceNext] at [ab cab ab] with the first [ab] selected: it becomes
    [XYZ], and the second [ab], one character further on, is selected. *)
Lemma replaceNext_literal_witness :
  replaceNext (E := plainEngine) replacingAb
  = Ok (Finished
          (Some (mkDispatch
                   (mkTransaction [ChangeSpec.mk 0 2 (lit "XYZ")] (Some (single 5 7)) true)
                   (Some (announceMatch replacingAb 4 6))))
          true)
  /\ sliceString (applyChange (lit "ab cab ab") 0 2 (lit "XYZ")) 5 7 = lit "ab".
Proof.
  refine ((proj2 (proj2 (replaceNext_literal (E := plainEngine) replacingAb
                           (lit "ab") (lit "XYZ") false true Logic.eq_refl _)))
            (mkResult 0 2 None) Logic.eq_refl Logic.eq_refl).
  discriminate.
Defined.

(** [selectNextOccurrence] at [a a a] with the first and the last [a]
    selected. *)
Lemma selectNextOccurrence_adds_occurrence_witness :
  selectNextOccurrence (H := plainHost) outerSelected = Ok (Returned None false)
  \/ exists m,
       selectNextOccurrence (H := plainHost) outerSelected
       = Ok (Returned
               (Some (mkTransaction []
                        (Some (addRange (EditorHost := plainHost) (selection outerSelected)
                                        (SelectionRange.range (from m) (to m))))
                        true))
               true)
       /\ sliceDoc outerSelected (from m) (to m) = lit "a".
Proof.
  destruct (selectNextOccurrence_adds_occurrence (H := plainHost) outerSelected)
    as [Hnone|(m & Heq & _ & _ & _ & Htext & _)].
  - intros r [<-|[<-|[]]]; cbn; lia.
  - discriminate.
  - cbn. lia.
  - vm_compute. discriminate.
  - now left.
  - right. exists m. split; [exact Heq|exact Htext].
Defined.

(** The announcement for the second [ab] of [ab cab ab]. *)
Lemma announceMatch_contains_witness :
  exists before after,
    announcedText (announceMatch replacingAb 4 6)
    = sliceDoc (state replacingAb) (4 - before) (6 + after)
    /\ 0 <= before <= AnnounceMargin /\ 0 <= after <= AnnounceMargin
    /\ lineFrom (lineAt (doc (state replacingAb)) 4) <= 4 - before
    /\ 6 + after <= lineTo (lineAt (doc (state replacingAb)) 6).
Proof.
  apply (announceMatch_contains replacingAb 4 6).
  - lia.
  - lia.
  - vm_compute. discriminate.
Defined.

(** ** Selecting the next occurrence: forward, before wrapping *)

Lemma hd_nonOverlappingIn (doc : Text) (norm : ascii -> ascii) (needle : str) (a b : Z) :
  hd_error (nonOverlappingIn doc norm needle a b)
  = hd_error (occurrencesIn doc norm needle a b).
Proof.
  unfold nonOverlappingIn.
  destruct (occurrencesIn doc norm needle a b) as [|p ps] eqn:Ho; [reflexivity|].
  assert (Hp : occursWithin doc norm needle a b p)
    by (apply In_occurrencesIn; rewrite Ho; now left).
  destruct Hp as (Ha & _ & H0 & _). cbn [thin].
  destruct (Z.ltb_spec p (Z.max 0 a)); [lia|reflexivity].
Qed.

Lemma findNextOccurrence_ahead {H : EditorHost} (state : EditorState) (query : str)
    (m : SearchResult) :
  firstMatchIn (doc state) (fun c => c) query
    (SelectionRange.to (lastRange (EditorSelection.ranges (selection state))))
    (length (doc state)) = Some m ->
  findNextOccurrence state query = Ok (Some m).
Proof.
  intros Hm. unfold findNextOccurrence. cbv zeta.
  pose proof (nonOverlapping_step
                (SearchCursor.create (doc state) query
                   (SelectionRange.to (lastRange (EditorSelection.ranges (selection state))))
                   (length (doc state)) None)) as Hstep.
  rewrite create_nonOverlapping in Hstep.
  apply (f_equal (@hd_error SearchResult)) in Hstep.
  rewrite hd_error_map, hd_nonOverlappingIn in Hstep.
  unfold firstMatchIn in Hm. rewrite Hm in Hstep.
  destruct (SearchCursor.done (SearchCursor.next _)); [discriminate|].
  cbn [negb hd_error] in *. now injection Hstep as <-.
Qed.

(** When no selected range is empty, every selected range holds the text of
    the first one, and that text occurs between the end of the last
    selected range and the end of the document, [selectNextOccurrence] adds
    the first such occurrence to the selection, without looking at the
    start of the document; the new range lies at or after the end of the
    last selected range and holds the selected text. *)
Theorem selectNextOccurrence_forward {H : EditorHost} (state : EditorState)
    (m : SearchResult) :
  (forall r, In r (EditorSelection.ranges (selection state)) ->
             SelectionRange.from r <> SelectionRange.to r) ->
  (forall r, In r (EditorSelection.ranges (selection state)) ->
             sliceDoc state (SelectionRange.from r) (SelectionRange.to r)
             = selectedText state) ->
  isFirstMatch (doc state) (fun c => c) (selectedText state)
    (SelectionRange.to (lastRange (EditorSelection.ranges (selection state))))
    (length (doc state)) m ->
  selectNextOccurrence state = Ok (addOccurrence state (Some m))
  /\ SelectionRange.to (lastRange (EditorSelection.ranges (selection state))) <= from m
  /\ sliceDoc state (from m) (to m) = selectedText state.
Proof.
  intros Hnonempty Halike Hfirst. split.
  - apply firstMatchIn_Some in Hfirst.
    unfold selectNextOccurrence. cbv zeta.
    rewrite existsb_false.
    2:{ intros r Hr. apply Z.eqb_neq. now apply Hnonempty. }
    rewrite existsb_false.
    2:{ intros r Hr. apply negb_false_iff, str_eqb_eq. now apply Halike. }
    fold (firstRange (EditorSelection.ranges (selection state))).
    fold (selectedText state).
    now rewrite (findNextOccurrence_ahead state _ m Hfirst).
  - destruct Hfirst as (p & -> & (Ha & _ & _ & _ & Heq) & _). cbn [resultAt from to].
    split; [exact Ha|]. rewrite !map_id in Heq. exact Heq.
Qed.

(** [selectNextOccurrence] at [ab cab ab] with the first [ab] selected adds
    the second. *)
Lemma selectNextOccurrence_forward_witness :
  selectNextOccurrence (H := plainHost) (state replacingAb)
  = Ok (addOccurrence (H := plainHost) (state replacingAb) (Some (mkResult 4 6 None))).
Proof.
  refine (proj1 (selectNextOccurrence_forward (H := plainHost) (state replacingAb)
                   (mkResult 4 6 None) _ _ _)).
  - intros r [<-|[]]; cbn; lia.
  - intros r [<-|[]]; reflexivity.
  - apply firstMatchIn_Some. reflexivity.
Defined.
